(** * The tool-discovery engine of the MCP vector proxy

    A shallow embedding of the proxy server of [src/src/tray.ts] (the part of
    the bundle that starts with the MCP SDK imports): the catalog fingerprint,
    the cosine similarity, the incremental index builder [buildIndex] and
    the request handlers of [createMCPServer], followed by the properties of
    the specification that bear on them. Around this core: the polling and
    the connection loop of the proxy ([startPolling],
    [connectToRouterWithRetry]), [loadDotEnv], the icons that the tray draws
    ([crc32], [pngChunk], [makePng], [makeIco]) and the stdio bridge of
    [src/src/stdio-bridge.ts], each with the properties that its code shows.

    - JavaScript numbers are IEEE 754 binary64 values: they are the
      kernel's primitive floats, whose operations are specified in
      [FloatAxioms] over [SpecFloat].
    - Strings are sequences of code units, here the code units below 256,
      as [string].
    - The module state ([routerClient], [routerConnected], [toolIndex],
      [reindexing]) and the snapshot file are a record [State], passed
      explicitly; what the collaborators do (the upstream router, the
      embedding model, the clock, the disk) is a record [World]. A function
      returns its completion (a value or a thrown error), the new state and
      the events it caused, in order.
    - A handler runs from its call to its return: the interleaving of
      several asynchronous handlers is not modelled.
    - [Array.prototype.sort] is the stable sort of ECMAScript 2019,
      modelled by the stable merge sort of [path]. For a comparator that is
      consistent on the array every stable sort returns the same array; for
      one that is not (here: a NaN among the scores) ECMAScript leaves the
      order to the implementation, and nothing is proved of it.
    - A [Buffer] is a sequence of bytes, and the 32-bit operators of
      JavaScript are written out on [Z]. The compressor of zlib is a
      parameter of [makePng].
    - A loop that need not end ([connectToRouterWithRetry]) takes the
      number of turns it may run, and says when it has not returned. *)

From Stdlib Require Import ZArith Lia String Ascii Floats Permutation.
From Stdlib Require Strings.Byte.
From HB Require Import structures.
From mathcomp Require Import ssreflect ssrfun ssrbool eqtype ssrnat seq path.

Set Implicit Arguments.
Unset Strict Implicit.
Unset Printing Implicit Defensive.

(** ** Strings *)

HB.instance Definition _ := hasDecEq.Build ascii Ascii.eqb_spec.
HB.instance Definition _ := hasDecEq.Build string String.eqb_spec.

Definition code (c : ascii) : nat := nat_of_ascii c.

(** [x <= y] for strings, the negation of the [y < x] of [IsLessThan]:
    lexicographic on code units, a proper prefix first. *)
Fixpoint str_le (s t : string) : bool :=
  match s, t with
  | EmptyString, _ => true
  | String _ _, EmptyString => false
  | String a s', String b t' =>
      if code a == code b then str_le s' t' else code a < code b
  end.

(** The white space and line terminators that [String.prototype.trim]
    strips, among the code units below 256: TAB, LF, VT, FF, CR, SP, NBSP. *)
Definition is_ws (c : ascii) : bool :=
  code c \in [:: 9; 10; 11; 12; 13; 32; 160].

Fixpoint ltrim (s : string) : string :=
  match s with
  | EmptyString => EmptyString
  | String c s' => if is_ws c then ltrim s' else s
  end.

Fixpoint rtrim (s : string) : string :=
  match s with
  | EmptyString => EmptyString
  | String c s' =>
      let r := rtrim s' in
      if is_ws c && (r == EmptyString) then EmptyString else String c r
  end.

Definition trim (s : string) : string := rtrim (ltrim s).

Definition LF : string := String (ascii_of_nat 10) EmptyString.

(** [Array.prototype.join]. *)
Definition join (sep : string) (l : seq string) : string := String.concat sep l.

(** ** JavaScript values and completions *)

Inductive value :=
| VUndefined
| VNull
| VBool (b : bool)
| VNumber (x : float)
| VString (s : string)
| VArray (items : seq value)
| VObject (fields : seq (string * value)).

(** [v ?? d]. *)
Definition nullish (v : value) : bool :=
  match v with VUndefined | VNull => true | _ => false end.

Definition coalesce (v d : value) : value := if nullish v then d else v.

Definition empty_object : value := VObject [::].

(** [typeof v !== "string" || !v.trim()], the test the handlers run on
    [query] and [tool_name]. *)
Definition not_a_name (v : value) : bool :=
  match v with
  | VString s => trim s == EmptyString
  | _ => true
  end.

(** A thrown [Error]: [String(e)] is [Error.prototype.toString]. *)
Record exn := Error { err_name : string; err_message : string }.

Definition String_of_exn (e : exn) : string :=
  if err_name e == EmptyString then err_message e
  else if err_message e == EmptyString then err_name e
  else (err_name e ++ ": " ++ err_message e)%string.

Inductive completion (A : Type) :=
| Normal (a : A)
| Throw (e : exn).
Arguments Normal {A} a.
Arguments Throw {A} e.

Definition bind {A B} (c : completion A) (k : A -> completion B) : completion B :=
  match c with Normal a => k a | Throw e => Throw e end.

(** ** Types of the index *)

Record ToolEntry := mkToolEntry {
  name : string;
  description : string;
  inputSchema : value;
  embedding : seq float
}.

Record ToolIndex := mkToolIndex {
  tools : seq ToolEntry;
  indexedAt : string;
  stored_fingerprint : string
}.

(** An entry of the upstream catalog, as [listTools] returns it: the
    description may be absent or null. *)
Record LiveTool := mkLiveTool {
  live_name : string;
  live_description : option string;
  live_inputSchema : value
}.

Definition desc_of (t : LiveTool) : string :=
  if live_description t is Some d then d else EmptyString.

(** The snapshot file [CACHE_FILE]: absent, unreadable as JSON of the
    expected shape, or the index last written (what [JSON.parse] makes of
    what [JSON.stringify] wrote). *)
Inductive file :=
| Missing
| Corrupt
| Stored (ix : ToolIndex).

(** What the disk does with [writeFileSync(tmp, ...)] followed by
    [renameSync(tmp, CACHE_FILE)]. *)
Inductive disk_outcome :=
| WriteOk
| WriteThrows (e : exn)
| RenameThrows (e : exn).

(** ** Shared state and collaborators *)

Record State := mkState {
  routerClient : bool;          (* [routerClient !== null] *)
  routerConnected : bool;
  toolIndex : ToolIndex;
  reindexing : bool;
  cache_file : file
}.

Definition initial_index : ToolIndex := mkToolIndex [::] EmptyString EmptyString.

Definition initial_state (f : file) : State :=
  mkState false false initial_index false f.

(** The collaborators of the proxy: the upstream router, the embedding
    model, the clock, the disk and [JSON.stringify]. *)
Record World := mkWorld {
  listTools : completion (seq LiveTool);
  callTool : string -> value -> completion value;
  embedder : string -> completion (seq float);
  now : string;
  disk : disk_outcome;
  JSON_stringify : value -> string;
  DISCOVER_LIMIT : float
}.

Inductive log_line :=
| LogSkipNotConnected
| LogSkipInProgress
| LogNoChanges (n : nat)
| LogReindexed (reason : string) (added removed unchanged total : nat).

Inductive event :=
| EvLog (l : log_line)
| EvListTools
| EvEmbed (text : string)
| EvCallTool (tool : string) (args : value)
| EvWriteFile (ix : ToolIndex).

(** ** Utilities: [fingerprint], [cosine] *)

Definition fingerprint_line (w : World) (t : LiveTool) : string :=
  (live_name t ++ "|" ++ desc_of t ++ "|"
     ++ JSON_stringify w (coalesce (live_inputSchema t) empty_object))%string.

Definition fingerprint (w : World) (tools : seq LiveTool) : string :=
  join LF (sort str_le [seq fingerprint_line w t | t <- tools]).

(** The loop of [cosine]: it runs over the indices of [a]; reading [b]
    past its end yields [undefined], which arithmetic turns into NaN. *)
Fixpoint cosine_loop (a b : seq float) (acc : float * float * float)
  : float * float * float :=
  match a with
  | [::] => acc
  | x :: a' =>
      let y := head nan b in
      let: (dot, magA, magB) := acc in
      cosine_loop a' (behead b) (dot + x * y, magA + x * x, magB + y * y)%float
  end.

Definition cosine (a b : seq float) : float :=
  let: (dot, magA, magB) := cosine_loop a b (0, 0, 0)%float in
  let denom := (sqrt magA * sqrt magB)%float in
  if (denom =? 0)%float then 0%float else (dot / denom)%float.

Definition embed (w : World) (text : string) : completion (seq float) :=
  embedder w text.

(** ** The vector index: [buildIndex] *)

Record Counts := mkCounts { added : nat; removed : nat; unchanged : nat }.

(** The key of [embeddingCache]: [`${name}|||${description}`]. *)
Definition cache_key (n d : string) : string := (n ++ "|||" ++ d)%string.

(** [embeddingCache], a JS object used as a map from keys to vectors: an
    assignment to a key that is already present replaces its vector. *)
Definition cache := seq (string * seq float).

Definition cache_set (c : cache) (k : string) (v : seq float) : cache :=
  (k, v) :: c.

Fixpoint cache_get (c : cache) (k : string) : option (seq float) :=
  match c with
  | [::] => None
  | (k', v) :: c' => if k' == k then Some v else cache_get c' k
  end.

Definition entry_key (t : ToolEntry) : string :=
  cache_key (name t) (description t).

Definition seed_cache (c : cache) (ts : seq ToolEntry) : cache :=
  foldl (fun c t => cache_set c (entry_key t) (embedding t)) c ts.

(** The cold-start seeding: only when the file exists and the index in
    memory is empty; a file that does not parse is ignored. *)
Definition seed_from_file (c : cache) (f : file) (ix : ToolIndex) : cache :=
  match f with
  | Missing => c
  | Corrupt => c
  | Stored cached => if size (tools ix) == 0 then seed_cache c (tools cached) else c
  end.

Definition live_key (t : LiveTool) : string :=
  cache_key (live_name t) (desc_of t).

Definition embed_text (t : LiveTool) : string :=
  (live_name t ++ ": " ++ desc_of t)%string.

Definition entry_of (t : LiveTool) (e : seq float) : ToolEntry :=
  mkToolEntry (live_name t) (desc_of t) (live_inputSchema t) e.

(** The loop over [liveTools]: the entries in upstream order, the number of
    vectors newly computed, and the calls of the embedder. A rejected
    [embed] ends the loop. *)
Fixpoint embed_all (w : World) (c : cache) (live : seq LiveTool)
  : completion (seq ToolEntry * nat) * seq event :=
  match live with
  | [::] => (Normal ([::], 0), [::])
  | tool :: rest =>
      match cache_get c (live_key tool) with
      | Some e =>
          let: (r, evs) := embed_all w c rest in
          (bind r (fun ea => Normal (entry_of tool e :: ea.1, ea.2)), evs)
      | None =>
          match embed w (embed_text tool) with
          | Throw ex => (Throw ex, [:: EvEmbed (embed_text tool)])
          | Normal e =>
              let: (r, evs) := embed_all w c rest in
              (bind r (fun ea => Normal (entry_of tool e :: ea.1, ea.2.+1)),
               EvEmbed (embed_text tool) :: evs)
          end
      end
  end.

Definition set_reindexing (s : State) (b : bool) : State :=
  mkState (routerClient s) (routerConnected s) (toolIndex s) b (cache_file s).

Definition publish (s : State) (ix : ToolIndex) (f : file) : State :=
  mkState (routerClient s) (routerConnected s) ix false f.

Definition buildIndex (w : World) (reason : string) (s : State)
  : completion Counts * State * seq event :=
  if ~~ routerClient s || ~~ routerConnected s then
    (Normal (mkCounts 0 0 0), s, [:: EvLog LogSkipNotConnected])
  else if reindexing s then
    (Normal (mkCounts 0 0 0), s, [:: EvLog LogSkipInProgress])
  else
    match listTools w with
    | Throw e => (Throw e, set_reindexing s false, [:: EvListTools])
    | Normal liveTools =>
        let newFingerprint := fingerprint w liveTools in
        let old := toolIndex s in
        if (newFingerprint == stored_fingerprint old) && (0 < size (tools old)) then
          (Normal (mkCounts 0 0 (size liveTools)), set_reindexing s false,
           [:: EvListTools; EvLog (LogNoChanges (size liveTools))])
        else
          let embeddingCache :=
            seed_from_file (seed_cache [::] (tools old)) (cache_file s) old in
          let liveNames := [seq live_name t | t <- liveTools] in
          let removed := [seq n <- [seq name t | t <- tools old] | n \notin liveNames] in
          match embed_all w embeddingCache liveTools with
          | (Throw e, evs) => (Throw e, set_reindexing s false, EvListTools :: evs)
          | (Normal (entries, added), evs) =>
              let unchanged := size entries - added in
              let ix := mkToolIndex entries (now w) newFingerprint in
              match disk w with
              | WriteThrows e | RenameThrows e =>
                  (Throw e, publish s ix (cache_file s),
                   EvListTools :: evs ++ [:: EvWriteFile ix])
              | WriteOk =>
                  (Normal (mkCounts added (size removed) unchanged),
                   publish s ix (Stored ix),
                   EvListTools :: evs ++
                     [:: EvWriteFile ix;
                         EvLog (LogReindexed reason added (size removed) unchanged
                                  (size entries))])
              end
          end
    end.

(** ** Number conversions of the discover handler *)

Inductive integer_or_infinity :=
| Finite (z : Z)
| PlusInfinity
| MinusInfinity.

(** [ToIntegerOrInfinity] of a number: NaN and the zeros give 0, a finite
    number is truncated towards zero. *)
Definition ToIntegerOrInfinity (x : float) : integer_or_infinity :=
  match Prim2SF x with
  | S754_nan => Finite 0
  | S754_zero _ => Finite 0
  | S754_infinity s => if s then MinusInfinity else PlusInfinity
  | S754_finite s m e =>
      let a := if (0 <=? e)%Z then (Zpos m * 2 ^ e)%Z else (Zpos m / 2 ^ (- e))%Z in
      Finite (if s then (- a)%Z else a)
  end.

(** The index at which [Array.prototype.slice(0, end)] stops, for an array
    of length [len]. *)
Definition slice_end (len : nat) (e : integer_or_infinity) : nat :=
  match e with
  | MinusInfinity => 0
  | PlusInfinity => len
  | Finite z =>
      if (z <? 0)%Z then Z.to_nat (Z.max (Z.of_nat len + z) 0)
      else Z.to_nat (Z.min z (Z.of_nat len))
  end.

Definition slice0 {T} (l : seq T) (e : float) : seq T :=
  take (slice_end (size l) (ToIntegerOrInfinity e)) l.

(** [Array.prototype.sort(comparefn)], a stable sort: [a] stays before [b]
    unless [comparefn(a, b) > 0]; a NaN from the comparator counts as 0. *)
Definition js_sort {T} (comparefn : T -> T -> float) (l : seq T) : seq T :=
  sort (fun a b => ~~ (0 <? comparefn a b)%float) l.

(** [x.toFixed(4)]: the integer [n] for which [n / 10^4 - |x|] is closest to
    zero, the larger one on a tie, for [|x| = m * 2^e]. *)
Definition toFixed4_digits (m : positive) (e : Z) : Z :=
  if (0 <=? e)%Z then (Zpos m * 2 ^ e * 10000)%Z
  else ((2 * Zpos m * 10000 + 2 ^ (- e)) / 2 ^ (1 - e))%Z.

(** [parseFloat] of the decimal [n / 10^4] with sign [s]: the nearest
    binary64 number. *)
Definition parse_dec4 (s : bool) (n : Z) : float :=
  match n with
  | Zpos p => SF2Prim (SF64div (S754_finite s p 0) (S754_finite false 10000 0))
  | _ => if s then neg_zero else zero
  end.

(** [parseFloat(x.toFixed(4))]. From 10^21 on, and for NaN and the
    infinities, [toFixed] prints the number as [ToString] does, and
    [parseFloat] reads it back. *)
Definition toFixed4_parse (x : float) : float :=
  match Prim2SF x with
  | S754_finite s m e =>
      if (1e21 <=? abs x)%float then x else parse_dec4 s (toFixed4_digits m e)
  | S754_zero _ => zero
  | _ => x
  end.

(** ** The request handlers of [createMCPServer] *)

(** The arguments of [discover_tools]: [query] is checked at run time,
    [limit] is read as a number, absent when undefined or null. *)
Record DiscoverArgs := mkDiscoverArgs {
  query : value;
  limit : option float
}.

(** The arguments of [execute_tool], and the properties of one entry of
    the [calls] of [batch_execute]; an absent field is [VUndefined]. *)
Record Call := mkCall {
  tool_name : value;
  arguments : value
}.

Inductive error_text :=
| NotConnectedYet      (* "MCP Router is not connected yet. Tools will be available shortly ..." *)
| QueryRequired        (* "query is required and must be a non-empty string." *)
| NotConnected         (* "MCP Router is not connected. Please wait for reconnection." *)
| ToolNameRequired     (* "tool_name is required and must be a non-empty string." *)
| CallsRequired        (* "calls must be a non-empty array of {tool_name, arguments} objects." *)
| EachCallNeedsName.   (* "Each call must have a non-empty tool_name string." *)

Record DiscoverItem := mkDiscoverItem {
  item_name : string;
  item_description : string;
  relevance : float;
  item_inputSchema : value
}.

(** One element of the array [calls] of [batch_execute], as the handler
    uses it: [null], [undefined], or any other value, of which it reads the
    properties [tool_name] and [arguments]. *)
Inductive Entry :=
| NullEntry
| UndefinedEntry
| ValueEntry (call : Call).

(** [v[key]] on the fields of an object of JSON: the value of the last
    field of that name, [undefined] when there is none. *)
Definition property (fields : seq (string * value)) (key : string) : value :=
  last VUndefined [seq kv.2 | kv <- fields & kv.1 == key].

(** The element that a value is: a number, a boolean, a string and an array
    have neither property. *)
Definition Entry_of_value (v : value) : Entry :=
  match v with
  | VNull => NullEntry
  | VUndefined => UndefinedEntry
  | VObject fields =>
      ValueEntry (mkCall (property fields "tool_name") (property fields "arguments"))
  | _ => ValueEntry (mkCall VUndefined VUndefined)
  end.

(** The TypeError of [call.tool_name] on [null] and on [undefined]. *)
Definition cannot_read (what : string) : exn :=
  Error "TypeError" ("Cannot read properties of " ++ what ++ " (reading 'tool_name')").

(** Reading [call.tool_name], the first thing that the validation loop and
    the callback of [calls.map] do with an element, and then
    [call.arguments]. *)
Definition properties (call : Entry) : completion Call :=
  match call with
  | NullEntry => Throw (cannot_read "null")
  | UndefinedEntry => Throw (cannot_read "undefined")
  | ValueEntry c => Normal c
  end.

(** One element of the result of [batch_execute]:
    [{ tool_name, success: true, result }] or
    [{ tool_name, success: false, error }]. *)
Inductive BatchItem :=
| BatchSuccess (tool : string) (result : value)
| BatchFailure (tool : string) (error : string).

Definition batch_tool (b : BatchItem) : string :=
  match b with BatchSuccess t _ => t | BatchFailure t _ => t end.

Definition success (b : BatchItem) : bool :=
  if b is BatchSuccess _ _ then true else false.

Inductive response :=
| IsError (text : error_text)
| Discovered (items : seq DiscoverItem)
| Upstream (result : value)
| Batch (items : seq BatchItem)
| Reindexed (total added removed : nat) (updated : string)
| CannotRefresh.

Inductive request :=
| DiscoverTools (args : DiscoverArgs)
| ExecuteTool (args : Call)
| BatchExecute (calls : option (seq Entry))   (* [None]: not an array *)
| RefreshTools
| OtherTool (name : string).

Record Scored := mkScored { tool : ToolEntry; score : float }.

(** The ranking of [discover_tools]: map, sort, slice. *)
Definition rank (queryEmbedding : seq float) (ts : seq ToolEntry) (limit : float)
  : seq Scored :=
  slice0
    (js_sort (fun a b => (score b - score a)%float)
       [seq mkScored t (cosine queryEmbedding (embedding t)) | t <- ts])
    limit.

Definition item_of (r : Scored) : DiscoverItem :=
  mkDiscoverItem (name (tool r)) (description (tool r))
    (toFixed4_parse (score r)) (inputSchema (tool r)).

Definition discover_tools (w : World) (s : State) (args : DiscoverArgs)
  : completion response * seq event :=
  if ~~ routerConnected s || (size (tools (toolIndex s)) == 0) then
    (Normal (IsError NotConnectedYet), [::])
  else
    match query args with
    | VString q =>
        if trim q == EmptyString then (Normal (IsError QueryRequired), [::])
        else
          let limit := if limit args is Some l then l else DISCOVER_LIMIT w in
          match embed w q with
          | Throw e => (Throw e, [:: EvEmbed q])
          | Normal queryEmbedding =>
              (Normal (Discovered
                 [seq item_of r | r <- rank queryEmbedding (tools (toolIndex s)) limit]),
               [:: EvEmbed q])
          end
    | _ => (Normal (IsError QueryRequired), [::])
    end.

Definition execute_tool (w : World) (s : State) (args : Call)
  : completion response * seq event :=
  if ~~ routerClient s || ~~ routerConnected s then
    (Normal (IsError NotConnected), [::])
  else
    match tool_name args with
    | VString toolName =>
        if trim toolName == EmptyString then (Normal (IsError ToolNameRequired), [::])
        else
          let toolArgs := coalesce (arguments args) empty_object in
          (bind (callTool w toolName toolArgs) (fun r => Normal (Upstream r)),
           [:: EvCallTool toolName toolArgs])
    | _ => (Normal (IsError ToolNameRequired), [::])
    end.

(** [call.tool_name as string], once the validation loop has passed. *)
Definition as_string (v : value) : string :=
  if v is VString s then s else EmptyString.

(** The body of the [calls.map] of [batch_execute]: the [try]/[catch]
    around one upstream call. *)
Definition run_call (w : World) (call : Call) : BatchItem :=
  let toolName := as_string (tool_name call) in
  let toolArgs := coalesce (arguments call) empty_object in
  match callTool w toolName toolArgs with
  | Normal result => BatchSuccess toolName result
  | Throw e => BatchFailure toolName (String_of_exn e)
  end.

Definition call_event (call : Call) : event :=
  EvCallTool (as_string (tool_name call)) (coalesce (arguments call) empty_object).

(** The validation loop of [batch_execute]: [Normal false] when it returns
    the error result, [Normal true] when it ends; it throws where reading
    [call.tool_name] does. *)
Fixpoint validate (calls : seq Entry) : completion bool :=
  match calls with
  | [::] => Normal true
  | call :: calls' =>
      bind (properties call) (fun c =>
        if not_a_name (tool_name c) then Normal false else validate calls')
  end.

(** The callback of [calls.map], an [async] function: it runs up to the
    call of [callTool] as soon as it is called, and its promise is rejected
    only where reading [call.tool_name] throws. *)
Definition run_entry (w : World) (call : Entry) : completion BatchItem :=
  bind (properties call) (fun c => Normal (run_call w c)).

Definition entry_events (call : Entry) : seq event :=
  if call is ValueEntry c then [:: call_event c] else [::].

(** [Promise.all] of promises that are settled in the order of the array:
    the values, or the first rejection. *)
Fixpoint Promise_all (T : Type) (ps : seq (completion T)) : completion (seq T) :=
  match ps with
  | [::] => Normal [::]
  | p :: ps' =>
      bind p (fun x => bind (Promise_all ps') (fun xs => Normal (x :: xs)))
  end.

Definition batch_execute (w : World) (s : State) (calls : option (seq Entry))
  : completion response * seq event :=
  if ~~ routerClient s || ~~ routerConnected s then
    (Normal (IsError NotConnected), [::])
  else
    match calls with
    | None => (Normal (IsError CallsRequired), [::])
    | Some calls =>
        if size calls == 0 then (Normal (IsError CallsRequired), [::])
        else
          match validate calls with
          | Throw e => (Throw e, [::])
          | Normal false => (Normal (IsError EachCallNeedsName), [::])
          | Normal true =>
              (bind (Promise_all [seq run_entry w call | call <- calls])
                 (fun results => Normal (Batch results)),
               flatten [seq entry_events call | call <- calls])
          end
    end.

Definition refresh_tools (w : World) (s : State)
  : completion response * State * seq event :=
  let: (r, s', evs) := buildIndex w "manual" s in
  (bind r (fun result =>
     Normal (if routerConnected s'
             then Reindexed (size (tools (toolIndex s'))) (added result)
                    (removed result) (indexedAt (toolIndex s'))
             else CannotRefresh)),
   s', evs).

(** The handler of [CallToolRequestSchema]. *)
Definition handle (w : World) (s : State) (r : request)
  : completion response * State * seq event :=
  match r with
  | DiscoverTools args => let: (c, evs) := discover_tools w s args in (c, s, evs)
  | ExecuteTool args => let: (c, evs) := execute_tool w s args in (c, s, evs)
  | BatchExecute calls => let: (c, evs) := batch_execute w s calls in (c, s, evs)
  | RefreshTools => refresh_tools w s
  | OtherTool name =>
      (Throw (Error "Error" ("Unknown tool: " ++ name)), s, [::])
  end.

(** ** The connection events that change the shared state *)

(** The assignments of [connectToRouterWithRetry] after a successful
    [client.connect], which are followed by [buildIndex("startup")], and
    those of the [onclose] handler of the transport. *)
Definition connect (s : State) : State :=
  mkState true true (toolIndex s) (reindexing s) (cache_file s).

Definition onclose (s : State) : State :=
  mkState false false (toolIndex s) (reindexing s) (cache_file s).

(** ** Polling and the connection loop *)

(** The rest of the module state of the proxy: the interval timer of the
    poll ([pollTimer], with the timers that are running), the guard of the
    reconnection, and the number of transports created so far. *)
Record Proxy := mkProxy {
  core : State;
  pollTimer : option nat;
  timers : seq nat;
  next_timer : nat;
  reconnecting : bool;
  transports : nat
}.

Definition initial_proxy (f : file) : Proxy :=
  mkProxy (initial_state f) None [::] 0 false 0.

Definition with_core (p : Proxy) (s : State) : Proxy :=
  mkProxy s (pollTimer p) (timers p) (next_timer p) (reconnecting p) (transports p).

Inductive proxy_log :=
| LogConnecting (attempt : nat)
| LogConnected
| LogUnavailable (e : exn) (delay : Z)
| LogPolling
| LogPollChanges
| LogPollError (e : exn)
| LogDisconnected
| LogNotification.

Inductive proxy_event :=
| Core (ev : event)
| PLog (l : proxy_log)
| Sleep (ms : Z)
| Launch (transport : nat)
| ReconnectIn (ms : Z).

(** [clearInterval]. *)
Definition clearInterval (t : option nat) (running : seq nat) : seq nat :=
  if t is Some i then [seq j <- running | j != i] else running.

Definition startPolling (p : Proxy) : Proxy * seq proxy_event :=
  let t := next_timer p in
  (mkProxy (core p) (Some t) (t :: clearInterval (pollTimer p) (timers p)) t.+1
     (reconnecting p) (transports p),
   [:: PLog LogPolling]).

(** The callback of the interval timer. *)
Definition poll_tick (w : World) (s : State)
  : completion unit * State * seq proxy_event :=
  if ~~ routerClient s || ~~ routerConnected s then (Normal tt, s, [::])
  else
    let: (r, s', evs) :=
      match listTools w with
      | Throw e => (Throw e, s, [:: Core EvListTools])
      | Normal liveTools =>
          if fingerprint w liveTools != stored_fingerprint (toolIndex s) then
            let: (r, s', evs) := buildIndex w "poll" s in
            (bind r (fun _ => Normal tt), s',
             Core EvListTools :: PLog LogPollChanges :: [seq Core ev | ev <- evs])
          else (Normal tt, s, [:: Core EvListTools])
      end in
    match r with
    | Normal _ => (Normal tt, s', evs)
    | Throw e => (Normal tt, s', evs ++ [:: PLog (LogPollError e)])
    end.

(** The delay before the next attempt:
    [Math.min(2000 * Math.pow(2, attempt - 1), 30000)]. *)
Definition retry_delay (attempt : nat) : Z :=
  Z.min (2000 * 2 ^ Z.of_nat (attempt - 1)) 30000.

Arguments retry_delay : simpl never.

(** [connectToRouterWithRetry], cut after [fuel] turns of its loop: [None]
    when the loop has not returned by then. [co t] is what [client.connect]
    does on the transport number [t], and [ws t] the collaborators at that
    time. The [onclose] handler of a transport is [transport_onclose]
    below: no transport closes while the loop runs. *)
Fixpoint connectToRouterWithRetry (fuel : nat) (co : nat -> option exn)
    (ws : nat -> World) (attempt : nat) (p : Proxy)
  : option unit * Proxy * seq proxy_event :=
  match fuel with
  | 0 => (None, p, [::])
  | fuel'.+1 =>
      let t := transports p in
      let p1 := mkProxy (core p) (pollTimer p) (timers p) (next_timer p)
                  (reconnecting p) t.+1 in
      let: (r, p2, evs) :=
        match co t with
        | Some e => (Throw e, p1, [::])
        | None =>
            let: (r, s', evs) := buildIndex (ws t) "startup" (connect (core p1)) in
            (bind r (fun _ => Normal 0), with_core p1 s',
             PLog LogConnected :: [seq Core ev | ev <- evs])
        end in
      let evs0 := PLog (LogConnecting attempt) :: Launch t :: evs in
      match r with
      | Normal _ =>
          let: (p3, evs3) := startPolling p2 in (Some tt, p3, evs0 ++ evs3)
      | Throw e =>
          let attempt' := (if co t is None then 0 else attempt).+1 in
          let delay := retry_delay attempt' in
          let: (res, p3, evs3) := connectToRouterWithRetry fuel' co ws attempt' p2 in
          (res, p3,
           evs0 ++ PLog (LogUnavailable e delay) :: Sleep delay :: evs3)
      end
  end.

(** The [onclose] handler of a transport. *)
Definition transport_onclose (p : Proxy) : Proxy * seq proxy_event :=
  let p1 := mkProxy (onclose (core p)) None (clearInterval (pollTimer p) (timers p))
              (next_timer p) (reconnecting p) (transports p) in
  if reconnecting p then (p1, [::])
  else
    (mkProxy (core p1) None (timers p1) (next_timer p1) true (transports p1),
     [:: PLog LogDisconnected; ReconnectIn 5000%Z]).

(** What [sleep(5000).then(...)] runs: the loop, and when it has returned,
    the reset of the guard. *)
Definition reconnect (fuel : nat) (co : nat -> option exn) (ws : nat -> World)
    (p : Proxy) : option unit * Proxy * seq proxy_event :=
  let: (res, p', evs) := connectToRouterWithRetry fuel co ws 0 p in
  (res,
   if res is Some _ then
     mkProxy (core p') (pollTimer p') (timers p') (next_timer p') false (transports p')
   else p',
   evs).

(** The handler of the notification that the tools have changed. *)
Definition on_tools_changed (w : World) (s : State)
  : completion Counts * State * seq proxy_event :=
  let: (r, s', evs) := buildIndex w "notification" s in
  (r, s', PLog LogNotification :: [seq Core ev | ev <- evs]).

(** What happens to the proxy, one whole handler at a time. *)
Inductive action :=
| ActConnect (fuel : nat) (co : nat -> option exn) (ws : nat -> World)
| ActReconnect (fuel : nat) (co : nat -> option exn) (ws : nat -> World)
| ActClose
| ActTick (w : World)
| ActToolsChanged (w : World)
| ActRequest (w : World) (r : request).

Definition step (p : Proxy) (a : action) : Proxy :=
  match a with
  | ActConnect fuel co ws => (connectToRouterWithRetry fuel co ws 0 p).1.2
  | ActReconnect fuel co ws => (reconnect fuel co ws p).1.2
  | ActClose => (transport_onclose p).1
  | ActTick w => with_core p (poll_tick w (core p)).1.2
  | ActToolsChanged w => with_core p (on_tools_changed w (core p)).1.2
  | ActRequest w r => with_core p (handle w (core p) r).1.2
  end.

(** ** The environment file: [loadDotEnv]

    The function of the same text that the tray and the proxy both run when
    they start. Names are compared as on POSIX systems, case and all. *)

(** [text.split(/\r?\n/)]: a line ends at LF, or at CR followed by LF. *)
Definition cons_head (c : ascii) (ls : seq string) : seq string :=
  match ls with
  | l :: ls' => String c l :: ls'
  | [::] => [:: String c EmptyString]
  end.

Fixpoint split_lines (s : string) : seq string :=
  match s with
  | EmptyString => [:: EmptyString]
  | String c s' =>
      if code c == 10 then EmptyString :: split_lines s'
      else
        match s' with
        | String d s'' =>
            if (code c == 13) && (code d == 10) then EmptyString :: split_lines s''
            else cons_head c (split_lines s')
        | EmptyString => cons_head c (split_lines s')
        end
  end.

(** [s.indexOf(c)] for a single code unit, [None] for -1. *)
Fixpoint indexOf (c : ascii) (s : string) : option nat :=
  match s with
  | EmptyString => None
  | String d s' => if d == c then Some 0 else omap succn (indexOf c s')
  end.

(** [s.slice(0, n)] and [s.slice(n)] for [0 <= n]. *)
Fixpoint slice_to (n : nat) (s : string) : string :=
  match n, s with
  | n'.+1, String c s' => String c (slice_to n' s')
  | _, _ => EmptyString
  end.

Fixpoint slice_from (n : nat) (s : string) : string :=
  match n, s with
  | n'.+1, String _ s' => slice_from n' s'
  | _, _ => s
  end.

Definition is_quote (c : ascii) : bool := code c \in [:: 34; 39].

Fixpoint strip_last_quote (s : string) : string :=
  match s with
  | EmptyString => EmptyString
  | String c EmptyString => if is_quote c then EmptyString else s
  | String c s' => String c (strip_last_quote s')
  end.

(** [s.replace(/^["']|["']$/g, "")]: a quote at the start goes, and so does
    a quote at the end (of what is left). *)
Definition unquote (s : string) : string :=
  strip_last_quote
    (match s with
     | String c s' => if is_quote c then s' else s
     | EmptyString => s
     end).

Definition starts_with_hash (s : string) : bool :=
  if s is String c _ then code c == 35 else false.

(** [process.env]: the variables, the latest assignment first. The [in]
    operator also finds what the object inherits from [Object.prototype]. *)
Definition Env := seq (string * string).

Definition Object_prototype_names : seq string :=
  [:: "constructor"; "__defineGetter__"; "__defineSetter__"; "hasOwnProperty";
      "__lookupGetter__"; "__lookupSetter__"; "isPrototypeOf";
      "propertyIsEnumerable"; "toString"; "valueOf"; "__proto__";
      "toLocaleString"]%string.

Definition env_in (env : Env) (key : string) : bool :=
  (key \in [seq kv.1 | kv <- env]) || (key \in Object_prototype_names).

Fixpoint env_get (env : Env) (key : string) : option string :=
  match env with
  | [::] => None
  | (k, v) :: env' => if k == key then Some v else env_get env' key
  end.

Definition env_set (env : Env) (key val : string) : Env := (key, val) :: env.

(** The body of the loop over the lines. *)
Definition load_line (env : Env) (line : string) : Env :=
  let trimmed := trim line in
  if (trimmed == EmptyString) || starts_with_hash trimmed then env
  else
    match indexOf "="%char trimmed with
    | None => env
    | Some eq =>
        let key := trim (slice_to eq trimmed) in
        let val := unquote (trim (slice_from eq.+1 trimmed)) in
        if (key != EmptyString) && ~~ env_in env key then env_set env key val
        else env
    end.

(** [dotenv] is the text of the file, [None] when it cannot be read. *)
Definition loadDotEnv (dotenv : option string) (env : Env) : Env :=
  match dotenv with
  | None => env
  | Some text => foldl load_line env (split_lines text)
  end.

(** ** The icons of the tray: [crc32], [pngChunk], [makePng], [makeIco] *)

Notation byte := Byte.byte.

(** A [Buffer] is a sequence of bytes. *)
Definition Buffer := seq byte.

Definition Z_of_byte (b : byte) : Z := Z.of_N (Byte.to_N b).

(** The byte that [Buffer.from] and the indexed assignments make of a
    number that is an integer: its low eight bits. *)
Definition byte_of_Z (z : Z) : byte :=
  if Byte.of_N (Z.to_N (z mod 256)) is Some b then b else Byte.x00.

(** The 32-bit conversions and operators of JavaScript, on numbers that
    are integers. *)
Definition ToUint32 (z : Z) : Z := (z mod 2 ^ 32)%Z.

Definition ToInt32 (z : Z) : Z :=
  let u := (z mod 2 ^ 32)%Z in if (u <? 2 ^ 31)%Z then u else (u - 2 ^ 32)%Z.

Definition js_xor (a b : Z) : Z := Z.lxor (ToInt32 a) (ToInt32 b).

Definition js_and (a b : Z) : Z := Z.land (ToInt32 a) (ToInt32 b).

(** [a >>> k] for [0 <= k < 32]. *)
Definition js_ushr (a k : Z) : Z := Z.shiftr (ToUint32 a) k.

(** One turn of the inner loop of [crc32]:
    [c = (c >>> 1) ^ (c & 1 ? 0xEDB88320 : 0)]. *)
Definition crc_bit (c : Z) : Z :=
  js_xor (js_ushr c 1) (if (js_and c 1 =? 0)%Z then 0%Z else 0xEDB88320%Z).

Definition crc_byte (c : Z) (b : byte) : Z :=
  iter 8 crc_bit (js_xor c (Z_of_byte b)).

Definition crc32 (buf : Buffer) : Z :=
  js_ushr (js_xor (foldl crc_byte 0xFFFFFFFF%Z buf) 0xFFFFFFFF%Z) 0.

(** [Buffer.from(s)] for a string of code units below 128. *)
Definition Buffer_from_string (s : string) : Buffer :=
  [seq byte_of_Z (Z.of_nat (code c)) | c <- list_ascii_of_string s].

(** [buf.writeUInt32BE(v)], [writeUInt32LE] and [writeUInt16LE] on a fresh
    buffer of the size of the field: the bytes written, or the RangeError
    of a value that does not fit. *)
Definition ERR_OUT_OF_RANGE : exn :=
  Error "RangeError" "The value of value is out of range.".

Definition writeUInt32BE (v : Z) : completion Buffer :=
  if ((0 <=? v) && (v <=? 0xFFFFFFFF))%Z then
    Normal [:: byte_of_Z (v / 2 ^ 24); byte_of_Z (v / 2 ^ 16); byte_of_Z (v / 2 ^ 8);
               byte_of_Z v]
  else Throw ERR_OUT_OF_RANGE.

Definition writeUInt32LE (v : Z) : completion Buffer :=
  if ((0 <=? v) && (v <=? 0xFFFFFFFF))%Z then
    Normal [:: byte_of_Z v; byte_of_Z (v / 2 ^ 8); byte_of_Z (v / 2 ^ 16);
               byte_of_Z (v / 2 ^ 24)]
  else Throw ERR_OUT_OF_RANGE.

Definition writeUInt16LE (v : Z) : completion Buffer :=
  if ((0 <=? v) && (v <=? 0xFFFF))%Z then
    Normal [:: byte_of_Z v; byte_of_Z (v / 2 ^ 8)]
  else Throw ERR_OUT_OF_RANGE.

Definition pngChunk (type : string) (data : Buffer) : completion Buffer :=
  let t := Buffer_from_string type in
  bind (writeUInt32BE (Z.of_nat (size data))) (fun l =>
  bind (writeUInt32BE (crc32 (t ++ data))) (fun c =>
  Normal (l ++ t ++ data ++ c))).

(** The test of [makePng] on the pixel [(x, y)]:
    [Math.sqrt((x - cx) ** 2 + (y - cy) ** 2) <= radius], where the square
    of a number is its product with itself. *)
Definition number_of_nat (n : nat) : float := of_uint63 (Uint63.of_Z (Z.of_nat n)).

Definition inside (x y : nat) : bool :=
  let dx := (number_of_nat x - 7.5)%float in
  let dy := (number_of_nat y - 7.5)%float in
  (sqrt (dx * dx + dy * dy) <=? 6)%float.

(** The array [raw] of [makePng]: for each of the 16 rows the filter byte
    0, then the four numbers of each of its 16 pixels. *)
Definition raw_pixels (r g b : Z) : seq Z :=
  flatten [seq 0%Z :: flatten [seq [:: r; g; b; if inside x y then 255%Z else 0%Z]
                              | x <- iota 0 16]
          | y <- iota 0 16].

Definition PNG_signature : Buffer :=
  [seq byte_of_Z z | z <- [:: 137; 80; 78; 71; 13; 10; 26; 10]%Z].

(** [deflateSync] is the compressor of zlib. *)
Definition makePng (deflateSync : Buffer -> Buffer) (r g b : Z) : completion Buffer :=
  let raw := raw_pixels r g b in
  bind (writeUInt32BE 16) (fun width =>
  bind (writeUInt32BE 16) (fun height =>
  let ihdr := width ++ height ++ [seq byte_of_Z z | z <- [:: 8; 6; 0; 0; 0]%Z] in
  bind (pngChunk "IHDR" ihdr) (fun c1 =>
  bind (pngChunk "IDAT" (deflateSync [seq byte_of_Z z | z <- raw])) (fun c2 =>
  bind (pngChunk "IEND" [::]) (fun c3 =>
  Normal (PNG_signature ++ c1 ++ c2 ++ c3)))))).

Definition makeIco (deflateSync : Buffer -> Buffer) (r g b : Z) : completion Buffer :=
  bind (makePng deflateSync r g b) (fun png =>
  bind (writeUInt16LE 0) (fun reserved =>
  bind (writeUInt16LE 1) (fun type =>
  bind (writeUInt16LE 1) (fun count =>
  let hdr := reserved ++ type ++ count in
  bind (writeUInt16LE 0) (fun planes =>
  bind (writeUInt16LE 32) (fun depth =>
  bind (writeUInt32LE (Z.of_nat (size png))) (fun bytes =>
  bind (writeUInt32LE 22) (fun offset =>
  let dir := [seq byte_of_Z z | z <- [:: 16; 16; 0; 0]%Z] ++ planes ++ depth
               ++ bytes ++ offset in
  Normal (hdr ++ dir ++ png))))))))).

(** ** The stdio bridge of [src/src/stdio-bridge.ts] *)

Module Bridge.

(** The module state: [httpClient] (a client is known by the number of the
    connection that made it), and how many connections and requests have
    been started so far. *)
Record State := mkState {
  httpClient : option nat;
  connections : nat;
  requests : nat
}.

Inductive event :=
| Connect (client : nat)
| LogConnected
| LogNotReady (attempt : nat) (e : exn) (delay : Z)
| Sleep (ms : Z)
| LogRequestFailed (e : exn)
| Call (client : nat).

Definition MAX_CONNECT_ATTEMPTS : nat := 20.

Definition could_not_connect (PROXY_URL : string) : exn :=
  Error "Error" ("Could not connect to proxy at " ++ PROXY_URL ++ " after 20 attempts").

(** [Math.min(1000 * Math.pow(2, attempt), 30000)]. *)
Definition retry_delay (attempt : nat) : Z :=
  Z.min (1000 * 2 ^ Z.of_nat attempt) 30000.

Arguments retry_delay : simpl never.

(** The [for] loop of [connectWithRetry] with [n] turns left. [up k] is
    what the [k]-th connection to the proxy does: [None] when it is
    established. *)
Fixpoint connect_loop (n attempt : nat) (PROXY_URL : string)
    (up : nat -> option exn) (s : State)
  : completion nat * State * seq event :=
  match n with
  | 0 => (Throw (could_not_connect PROXY_URL), s, [::])
  | n'.+1 =>
      let k := connections s in
      let s1 := mkState (httpClient s) k.+1 (requests s) in
      match up k with
      | None => (Normal k, s1, [:: Connect k; LogConnected])
      | Some e =>
          let delay := retry_delay attempt in
          let: (r, s2, evs) := connect_loop n' attempt.+1 PROXY_URL up s1 in
          (r, s2, Connect k :: LogNotReady attempt e delay :: Sleep delay :: evs)
      end
  end.

Definition connectWithRetry (PROXY_URL : string) (up : nat -> option exn) (s : State)
  : completion nat * State * seq event :=
  connect_loop MAX_CONNECT_ATTEMPTS 0 PROXY_URL up s.

Arguments connectWithRetry : simpl never.

Definition getClient (PROXY_URL : string) (up : nat -> option exn) (s : State)
  : completion nat * State * seq event :=
  match httpClient s with
  | Some c => (Normal c, s, [::])
  | None =>
      let: (r, s', evs) := connectWithRetry PROXY_URL up s in
      (r,
       if r is Normal c then mkState (Some c) (connections s') (requests s') else s',
       evs)
  end.

Section Call.

Variable T : Type.

(** [fn c i] is what the request does when it is the [i]-th one and runs
    on the client [c]. *)
Variable fn : nat -> nat -> completion T.

(** [fn(await getClient())]. *)
Definition request (PROXY_URL : string) (up : nat -> option exn) (s : State)
  : completion T * State * seq event :=
  let: (r, s1, evs) := getClient PROXY_URL up s in
  match r with
  | Throw e => (Throw e, s1, evs)
  | Normal c =>
      (fn c (requests s1),
       mkState (httpClient s1) (connections s1) (requests s1).+1,
       evs ++ [:: Call c])
  end.

Definition callWithReconnect (PROXY_URL : string) (up : nat -> option exn) (s : State)
  : completion T * State * seq event :=
  let: (r, s1, evs1) := request PROXY_URL up s in
  match r with
  | Normal v => (Normal v, s1, evs1)
  | Throw e =>
      let: (r2, s2, evs2) :=
        request PROXY_URL up (mkState None (connections s1) (requests s1)) in
      (r2, s2, evs1 ++ LogRequestFailed e :: evs2)
  end.

End Call.

(** The handler of [tools/call]: the request with the arguments, [{}] in
    the place of absent ones. *)
Definition tools_call (callTool : nat -> nat -> string -> value -> completion value)
    (name : string) (args : value) : nat -> nat -> completion value :=
  fun c i => callTool c i name (coalesce args empty_object).

(** The sleeps of a run, the clients its requests ran on and the
    connections it started, in order. *)
Definition sleeps (evs : seq event) : seq Z :=
  pmap (fun ev => if ev is Sleep ms then Some ms else None) evs.

Definition calls (evs : seq event) : seq nat :=
  pmap (fun ev => if ev is Call c then Some c else None) evs.

Definition connects (evs : seq event) : seq nat :=
  pmap (fun ev => if ev is Connect c then Some c else None) evs.

End Bridge.

(** * The vocabulary of the properties *)

(** An entry of a batch whose name does not pass the validation loop. *)
Definition invalid_name (call : Call) : bool := not_a_name (tool_name call).

(** An entry of a batch with [{}] in the place of absent arguments. *)
Definition with_default_arguments (call : Call) : Call :=
  mkCall (tool_name call) (coalesce (arguments call) empty_object).

(** An element of [calls] at which the validation loop stops: [null],
    [undefined], or a value whose name does not pass. *)
Definition offending (call : Entry) : bool :=
  if call is ValueEntry c then invalid_name c else true.

(** A change of the properties of the elements that have some. *)
Definition on_value (f : Call -> Call) (call : Entry) : Entry :=
  if call is ValueEntry c then ValueEntry (f c) else call.

Definition is_embed (ev : event) : bool :=
  if ev is EvEmbed _ then true else false.

Definition is_log (ev : event) : bool :=
  if ev is EvLog _ then true else false.

(** Every entry of [old] is found in the cache under its own key, with its
    own vector. *)
Fixpoint hits (c : cache) (old : seq ToolEntry) : Prop :=
  match old with
  | [::] => True
  | e :: old' => cache_get c (entry_key e) = Some (embedding e) /\ hits c old'
  end.

Definition same_entry (e : ToolEntry) (t : LiveTool) : bool :=
  (name e == live_name t) && (description e == desc_of t).

(** The catalog [live] is the previous snapshot [old] entry by entry,
    names and descriptions alike, but for the description of entry [i]. *)
Fixpoint changed_at (old : seq ToolEntry) (live : seq LiveTool) (i : nat) : bool :=
  match old, live, i with
  | e :: old', t :: live', 0 =>
      [&& name e == live_name t, description e != desc_of t
        & all2 same_entry old' live']
  | e :: old', t :: live', i'.+1 => same_entry e t && changed_at old' live' i'
  | _, _, _ => false
  end.

(** The entries a rebuild makes of the catalog [live] and the vectors [vs]. *)
Definition rebuilt (live : seq LiveTool) (vs : seq (seq float)) : seq ToolEntry :=
  [seq entry_of p.1 p.2 | p <- zip live vs].

Definition scored (q : seq float) (ts : seq ToolEntry) : seq Scored :=
  [seq mkScored t (cosine q (embedding t)) | t <- ts].

(** The similarity of the entry at position [i] of the catalog, and the
    entry with its similarity. *)
Definition score_at (q : seq float) (ts : seq ToolEntry) (t0 : ToolEntry)
           (i : nat) : float :=
  cosine q (embedding (nth t0 ts i)).

Definition scored_at (q : seq float) (ts : seq ToolEntry) (t0 : ToolEntry)
           (i : nat) : Scored :=
  mkScored (nth t0 ts i) (score_at q ts t0 i).

(** The order the comparator [b.score - a.score] of [discover_tools]
    induces on the positions of the catalog. *)
Definition comparator_le (q : seq float) (ts : seq ToolEntry) (t0 : ToolEntry)
  : rel nat :=
  fun i j => ~~ (0 <? score_at q ts t0 j - score_at q ts t0 i)%float.

(** Position [i] ranks before position [j]: its similarity is not the
    smaller one, and it is the greater one unless [i] comes first in the
    catalog. *)
Definition ranks_before (q : seq float) (ts : seq ToolEntry) (t0 : ToolEntry)
  : rel nat :=
  fun i j =>
    ~~ (score_at q ts t0 i <? score_at q ts t0 j)%float
    && ((score_at q ts t0 j <? score_at q ts t0 i)%float || (i < j)).

(** ** The similarity on the numbers of float32 *)

(** A number of a [Float32Array] that is not NaN or an infinity, and more
    generally a number that is no larger in absolute value than the largest
    of them, [(2 - 2^-23) * 2^127]. *)
Definition float32_range (x : float) : bool :=
  (abs x <=? 0x1.fffffep127)%float.

(** The sum of the squares of a vector as the loop of [cosine] adds it up,
    and the magnitude that [cosine] takes of it. *)
Definition sum_squares (v : seq float) : float :=
  foldl (fun acc x => (acc + x * x)%float) 0%float v.

Definition magnitude (v : seq float) : float := sqrt (sum_squares v).

(** A spec float between zero and [n * 2^256]; mantissas are compared once
    scaled by [2^1074]. *)
Definition SFbelow (n : Z) (x : spec_float) : Prop :=
  match x with
  | S754_zero _ => True
  | S754_finite false m e =>
      (SpecFloat.emin prec emax <= e /\
       Zpos m * 2 ^ (e - SpecFloat.emin prec emax)
         <= n * 2 ^ (256 - SpecFloat.emin prec emax))%Z
  | _ => False
  end.

(** ** The index builder, its events and the snapshot file *)

Definition is_write (ev : event) : bool :=
  if ev is EvWriteFile _ then true else false.

(** The keys under which [buildIndex] finds a vector without calling the
    embedder: those of the snapshot in memory and, when that snapshot is
    empty, those of the snapshot file. *)
Definition known_keys (s : State) : seq string :=
  [seq entry_key e | e <- tools (toolIndex s)] ++
  match cache_file s with
  | Stored cached =>
      if size (tools (toolIndex s)) == 0 then [seq entry_key e | e <- tools cached]
      else [::]
  | _ => [::]
  end.

Definition with_file (s : State) (f : file) : State :=
  mkState (routerClient s) (routerConnected s) (toolIndex s) (reindexing s) f.

(** The fingerprint check of [buildIndex] lets the rebuild through. *)
Definition stale (w : World) (s : State) (live : seq LiveTool) : bool :=
  ~~ ((fingerprint w live == stored_fingerprint (toolIndex s))
      && (0 < size (tools (toolIndex s)))).

(** Two runs of [buildIndex] that return the same, leave the same snapshot in
    memory and cause the same events. *)
Definition same_run (x y : completion Counts * State * seq event) : Prop :=
  [/\ x.1.1 = y.1.1, toolIndex x.1.2 = toolIndex y.1.2 & x.2 = y.2].

(** An event that reaches the upstream, the embedder or the disk. *)
Definition reaches_out (ev : event) : bool :=
  if ev is EvLog _ then false else true.

Definition embedder_works (w : World) (live : seq LiveTool) : bool :=
  all (fun t => if embed w (embed_text t) is Normal _ then true else false) live.

Definition disk_fails (w : World) : bool :=
  if disk w is WriteOk then false else true.

(** ** The proxy as a whole *)

(** [routerClient] and [routerConnected] say the same. *)
Definition flags_agree (p : Proxy) : bool :=
  routerClient (core p) == routerConnected (core p).

(** The interval timers that run are the one [pollTimer] holds, if any. *)
Definition one_timer (p : Proxy) : bool :=
  timers p == (if pollTimer p is Some t then [:: t] else [::]).

Definition sleeps (evs : seq proxy_event) : seq Z :=
  pmap (fun ev => if ev is Sleep ms then Some ms else None) evs.

Definition launches (evs : seq proxy_event) : seq nat :=
  pmap (fun ev => if ev is Launch t then Some t else None) evs.

(** ** The environment file *)

(** What a line assigns, when its key is free. *)
Definition parse_line (line : string) : option (string * string) :=
  let trimmed := trim line in
  if (trimmed == EmptyString) || starts_with_hash trimmed then None
  else
    match indexOf "="%char trimmed with
    | None => None
    | Some eq =>
        let key := trim (slice_to eq trimmed) in
        if key != EmptyString
        then Some (key, unquote (trim (slice_from eq.+1 trimmed)))
        else None
    end.

Definition occurs (c : ascii) (s : string) : bool := isSome (indexOf c s).

Definition LFc : ascii := ascii_of_nat 10.

(** A key as [loadDotEnv] stores it: not empty, no white space around it, no
    [=] in it, and not the start of a comment. *)
Definition clean_key (k : string) : bool :=
  [&& k != EmptyString, trim k == k, ~~ occurs "="%char k & ~~ starts_with_hash k].

Fixpoint ends_with_cr (s : string) : bool :=
  match s with
  | EmptyString => false
  | String c EmptyString => code c == 13
  | String _ s' => ends_with_cr s'
  end.

(** ** The icons *)

(** The number that four bytes spell, most significant byte first, and least
    significant byte first. *)
Definition be32 (bs : Buffer) : Z :=
  foldl (fun acc b => (acc * 256 + Z_of_byte b)%Z) 0%Z (take 4 bs).

Definition le32 (bs : Buffer) : Z := be32 (rev (take 4 bs)).

(** The bytes [off] to [off + len - 1] of a buffer. *)
Definition field (off len : nat) (bs : Buffer) : Buffer := take len (drop off bs).

(** One turn of the inner loop of [crc32] on the unsigned 32 bits of [c]. *)
Definition ubit (u : Z) : Z :=
  Z.lxor (Z.shiftr u 1) (if Z.testbit u 0 then 0xEDB88320%Z else 0%Z).

(** The pixel lies in the disc of radius 6 around (7.5, 7.5), in integers. *)
Definition in_disc (x y : nat) : bool :=
  ((2 * Z.of_nat x - 15) ^ 2 + (2 * Z.of_nat y - 15) ^ 2 <=? 144)%Z.

(** The chunk IHDR of an image of 16 by 16 pixels, 8 bits per channel, with
    the colour type 6 (RGBA), and the chunk IEND: length, type, data, CRC. *)
Definition IHDR_16x16_RGBA : Buffer :=
  [seq byte_of_Z z
  | z <- [:: 0; 0; 0; 13; 73; 72; 68; 82; 0; 0; 0; 16; 0; 0; 0; 16; 8; 6; 0; 0; 0;
             0x1F; 0xF3; 0xFF; 0x61]%Z].

Definition IEND : Buffer :=
  [seq byte_of_Z z | z <- [:: 0; 0; 0; 0; 73; 69; 78; 68; 0xAE; 0x42; 0x60; 0x82]%Z].

(** * The data of the concrete runs *)

Open Scope string_scope.

(** A [JSON.stringify] for the schemas of the examples. *)
Definition json_of (v : value) : string :=
  match v with
  | VObject [::] => "{}"
  | VNull => "null"
  | VString s => s
  | _ => "?"
  end.

(** An upstream with the catalog [catalog], where the tool ["fail"] throws
    and every other tool answers with its own name; an embedder that maps
    every text to one vector. *)
Definition example_world (catalog : seq LiveTool) (d : disk_outcome) : World :=
  mkWorld (Normal catalog)
    (fun n _ => if n == "fail" then Throw (Error "Error" "boom") else Normal (VString n))
    (fun _ => Normal [:: 0.5; 0.5]%float)
    "2026-01-01T00:00:00.000Z" d json_of 10%float.

Definition tool_a : LiveTool := mkLiveTool "alpha" (Some "first tool") VUndefined.
Definition tool_b : LiveTool := mkLiveTool "beta" None (VObject [::]).

(** [tool_a] with another description. *)
Definition tool_a' : LiveTool := mkLiveTool "alpha" (Some "the first tool") VUndefined.

Definition two_tools : World := example_world [:: tool_a; tool_b] WriteOk.

(** The state once the router is connected, before the first rebuild. *)
Definition connected_state : State := connect (initial_state Missing).

(** A default for [nth]. *)
Definition no_entry : ToolEntry := mkToolEntry "" "" VUndefined [::].

(** Three calls of a batch, the second of which fails upstream; the first
    and the last come without arguments. *)
Definition three_calls : seq Call :=
  [:: mkCall (VString "alpha") VUndefined;
      mkCall (VString "fail") (VObject [:: ("x", VNull)]);
      mkCall (VString "beta") VNull].

(** A snapshot of two tools with distinct names, and the catalog that
    differs from it in the description of the second tool: the new key
    ["a|||b|||c"] of the second tool is the key of the first. *)
Definition colliding_snapshot : seq ToolEntry :=
  [:: mkToolEntry "a" "b|||c" VUndefined [:: 1; 0]%float;
      mkToolEntry "a|||b" "x" VUndefined [:: 0; 1]%float].

Definition colliding_catalog : seq LiveTool :=
  [:: mkLiveTool "a" (Some "b|||c") VUndefined;
      mkLiveTool "a|||b" (Some "c") VUndefined].

Definition colliding_state : State :=
  mkState true true
    (mkToolIndex colliding_snapshot "2025-12-31T00:00:00.000Z"
       (fingerprint (example_world [::] WriteOk)
          [:: mkLiveTool "a" (Some "b|||c") VUndefined;
              mkLiveTool "a|||b" (Some "x") VUndefined]))
    false Missing.

(** The entries with embeddings [1,0], [0,1] and [0.9,0.1]. *)
Definition three_entries : seq ToolEntry :=
  [:: mkToolEntry "first" "" VUndefined [:: 1; 0]%float;
      mkToolEntry "second" "" VUndefined [:: 0; 1]%float;
      mkToolEntry "third" "" VUndefined
        [:: 0x1.ccccccccccccdp-1; 0x1.999999999999ap-4]%float].

(** An embedder that maps every text to [1,0], and a snapshot whose only
    entry has the embedding [-1,0]. *)
Definition opposed_world : World :=
  mkWorld (Normal [::]) (fun _ _ => Normal VNull)
    (fun _ => Normal [:: 1; 0]%float)
    "2026-01-01T00:00:00.000Z" WriteOk json_of 10%float.

Definition opposed_state : State :=
  mkState true true
    (mkToolIndex [:: mkToolEntry "undo" "reverts" VUndefined [:: -1; 0]%float]
       "2026-01-01T00:00:00.000Z" "undo|reverts|{}")
    false Missing.

(** An error of the connection, a connection that succeeds at the third
    attempt, one that always succeeds and one that never does. *)
Definition refused : exn := Error "Error" "connect ECONNREFUSED".

Definition third_time (t : nat) : option exn :=
  if t < 2 then Some refused else None.

Definition always_up (t : nat) : option exn := None.

Definition always_down (t : nat) : option exn := Some refused.

(** The upstream of the examples on a disk that is full. *)
Definition unwritable (catalog : seq LiveTool) : World :=
  example_world catalog (WriteThrows (Error "Error" "ENOSPC")).

(** The double quote. *)
Definition double_quote : ascii := ascii_of_nat 34.

(** A [deflateSync] that stores the data as it is, and the green icon
    made with it. *)
Definition stored (data : Buffer) : Buffer := data.

Definition green_png : Buffer :=
  match makePng stored 34 197 94 return Buffer with
  | Normal png => png
  | Throw _ => [::]
  end.

(** A request that fails on the client of the first connection, and
    answers with its arguments on every other one. *)
Definition first_client_dead (c i : nat) (name : string) (args : value)
  : completion value :=
  if c == 0 then Throw (Error "Error" "fetch failed") else Normal args.

(** The bridge when it starts, and the URL of the proxy. *)
Definition fresh_bridge : Bridge.State := Bridge.mkState None 0 0.

Definition proxy_url : string := "http://127.0.0.1:3456/mcp".

Close Scope string_scope.

(** * Properties *)

(** ** Binary64 arithmetic

    The comparator of the ranking is a subtraction; its sign is related to
    the order on floats through the specification of the primitive
    operations ([FloatAxioms]) over [SpecFloat]. *)

Module F64.
Local Unset Implicit Arguments.
Local Open Scope Z_scope.

Notation fexp := (SpecFloat.fexp prec emax).
Notation emin := (SpecFloat.emin prec emax).

(** A spec float that is finite and not zero, or infinite, with sign [s]. *)
Definition signed (s : bool) (x : spec_float) : Prop :=
  x = S754_infinity s \/ exists m e, x = S754_finite s m e.

(** Strictly positive: a positive finite number or plus infinity. *)
Definition SFpos (x : spec_float) : bool :=
  match x with
  | S754_infinity false | S754_finite false _ _ => true
  | _ => false
  end.

Ltac compare_cases :=
  repeat match goal with
    | H : context [Z.compare ?a ?b] |- _ => destruct (Z.compare_spec a b)
    | |- context [Z.compare ?a ?b] => destruct (Z.compare_spec a b)
    | H : context [Pos.compare_cont Eq ?a ?b] |- _ =>
        change (Pos.compare_cont Eq a b) with (Pos.compare a b) in H;
        destruct (Pos.compare_spec a b)
    | |- context [Pos.compare_cont Eq ?a ?b] =>
        change (Pos.compare_cont Eq a b) with (Pos.compare a b);
        destruct (Pos.compare_spec a b)
    end;
  cbn [CompOpp] in *; try discriminate; try reflexivity; try lia.

(** A mantissa of [d] binary digits lies between [2^(d-1)] and [2^d]. *)
Lemma digits2_pos_bounds (m : positive) :
  2 ^ (Zpos (digits2_pos m) - 1) <= Zpos m < 2 ^ Zpos (digits2_pos m).
Proof.
induction m as [p IH|p IH|]; simpl digits2_pos; rewrite ?Pos2Z.inj_succ.
- replace (Z.succ (Zpos (digits2_pos p)) - 1) with (Z.succ (Zpos (digits2_pos p) - 1)) by lia.
  rewrite !Z.pow_succ_r; lia.
- replace (Z.succ (Zpos (digits2_pos p)) - 1) with (Z.succ (Zpos (digits2_pos p) - 1)) by lia.
  rewrite !Z.pow_succ_r; lia.
- simpl; lia.
Qed.

(** Shifting a mantissa right by one place, then by [p] places, divides
    it. *)
Lemma shr_1_m (r : shr_record) :
  0 <= shr_m r -> shr_m (shr_1 r) = shr_m r / 2.
Proof.
destruct r as [m rr ss]; simpl; intros Hm.
rewrite <- Z.div2_div.
destruct m as [|[p|p|]|p]; try reflexivity; lia.
Qed.

Lemma pow2_pos (k : Z) : 0 <= k -> 0 < 2 ^ k.
Proof. intros; apply Z.pow_pos_nonneg; lia. Qed.

Lemma iter_shr_m (p : positive) (r : shr_record) :
  0 <= shr_m r -> shr_m (iter_pos shr_1 p r) = shr_m r / 2 ^ Zpos p.
Proof.
revert r; induction p as [p IH|p IH|]; intros r Hr; simpl iter_pos.
- assert (H0 := pow2_pos (Zpos p) ltac:(lia)).
  assert (H1 : 0 <= shr_m (shr_1 r)) by (rewrite -> shr_1_m by lia; apply Z.div_pos; lia).
  assert (H2 : 0 <= shr_m (iter_pos shr_1 p (shr_1 r))).
  { rewrite -> IH by lia; apply Z.div_pos; lia. }
  rewrite -> IH by lia. rewrite -> IH by lia. rewrite -> shr_1_m by lia.
  rewrite -> !Z.div_div by lia.
  f_equal. rewrite (Pos2Z.inj_xI p).
  replace (2 * Zpos p + 1) with (1 + Zpos p + Zpos p) by lia.
  rewrite -> !Z.pow_add_r by lia. lia.
- assert (H0 := pow2_pos (Zpos p) ltac:(lia)).
  assert (H2 : 0 <= shr_m (iter_pos shr_1 p r)).
  { rewrite -> IH by lia; apply Z.div_pos; lia. }
  rewrite -> IH by lia. rewrite -> IH by lia.
  rewrite -> !Z.div_div by lia.
  f_equal. rewrite (Pos2Z.inj_xO p).
  replace (2 * Zpos p) with (Zpos p + Zpos p) by lia.
  rewrite -> !Z.pow_add_r by lia. lia.
- rewrite -> shr_1_m by lia. reflexivity.
Qed.

Lemma shr_m_of_loc (m : Z) (l : location) : shr_m (shr_record_of_loc m l) = m.
Proof. destruct l as [|[]]; reflexivity. Qed.

Lemma Zdigits2_pos (m : Z) : 0 < m ->
  2 ^ (Zdigits2 m - 1) <= m < 2 ^ Zdigits2 m /\ 0 < Zdigits2 m.
Proof.
destruct m as [|p|p]; try lia; intros _; simpl Zdigits2.
split; [apply digits2_pos_bounds | lia].
Qed.

(** Shifting a positive mantissa to its canonical exponent keeps it
    positive, as long as the exponent is not below [emin]. *)
Lemma shr_fexp_pos (m e : Z) (l : location) :
  0 < m -> emin <= e ->
  0 < shr_m (fst (shr_fexp prec emax m e l)) /\
  emin <= snd (shr_fexp prec emax m e l).
Proof.
intros Hm He; unfold shr_fexp, shr.
destruct (Zdigits2_pos m Hm) as [[Hlo Hhi] Hd].
destruct (fexp (Zdigits2 m + e) - e) as [|p|p] eqn:E; simpl;
  rewrite ?shr_m_of_loc; try (split; lia).
rewrite -> iter_shr_m by (rewrite shr_m_of_loc; lia).
rewrite shr_m_of_loc.
assert (Hf : fexp (Zdigits2 m + e) = Zdigits2 m + e - prec).
{ unfold SpecFloat.fexp, SpecFloat.emin in *; lia. }
assert (Hp : Zpos p = Zdigits2 m - prec) by lia.
split; [|unfold SpecFloat.fexp, SpecFloat.emin in *; lia].
apply Z.div_str_pos; split; [apply pow2_pos; lia|].
apply Z.le_trans with (2 ^ (Zdigits2 m - 1)); [|lia].
apply Z.pow_le_mono_r; unfold prec in *; lia.
Qed.

Lemma round_nearest_even_ge (m : Z) (l : location) :
  m <= round_nearest_even m l.
Proof.
unfold round_nearest_even; destruct l as [|[]]; try lia.
destruct (Z.even m); lia.
Qed.

(** Rounding a positive mantissa never gives zero or NaN: the result is a
    number of the sign asked for, or the infinity of that sign. *)
Lemma binary_round_aux_signed (s : bool) (m e : Z) (l : location) :
  0 < m -> emin <= e -> signed s (binary_round_aux prec emax s m e l).
Proof.
intros Hm He; unfold binary_round_aux.
destruct (shr_fexp_pos m e l Hm He) as [H1 H2].
destruct (shr_fexp prec emax m e l) as [r1 e1]; simpl in H1, H2.
assert (H3 := round_nearest_even_ge (shr_m r1) (loc_of_shr_record r1)).
destruct (shr_fexp_pos (round_nearest_even (shr_m r1) (loc_of_shr_record r1))
            e1 loc_Exact ltac:(lia) H2) as [H4 H5].
destruct (shr_fexp prec emax _ e1 loc_Exact) as [r2 e2]; simpl in H4, H5.
destruct (shr_m r2) as [|p|p]; try lia.
destruct (e2 <=? emax - prec); [right; eauto | left; reflexivity].
Qed.

Lemma binary_round_signed (s : bool) (m : positive) (e : Z) :
  emin <= e -> signed s (binary_round prec emax s m e).
Proof.
intros He; unfold binary_round, shl_align.
destruct (fexp (Zpos (digits2_pos m) + e) - e) as [|p|p] eqn:E;
  apply binary_round_aux_signed; try lia.
unfold SpecFloat.fexp, SpecFloat.emin in *; lia.
Qed.

(** Aligning a mantissa on a smaller exponent multiplies it by a power of
    two. *)
Lemma shl_align_fst (m : positive) (e e' : Z) :
  e' <= e -> Zpos (fst (shl_align m e e')) = Zpos m * 2 ^ (e - e').
Proof.
intros H; unfold shl_align.
destruct (e' - e) as [|p|p] eqn:E; cbn [fst]; try lia.
- replace (e - e') with 0 by lia; lia.
- change (Pos.iter xO m p) with (shift_pos p m).
  rewrite shift_pos_correct; change (Z.pow_pos 2 p) with (2 ^ Zpos p).
  replace (e - e') with (Zpos p) by lia; lia.
Qed.

(** What validity says of a finite float. *)
Lemma valid_finite (s : bool) (m : positive) (e : Z) :
  valid_binary (S754_finite s m e) = true ->
  emin <= e /\ Zpos m < 2 ^ prec /\ (emin < e -> 2 ^ (prec - 1) <= Zpos m).
Proof.
intros H; simpl in H; unfold bounded, canonical_mantissa in H.
apply andb_prop in H; destruct H as [H _].
apply Z.eqb_eq in H.
destruct (digits2_pos_bounds m) as [Hlo Hhi].
assert (Hd : Zpos (digits2_pos m) <= prec)
  by (unfold SpecFloat.fexp, SpecFloat.emin in *; lia).
assert (Hp : 2 ^ Zpos (digits2_pos m) <= 2 ^ prec)
  by (apply Z.pow_le_mono_r; lia).
repeat split.
- unfold SpecFloat.fexp, SpecFloat.emin in *; lia.
- lia.
- intros He.
  assert (Hq : Zpos (digits2_pos m) = prec)
    by (unfold SpecFloat.fexp, SpecFloat.emin in *; lia).
  rewrite <- Hq; exact Hlo.
Qed.

Lemma signed_pos (s : bool) (x : spec_float) : signed s x -> SFpos x = negb s.
Proof. intros [->|[m [e ->]]]; destruct s; reflexivity. Qed.

Lemma SFltb_zero (x : spec_float) : SFltb (S754_zero false) x = SFpos x.
Proof. destruct x as [[]|[]| |[] m e]; reflexivity. Qed.

(** The comparison of two valid finite floats is the comparison of their
    mantissas once aligned on the smaller exponent. *)
Lemma SFltb_finite (sx : bool) (mx : positive) (ex : Z)
      (sy : bool) (my : positive) (ey : Z) :
  valid_binary (S754_finite sx mx ex) = true ->
  valid_binary (S754_finite sy my ey) = true ->
  let ez := Z.min ey ex in
  SFltb (S754_finite sx mx ex) (S754_finite sy my ey) =
    (cond_Zopp sx (Zpos (fst (shl_align mx ex ez)))
     <? cond_Zopp sy (Zpos (fst (shl_align my ey ez)))).
Proof.
intros Vx Vy ez.
destruct (valid_finite _ _ _ Vx) as [Ex [Ux Lx]].
destruct (valid_finite _ _ _ Vy) as [Ey [Uy Ly]].
rewrite -> !shl_align_fst by (unfold ez; lia).
assert (T : 2 ^ prec = 2 * 2 ^ (prec - 1)) by reflexivity.
assert (T0 : 0 < 2 ^ (prec - 1)) by reflexivity.
unfold SFltb, SFcompare.
change (Pos.compare_cont Eq mx my) with (Pos.compare mx my).
rewrite -> (Pos2Z.inj_compare mx my).
destruct (Z.compare_spec ex ey) as [E|E|E].
- replace (ex - ez) with 0 by (unfold ez; lia).
  replace (ey - ez) with 0 by (unfold ez; lia).
  rewrite !Z.pow_0_r !Z.mul_1_r.
  destruct sx, sy; cbn [cond_Zopp];
    destruct (Z.compare_spec (Zpos mx) (Zpos my)); cbn [CompOpp];
    symmetry; solve [apply Z.ltb_lt; lia | apply Z.ltb_ge; lia].
- replace (ex - ez) with 0 by (unfold ez; lia).
  assert (Q : 2 <= 2 ^ (ey - ez)).
  { change 2 with (2 ^ 1) at 1; apply Z.pow_le_mono_r; unfold ez; lia. }
  specialize (Ly ltac:(lia)).
  rewrite Z.pow_0_r Z.mul_1_r.
  destruct sx, sy; cbn [cond_Zopp]; symmetry;
    solve [apply Z.ltb_lt; nia | apply Z.ltb_ge; nia].
- replace (ey - ez) with 0 by (unfold ez; lia).
  assert (Q : 2 <= 2 ^ (ex - ez)).
  { change 2 with (2 ^ 1) at 1; apply Z.pow_le_mono_r; unfold ez; lia. }
  specialize (Lx ltac:(lia)).
  rewrite Z.pow_0_r Z.mul_1_r.
  destruct sx, sy; cbn [cond_Zopp]; symmetry;
    solve [apply Z.ltb_lt; nia | apply Z.ltb_ge; nia].
Qed.

(** The sign of a difference: [y - x] is strictly positive exactly when
    [x < y], for valid numbers. *)
Lemma SFsub_pos (x y : spec_float) :
  valid_binary x = true -> valid_binary y = true ->
  x <> S754_nan -> y <> S754_nan ->
  SFpos (SF64sub y x) = SFltb x y.
Proof.
intros Vx Vy Nx Ny.
destruct x as [sx|sx| |sx mx ex]; try congruence;
  destruct y as [sy|sy| |sy my ey]; try congruence;
  try (destruct sx, sy; reflexivity);
  try (destruct sx; reflexivity); try (destruct sy; reflexivity).
rewrite SFltb_finite //.
unfold SF64sub, SFsub, binary_normalize.
destruct (valid_finite _ _ _ Vx) as [Ex _].
destruct (valid_finite _ _ _ Vy) as [Ey _].
set (vy := cond_Zopp sy _); set (vx := cond_Zopp sx _).
destruct (vy - vx) as [|p|p] eqn:E.
- symmetry; apply Z.ltb_ge; lia.
- rewrite -> (signed_pos false) by (apply binary_round_signed; lia).
  symmetry; apply Z.ltb_lt; lia.
- rewrite -> (signed_pos true) by (apply binary_round_signed; lia).
  symmetry; apply Z.ltb_ge; lia.
Qed.

(** The strict order on spec floats is asymmetric. *)
Lemma SFltb_asym (x y : spec_float) : SFltb x y = true -> SFltb y x = false.
Proof.
unfold SFltb, SFcompare.
destruct x as [[]|[]| |[] mx ex], y as [[]|[]| |[] my ey];
  try discriminate; try reflexivity; intros H; compare_cases.
Qed.

(** [x >= y >= z] gives [x >= z], when [y] is a number. *)
Lemma SFnlt_trans (x y z : spec_float) :
  y <> S754_nan ->
  SFltb x y = false -> SFltb y z = false -> SFltb x z = false.
Proof.
unfold SFltb, SFcompare.
destruct x as [[]|[]| |[] mx ex], y as [[]|[]| |[] my ey], z as [[]|[]| |[] mz ez];
  try discriminate; try reflexivity; try congruence; intros N H1 H2;
  compare_cases.
Qed.

Local Open Scope float_scope.

Lemma not_nan (x : float) : is_nan x = false -> Prim2SF x <> S754_nan.
Proof.
by unfold is_nan; rewrite eqb_spec => H E; rewrite E in H.
Qed.

(** The comparator [b - a] of the ranking is positive exactly when
    [a < b], NaN aside. *)
Lemma sub_pos_ltb (x y : float) :
  is_nan x = false -> is_nan y = false -> (0 <? y - x) = (x <? y).
Proof.
intros Nx Ny.
rewrite !ltb_spec sub_spec.
change (Prim2SF 0) with (S754_zero false).
rewrite SFltb_zero.
apply SFsub_pos; auto using Prim2SF_valid, not_nan.
Qed.

Lemma ltb_asym (x y : float) : (x <? y) = true -> (y <? x) = false.
Proof. rewrite !ltb_spec; apply SFltb_asym. Qed.

Lemma nlt_trans (x y z : float) :
  is_nan y = false ->
  (x <? y) = false -> (y <? z) = false -> (x <? z) = false.
Proof. rewrite !ltb_spec => /not_nan; apply SFnlt_trans. Qed.

End F64.

(** ** Binary64 arithmetic without overflow

    The sums of squares of [cosine] stay finite on the vectors that it is
    given: rounding does not cross a number of the format, so a bound that
    is such a number survives every operation. *)

Module Bound.
Import F64.
Local Unset Implicit Arguments.
Local Open Scope Z_scope.

Lemma Zdigits2_le (x k : Z) : 0 <= k -> 0 <= x <= 2 ^ k -> Zdigits2 x <= k + 1.
Proof.
intros Hk [H0 Hx].
destruct (Z.eq_dec x 0) as [->|Hn]; [simpl; lia|].
destruct (Zdigits2_pos x ltac:(lia)) as [[Hlo _] Hd].
assert (H : 2 ^ (Zdigits2 x - 1) <= 2 ^ k) by lia.
apply Z.pow_le_mono_r_iff in H; lia.
Qed.

(** Where [shr_fexp] puts a mantissa, and what is left of it. *)
Lemma shr_fexp_spec (m e : Z) (l : location) :
  0 <= m ->
  let e' := Z.max e (fexp (Zdigits2 m + e)) in
  snd (shr_fexp prec emax m e l) = e' /\
  shr_m (fst (shr_fexp prec emax m e l)) = m / 2 ^ (e' - e).
Proof.
intros Hm e'; unfold shr_fexp, shr.
destruct (fexp (Zdigits2 m + e) - e) as [|p|p] eqn:E; cbn [fst snd].
- replace (e' - e) with 0 by (unfold e'; lia).
  rewrite shr_m_of_loc Z.pow_0_r Z.div_1_r; unfold e'; lia.
- rewrite -> iter_shr_m by (rewrite shr_m_of_loc; lia).
  rewrite shr_m_of_loc.
  replace (e' - e) with (Zpos p) by (unfold e'; lia).
  unfold e'; split; [lia | reflexivity].
- replace (e' - e) with 0 by (unfold e'; lia).
  rewrite shr_m_of_loc Z.pow_0_r Z.div_1_r; unfold e'; lia.
Qed.

Lemma shr_fexp_loc (m e : Z) :
  Z.max e (fexp (Zdigits2 m + e)) = e ->
  loc_of_shr_record (fst (shr_fexp prec emax m e loc_Exact)) = loc_Exact.
Proof.
intros H; unfold shr_fexp, shr.
destruct (fexp (Zdigits2 m + e) - e) as [|p|p] eqn:E; try reflexivity; lia.
Qed.

Lemma round_nearest_even_le (m : Z) (l : location) :
  round_nearest_even m l <= m + 1.
Proof.
unfold round_nearest_even; destruct l as [|[]]; try lia.
destruct (Z.even m); lia.
Qed.

Lemma div_pow2_le (m d k : Z) :
  0 <= m < 2 ^ d -> 0 <= d -> 0 <= k -> m / 2 ^ k + 1 <= 2 ^ Z.max (d - k) 0.
Proof.
intros [H0 Hm] Hd Hk.
assert (P := pow2_pos k Hk).
destruct (Z_le_gt_dec k d) as [Hkd|Hkd].
- replace (Z.max (d - k) 0) with (d - k) by lia.
  assert (H : m / 2 ^ k < 2 ^ (d - k)); [|lia].
  apply Z.div_lt_upper_bound; [lia|].
  rewrite <- Z.pow_add_r by lia.
  replace (k + (d - k)) with d by lia; exact Hm.
- replace (Z.max (d - k) 0) with 0 by lia.
  rewrite -> Z.div_small; [simpl; lia|].
  split; [lia|].
  apply Z.lt_le_trans with (1 := Hm).
  apply Z.pow_le_mono_r; lia.
Qed.

(** The two steps of [binary_round_aux] on a positive mantissa that is not
    too large: the mantissa is cut at the exponent [e1], rounded to [m1],
    and cut again at [e2]; the result is zero or a finite number. *)
Lemma binary_round_aux_spec (s : bool) (m e : Z) (l : location) :
  0 < m -> e <= emax - prec -> Zdigits2 m + e <= 1023 ->
  let e1 := Z.max e (fexp (Zdigits2 m + e)) in
  exists m1 e2,
    (m / 2 ^ (e1 - e) <= m1 <= m / 2 ^ (e1 - e) + 1) /\
    (l = loc_Exact -> e1 = e -> m1 = m) /\
    (e1 <= e2 <= emax - prec) /\
    binary_round_aux prec emax s m e l =
      match m1 / 2 ^ (e2 - e1) with
      | Z0 => S754_zero s
      | Zpos p => S754_finite s p e2
      | Zneg _ => S754_nan
      end.
Proof.
intros Hm He Hd e1; unfold binary_round_aux.
destruct (shr_fexp_spec m e l ltac:(lia)) as [He1 Hq].
assert (Hloc : l = loc_Exact -> e1 = e ->
          loc_of_shr_record (fst (shr_fexp prec emax m e l)) = loc_Exact)
  by (intros ->; apply shr_fexp_loc).
revert Hloc.
destruct (shr_fexp prec emax m e l) as [r1 e1']; cbn [fst snd] in He1, Hq |- *.
intros Hloc; fold e1 in He1, Hq; subst e1'.
set (m1 := round_nearest_even (shr_m r1) (loc_of_shr_record r1)).
assert (Hge := round_nearest_even_ge (shr_m r1) (loc_of_shr_record r1)).
assert (Hle := round_nearest_even_le (shr_m r1) (loc_of_shr_record r1)).
fold m1 in Hge, Hle.
destruct (Zdigits2_pos m Hm) as [[Hlo Hhi] Hdp].
assert (Hk : 0 <= e1 - e) by (unfold e1; lia).
assert (P := pow2_pos (e1 - e) Hk).
assert (Hq0 : 0 <= m / 2 ^ (e1 - e)) by (apply Z.div_pos; lia).
assert (H1 : 0 <= m1) by lia.
destruct (shr_fexp_spec m1 e1 loc_Exact H1) as [He2 Hm2].
destruct (shr_fexp prec emax m1 e1 loc_Exact) as [r2 e2]; cbn [fst snd] in He2, Hm2.
exists m1, e2.
assert (He1' : e1 <= emax - prec).
{ unfold e1, SpecFloat.fexp, SpecFloat.emin, emax, prec in *; lia. }
assert (Hdm1 : Zdigits2 m1 + e1 <= 1024).
{ assert (B := div_pow2_le m (Zdigits2 m) (e1 - e) ltac:(lia) ltac:(lia) Hk).
  assert (D := Zdigits2_le m1 (Z.max (Zdigits2 m - (e1 - e)) 0) ltac:(lia) ltac:(lia)).
  unfold emax, prec in He1'; lia. }
assert (He2' : e1 <= e2 <= emax - prec).
{ subst e2; unfold SpecFloat.fexp, SpecFloat.emin, emax, prec in *; lia. }
repeat split; try lia.
- intros L E.
  unfold m1; rewrite (Hloc L E) Hq E Z.sub_diag Z.pow_0_r Z.div_1_r; reflexivity.
- rewrite Hm2 -He2.
  destruct (m1 / 2 ^ (e2 - e1)); try reflexivity.
  replace (e2 <=? emax - prec) with true; [reflexivity|].
  symmetry; apply Z.leb_le; lia.
Qed.

(** A value below [2^k] has a mantissa and an exponent that add up to at
    most [k]. *)
Lemma digits_of_bound (m e z k : Z) :
  0 < m -> z <= e -> z <= k -> m * 2 ^ (e - z) < 2 ^ (k - z) ->
  Zdigits2 m + e <= k.
Proof.
intros Hm Hz Hk H.
destruct (Zdigits2_pos m Hm) as [[Hlo _] Hd].
assert (P := pow2_pos (e - z) ltac:(lia)).
assert (L : 2 ^ (Zdigits2 m - 1 + (e - z)) < 2 ^ (k - z)).
{ rewrite -> Z.pow_add_r by lia. nia. }
apply Z.pow_lt_mono_r_iff in L; lia.
Qed.

(** Rounding does not cross a number of the format: a value strictly below
    [N * 2^E], where [N] has at most [prec] bits, is rounded to a number
    that is at most [N * 2^E]. The values are scaled by [2^-z]. *)
Lemma round_below (s : bool) (m e N E z : Z) :
  0 < m -> z <= e -> z <= E -> emin <= E -> 0 < N <= 2 ^ prec ->
  e <= emax - prec -> N * 2 ^ (E - z) <= 2 ^ (1023 - z) ->
  m * 2 ^ (e - z) < N * 2 ^ (E - z) ->
  match binary_round_aux prec emax s m e loc_Exact with
  | S754_zero _ => True
  | S754_finite s' m' e' =>
      s' = s /\ e <= e' <= emax - prec /\
      Zpos m' * 2 ^ (e' - z) <= N * 2 ^ (E - z)
  | _ => False
  end.
Proof.
intros Hm Hze HzE HE HN He Hmax Hlt.
assert (Hz1023 : z <= 1023) by (unfold emax, prec in He; lia).
assert (Hd : Zdigits2 m + e <= 1023).
{ apply (digits_of_bound m e z 1023); lia. }
destruct (binary_round_aux_spec s m e loc_Exact Hm He Hd)
  as [m1 [e2 [[Hq1 Hq2] [Hex [He2 ->]]]]].
set (e1 := Z.max e (fexp (Zdigits2 m + e))) in *.
destruct (Zdigits2_pos m Hm) as [[Hlo Hhi] Hdp].
assert (Pez := pow2_pos (e - z) ltac:(lia)).
assert (Hk : 0 <= e1 - e) by (unfold e1; lia).
assert (Pk := pow2_pos (e1 - e) Hk).
assert (Hq0 : 0 <= m / 2 ^ (e1 - e)) by (apply Z.div_pos; lia).
assert (B1 : m1 * 2 ^ (e1 - z) <= N * 2 ^ (E - z)).
{ destruct (Z.eq_dec e1 e) as [Eq|Ne].
  - rewrite (Hex Logic.eq_refl Eq) Eq; lia.
  - assert (F : e1 = Zdigits2 m + e - prec \/ e1 = emin)
      by (unfold e1, SpecFloat.fexp in *; lia).
    assert (HEe1 : e1 <= E).
    { destruct F as [F|F]; [|lia].
      destruct (Z_le_gt_dec e1 E) as [|G]; [assumption|exfalso].
      assert (U : N * 2 ^ (E - z) <= 2 ^ (prec + (E - z))).
      { rewrite -> Z.pow_add_r by (unfold prec; lia).
        apply Z.mul_le_mono_nonneg_r; [apply Z.lt_le_incl, pow2_pos|]; lia. }
      assert (L : 2 ^ (Zdigits2 m - 1 + (e - z)) < 2 ^ (prec + (E - z))).
      { rewrite -> Z.pow_add_r by lia. nia. }
      apply Z.pow_lt_mono_r_iff in L; unfold prec in *; lia. }
    assert (PE := pow2_pos (E - e1) ltac:(lia)).
    assert (P1 := pow2_pos (e1 - z) ltac:(lia)).
    replace (E - z) with ((E - e1) + (e1 - z)) in Hlt |- * by lia.
    rewrite -> Z.pow_add_r in Hlt |- * by lia.
    replace (e1 - z) with ((e1 - e) + (e - z)) in Hlt by lia.
    rewrite -> Z.pow_add_r in Hlt by lia.
    assert (Hm' : m < 2 ^ (e1 - e) * (N * 2 ^ (E - e1))) by nia.
    apply Z.div_lt_upper_bound in Hm'; [|lia].
    rewrite Z.mul_assoc.
    apply Z.mul_le_mono_nonneg_r; lia. }
assert (Hj : 0 <= e2 - e1) by lia.
assert (Pj := pow2_pos (e2 - e1) Hj).
assert (P1 := pow2_pos (e1 - z) ltac:(lia)).
assert (B2 : m1 / 2 ^ (e2 - e1) * 2 ^ (e2 - z) <= N * 2 ^ (E - z)).
{ replace (e2 - z) with ((e2 - e1) + (e1 - z)) by lia.
  rewrite -> Z.pow_add_r by lia.
  assert (D := Z.mul_div_le m1 (2 ^ (e2 - e1)) Pj).
  assert (m1nn : 0 <= m1) by lia.
  nia. }
destruct (m1 / 2 ^ (e2 - e1)) as [|p|p] eqn:M2; [exact I| |].
- repeat split; [lia | lia | exact B2].
- assert (0 <= m1 / 2 ^ (e2 - e1)) by (apply Z.div_pos; lia); lia.
Qed.

Lemma SFbelow_mono (n k : Z) (x : spec_float) :
  n <= k -> SFbelow n x -> SFbelow k x.
Proof.
intros Hnk; destruct x as [?|?| |[] m e]; simpl; try tauto.
intros [He Hb]; split; [exact He|].
assert (P := pow2_pos (256 - emin) ltac:(unfold SpecFloat.emin, emax, prec; lia)).
nia.
Qed.

(** The bound on a number of the range of float32. *)
Lemma float32_range_spec (x : float) :
  float32_range x ->
  match Prim2SF x with
  | S754_zero _ => True
  | S754_finite _ m e =>
      emin <= e /\ Zpos m * 2 ^ (e - emin) <= 2 ^ (128 - emin)
  | _ => False
  end.
Proof.
unfold float32_range; rewrite leb_spec abs_spec.
assert (V := Prim2SF_valid x).
change (Prim2SF 0x1.fffffep127%float)
  with (S754_finite false 9007198717870080 75).
destruct (Prim2SF x) as [?|?| |sx m e]; try (intros; exact I); try discriminate.
destruct (valid_finite _ _ _ V) as [He [Hm _]].
unfold SFabs, SFleb, SFcompare; intros H; split; [exact He|].
assert (T : 2 ^ (128 - emin) = 2 ^ prec * 2 ^ (75 - emin)) by reflexivity.
assert (P : 0 < 2 ^ (e - emin)) by (apply pow2_pos; lia).
destruct (Z.compare_spec e 75) as [E|E|E]; try discriminate.
- subst e; rewrite T; nia.
- assert (Q : 2 ^ (e - emin) <= 2 ^ (75 - emin))
    by (apply Z.pow_le_mono_r; lia).
  rewrite T; nia.
Qed.

(** The same bound with the values scaled by a smaller power of two. *)
Lemma rescale (m e N E z z' : Z) :
  z <= z' -> z' <= e -> z' <= E ->
  m * 2 ^ (e - z) <= N * 2 ^ (E - z) ->
  m * 2 ^ (e - z') <= N * 2 ^ (E - z').
Proof.
intros Hz He HE H.
assert (P := pow2_pos (z' - z) ltac:(lia)).
replace (e - z) with ((e - z') + (z' - z)) in H by lia.
replace (E - z) with ((E - z') + (z' - z)) in H by lia.
rewrite -> !Z.pow_add_r in H by lia.
nia.
Qed.

Lemma valid_exponent (s : bool) (m : positive) (e : Z) :
  valid_binary (S754_finite s m e) = true -> e <= emax - prec.
Proof.
intros H; simpl in H; unfold bounded in H.
apply andb_prop in H; destruct H as [_ H]; apply Z.leb_le in H; exact H.
Qed.

(** [binary_round] first aligns the mantissa on its canonical exponent,
    when that one is smaller: the value stays. *)
Lemma shl_align_fexp_spec (m : positive) (e : Z) :
  emin <= e ->
  let r := shl_align m e (fexp (Zpos (digits2_pos m) + e)) in
  emin <= snd r <= e /\
  Zpos (fst r) * 2 ^ (snd r - emin) = Zpos m * 2 ^ (e - emin).
Proof.
intros He r; unfold r, shl_align.
destruct (fexp (Zpos (digits2_pos m) + e) - e) as [|p|p] eqn:E; cbn [fst snd];
  try (split; [lia | reflexivity]).
assert (F : emin <= fexp (Z.pos (digits2_pos m) + e))
  by (unfold SpecFloat.fexp; lia).
split; [lia|].
change (Pos.iter xO m p) with (shift_pos p m).
rewrite shift_pos_correct; change (Z.pow_pos 2 p) with (2 ^ Zpos p).
replace (e - emin) with (Zpos p + (fexp (Z.pos (digits2_pos m) + e) - emin)) by lia.
rewrite -> Z.pow_add_r by lia.
ring.
Qed.

Local Open Scope float_scope.

(** The square of a number of the range of float32 is at most
    [2 * 2^256]. *)
Lemma square_below (x : float) :
  float32_range x -> SFbelow 2 (Prim2SF (x * x)).
Proof.
intros R; apply float32_range_spec in R.
assert (V := Prim2SF_valid (x * x)); rewrite mul_spec in V |- *.
assert (Vx := Prim2SF_valid x).
destruct (Prim2SF x) as [?|?| |sx m e]; try (exact I); try (exfalso; exact R).
destruct R as [He Hb].
destruct (valid_finite _ _ _ Vx) as [_ [Hm _]].
unfold SF64mul, SFmul in V |- *.
replace (xorb sx sx) with false in V |- * by (destruct sx; reflexivity).
assert (Hx : (e <= 128)%Z).
{ destruct (Z_le_gt_dec e 128) as [|G]; [assumption|exfalso].
  assert (Q : (2 ^ (128 - emin) < 2 ^ (e - emin))%Z)
    by (apply Z.pow_lt_mono_r; unfold SpecFloat.emin, emax, prec; lia).
  nia. }
assert (B := round_below false (Zpos (m * m)) (e + e) 2 256 (emin + emin)
          ltac:(lia) ltac:(lia)
          ltac:(unfold SpecFloat.emin, emax, prec; lia)
          ltac:(unfold SpecFloat.emin, emax, prec; lia)
          ltac:(unfold prec; lia)
          ltac:(unfold emax, prec; lia)).
assert (P := pow2_pos (e - emin) ltac:(lia)).
assert (T : (2 ^ (256 - (emin + emin)) = 2 ^ (128 - emin) * 2 ^ (128 - emin))%Z)
  by reflexivity.
assert (S : (2 ^ (e + e - (emin + emin)) = 2 ^ (e - emin) * 2 ^ (e - emin))%Z).
{ rewrite <- Z.pow_add_r by lia; f_equal; lia. }
specialize (B ltac:(apply Z.leb_le; reflexivity)).
assert (P128 : (0 < 2 ^ (128 - emin))%Z) by reflexivity.
assert (L : (Z.pos (m * m) * 2 ^ (e + e - (emin + emin))
             < 2 * 2 ^ (256 - (emin + emin)))%Z).
{ rewrite T S Pos2Z.inj_mul; nia. }
specialize (B L).
destruct (binary_round_aux prec emax false (Z.pos (m * m)) (e + e) loc_Exact)
  as [?|?| |s' m' e']; try exact I; try (exfalso; exact B).
destruct B as [-> [[_ He'] Hb']].
destruct (valid_finite _ _ _ V) as [Hmin _].
simpl; split; [exact Hmin|].
exact (rescale (Zpos m') e' 2 256 (emin + emin) emin
         ltac:(unfold SpecFloat.emin, emax, prec; lia) Hmin
         ltac:(unfold SpecFloat.emin, emax, prec; lia) Hb').
Qed.

(** The sum of two numbers that are at most [n * 2^256] and [k * 2^256]
    is at most [(n + k + 1) * 2^256]. *)
Lemma add_below (a b : float) (n k : Z) :
  (0 <= n)%Z -> (0 <= k)%Z -> (n + k + 1 <= 2 ^ prec)%Z ->
  SFbelow n (Prim2SF a) -> SFbelow k (Prim2SF b) ->
  SFbelow (n + k + 1) (Prim2SF (a + b)).
Proof.
intros Hn Hk Hnk Ha Hb; rewrite add_spec.
assert (Va := Prim2SF_valid a); assert (Vb := Prim2SF_valid b).
destruct (Prim2SF a) as [sa|?| |[] ma ea]; try (exfalso; exact Ha);
  destruct (Prim2SF b) as [sb|?| |[] mb eb]; try (exfalso; exact Hb).
- destruct sa, sb; exact I.
- apply SFbelow_mono with k; [lia | exact Hb].
- apply SFbelow_mono with n; [lia | exact Ha].
- destruct Ha as [Hea Hba], Hb as [Heb Hbb].
  assert (Xa := valid_exponent _ _ _ Va).
  unfold SF64add, SFadd, cond_Zopp, binary_normalize.
  set (ez := Z.min ea eb).
  assert (Sa := shl_align_fst ma ea ez ltac:(unfold ez; lia)).
  assert (Sb := shl_align_fst mb eb ez ltac:(unfold ez; lia)).
  change (Z.pos (fst (shl_align ma ea ez)) + Z.pos (fst (shl_align mb eb ez)))%Z
    with (Z.pos (fst (shl_align ma ea ez) + fst (shl_align mb eb ez))).
  set (p := (fst (shl_align ma ea ez) + fst (shl_align mb eb ez))%positive).
  assert (Hp : (Zpos p * 2 ^ (ez - emin)
                = Zpos ma * 2 ^ (ea - emin) + Zpos mb * 2 ^ (eb - emin))%Z).
  { unfold p; rewrite Pos2Z.inj_add Sa Sb Z.mul_add_distr_r.
    rewrite <- !Z.mul_assoc, <- !Z.pow_add_r by (unfold ez; lia).
    do 2 f_equal; f_equal; lia. }
  unfold binary_round.
  destruct (shl_align_fexp_spec p ez ltac:(unfold ez; lia)) as [[Hz1 Hz2] Hv].
  destruct (shl_align p ez (fexp (Z.pos (digits2_pos p) + ez))) as [mz ez'].
  cbn [fst snd] in Hz1, Hz2, Hv.
  assert (PB : (0 < 2 ^ (256 - emin))%Z) by reflexivity.
  assert (B := round_below false (Zpos mz) ez' (n + k + 1) 256 emin
            ltac:(lia) Hz1
            ltac:(unfold SpecFloat.emin, emax, prec; lia)
            ltac:(unfold SpecFloat.emin, emax, prec; lia)
            ltac:(lia)
            ltac:(unfold ez in Hz2; lia)).
  assert (M : ((n + k + 1) * 2 ^ (256 - emin) <= 2 ^ (1023 - emin))%Z).
  { apply Z.le_trans with (2 ^ prec * 2 ^ (256 - emin))%Z;
      [nia | apply Z.leb_le; reflexivity]. }
  specialize (B M ltac:(nia)).
  destruct (binary_round_aux prec emax false (Z.pos mz) ez' loc_Exact)
    as [?|?| |s' m' e']; try exact I; try (exfalso; exact B).
  destruct B as [-> [[He' _] Hb']].
  simpl; split; [lia | exact Hb'].
Qed.

Lemma number_is_finite (x : float) :
  match Prim2SF x with
  | S754_zero _ | S754_finite _ _ _ => True
  | _ => False
  end -> is_finite x = true.
Proof.
unfold is_finite, is_nan, is_infinity; rewrite !eqb_spec abs_spec.
change (Prim2SF infinity) with (S754_infinity false).
destruct (Prim2SF x) as [[]|?| |[] m e]; try contradiction; intros _;
  try reflexivity; unfold SFeqb, SFabs, SFcompare;
  rewrite Z.compare_refl Pos.compare_cont_refl; reflexivity.
Qed.

(** What [SFsqrt] rounds: a positive mantissa at an exponent that is not
    below [emin], of a size that cannot overflow. *)
Lemma sqrt_core_spec (m : positive) (e : Z) :
  valid_binary (S754_finite false m e) = true ->
  let '(q, e', l) := SFsqrt_core_binary prec emax (Zpos m) e in
  (0 < q /\ emin <= e' <= emax - prec /\ Zdigits2 q + e' <= 1023)%Z.
Proof.
intros V.
destruct (valid_finite _ _ _ V) as [He [Hm _]].
assert (Xe := valid_exponent _ _ _ V).
unfold SFsqrt_core_binary.
set (d := Zdigits2 (Z.pos m)).
set (e' := Z.min (fexp (Z.div2 (d + e + 1))) (Z.div2 e)).
set (m' := match (e - 2 * e')%Z with
           | Z.pos _ => Z.shiftl (Z.pos m) (e - 2 * e')
           | 0%Z => Z.pos m
           | Z.neg _ => 0%Z
           end).
destruct (Zdigits2_pos (Zpos m) ltac:(lia)) as [[Dlo Dhi] Dp]; fold d in Dlo, Dhi, Dp.
assert (Hd : (d <= prec)%Z).
{ assert (L : (2 ^ (d - 1) < 2 ^ prec)%Z) by lia.
  apply Z.pow_lt_mono_r_iff in L; unfold prec in *; lia. }
assert (E2 : (Z.div2 e = e / 2)%Z) by apply Z.div2_div.
assert (E3 : (2 * (e / 2) <= e < 2 * (e / 2) + 2)%Z).
{ assert (D := Z.div_mod e 2 ltac:(lia)).
  assert (R := Z.mod_pos_bound e 2 ltac:(lia)); lia. }
assert (F : (emin <= fexp (Z.div2 (d + e + 1)))%Z) by (unfold SpecFloat.fexp; lia).
assert (He' : (emin <= e' <= emax - prec)%Z).
{ unfold e'; rewrite E2; unfold SpecFloat.emin, emax, prec in *; lia. }
assert (Hs : (0 <= e - 2 * e')%Z) by (unfold e'; rewrite E2; lia).
assert (Hm' : (m' = Z.pos m * 2 ^ (e - 2 * e'))%Z).
{ unfold m'; destruct (e - 2 * e')%Z as [|p|p] eqn:S; try lia.
  rewrite -> Z.shiftl_mul_pow2 by lia; reflexivity. }
assert (Ps := pow2_pos _ Hs).
assert (Pm' : (0 < m')%Z) by (rewrite Hm'; nia).
assert (Q := Z.sqrtrem_sqrt m').
assert (SS := Z.sqrt_spec m' ltac:(lia)); cbv zeta in SS.
assert (SP : (0 < Z.sqrt m')%Z) by (apply Z.sqrt_pos; exact Pm').
destruct (Z.sqrtrem m') as [q r]; cbn [fst] in Q; subst q.
split; [exact SP|]; split; [exact He'|].
destruct (Zdigits2_pos _ SP) as [[Qlo _] Qp].
set (dq := Zdigits2 (Z.sqrt m')) in *.
assert (L : (2 ^ (dq - 1 + (dq - 1)) < 2 ^ (d + (e - 2 * e')))%Z).
{ rewrite -> !Z.pow_add_r by lia.
  assert (0 < 2 ^ (dq - 1))%Z by (apply pow2_pos; lia).
  nia. }
apply Z.pow_lt_mono_r_iff in L; [|lia|lia].
unfold emax, prec in *; lia.
Qed.

(** The root of a number between zero and [n * 2^256] is a finite
    number. *)
Lemma sqrt_below_finite (x : float) (n : Z) :
  SFbelow n (Prim2SF x) -> is_finite (sqrt x) = true.
Proof.
intros H; apply number_is_finite; rewrite sqrt_spec.
assert (V := Prim2SF_valid x).
destruct (Prim2SF x) as [s|?| |[] m e]; try (exfalso; exact H); [exact I|].
unfold SF64sqrt, SFsqrt.
assert (C := sqrt_core_spec m e V).
destruct (SFsqrt_core_binary prec emax (Z.pos m) e) as [[q e'] l].
destruct C as [Hq [He' Hd]].
destruct (binary_round_aux_spec false q e' l Hq ltac:(lia) Hd)
  as [m1 [e2 [[Hq1 Hq2] [_ [He2 ->]]]]].
assert (0 <= m1 / 2 ^ (e2 - Z.max e' (fexp (Zdigits2 q + e'))))%Z.
{ apply Z.div_pos; [|apply pow2_pos; lia].
  apply Z.le_trans with (2 := Hq1).
  apply Z.div_pos; [lia | apply pow2_pos; lia]. }
destruct (m1 / 2 ^ (e2 - Z.max e' (fexp (Zdigits2 q + e'))))%Z; try exact I; lia.
Qed.

(** The root of such a number is zero only if the number is. *)
Lemma sqrt_below_zero (x : float) (n : Z) :
  SFbelow n (Prim2SF x) -> is_zero (sqrt x) = true -> is_zero x = true.
Proof.
unfold is_zero; rewrite !eqb_spec sqrt_spec.
change (Prim2SF zero) with (S754_zero false).
assert (V := Prim2SF_valid x).
destruct (Prim2SF x) as [[]|?| |[] m e]; try contradiction; intros _;
  try reflexivity.
unfold SF64sqrt, SFsqrt.
assert (C := sqrt_core_spec m e V).
destruct (SFsqrt_core_binary prec emax (Z.pos m) e) as [[q e'] l].
destruct C as [Hq [He' Hd]].
destruct (binary_round_aux_signed false q e' l Hq ltac:(lia)) as [->|[m' [e'' ->]]];
  discriminate.
Qed.

End Bound.

(** ** The order on strings *)

Lemma code_inj : injective code.
Proof.
move=> a b H; rewrite -(ascii_nat_embedding a) -(ascii_nat_embedding b).
by rewrite /code in H; rewrite H.
Qed.

Lemma str_le_total : total str_le.
Proof.
elim=> [|a s IH] [|b t] //=.
rewrite [code b == code a]eq_sym; case: ifP => [_|ne]; first exact: IH.
by rewrite -neq_ltn ne.
Qed.

Lemma str_le_trans : transitive str_le.
Proof.
move=> t s u; elim: s t u => [|a s IH] [|b t] [|c u] //=.
case: (ltngtP (code a) (code b)) => [ab|//|ab].
- case: (ltngtP (code b) (code c)) => [bc|//|bc] _ _.
  + by have ac := ltn_trans ab bc; rewrite (ltn_eqF ac) ac.
  + by rewrite -bc (ltn_eqF ab) ab.
- by rewrite ab; case: (ltngtP (code b) (code c)) => // _; exact: IH.
Qed.

Lemma str_le_anti : antisymmetric str_le.
Proof.
elim=> [|a s IH] [|b t] //=.
rewrite [code b == code a]eq_sym; case: (ltngtP (code a) (code b)) => //= ab.
by move=> /IH ->; rewrite (code_inj ab).
Qed.

Lemma Permutation_perm_eq (T : eqType) (s1 s2 : seq T) :
  Permutation s1 s2 -> perm_eq s1 s2.
Proof.
elim=> [|x l l' _ IH|x y l|l l' l'' _ IH1 _ IH2] //.
- by rewrite perm_cons.
- by rewrite -[y :: x :: l]/([:: y] ++ [:: x] ++ l) perm_catCA.
- exact: perm_trans IH1 IH2.
Qed.

(** ** The fingerprint *)

(** C3. The fingerprint of a catalog does not depend on the order of its
    entries: two catalogs that are permutations of one another have the
    same fingerprint. *)
Theorem fingerprint_order_independent (w : World) (ts1 ts2 : seq LiveTool) :
  Permutation ts1 ts2 -> fingerprint w ts1 = fingerprint w ts2.
Proof.
move=> P; rewrite /fingerprint; congr join.
apply/(perm_sortP str_le_total str_le_trans str_le_anti).
exact/Permutation_perm_eq/Permutation_map.
Qed.

(** ** The execute and batch handlers *)

(** A name that is absent, null or the empty string fails the test of the
    validation loop. *)
Lemma missing_or_empty_not_a_name (v : value) :
  v = VUndefined \/ v = VNull \/ v = VString EmptyString -> not_a_name v.
Proof. by case=> [->|[->|->]]. Qed.

(** The validation loop passes exactly the arrays whose elements all have
    properties and a name that passes. *)
Lemma values_of (calls : seq Entry) :
  ~~ has offending calls ->
  exists2 cs, calls = [seq ValueEntry c | c <- cs] & ~~ has invalid_name cs.
Proof.
elim: calls => [|[||c] calls IH] //=; first by exists [::].
rewrite negb_or => /andP [ok /IH [cs -> oks]].
by exists (c :: cs) => //=; rewrite negb_or ok.
Qed.

Lemma validate_values (cs : seq Call) :
  ~~ has invalid_name cs -> validate [seq ValueEntry c | c <- cs] = Normal true.
Proof.
elim: cs => [|c cs IH] //=; rewrite negb_or => /andP [ok /IH ->].
by rewrite /invalid_name in ok; rewrite (negbTE ok).
Qed.

(** The loop stops at the first offending element: with the error result
    when that element has properties, with the TypeError of reading
    [tool_name] when it is [null] or [undefined]. *)
Lemma validate_offending (calls : seq Entry) :
  has offending calls ->
  validate calls =
    bind (properties (nth NullEntry calls (find offending calls)))
      (fun _ => Normal false).
Proof.
elim: calls => [|[||c] calls IH] //=.
by rewrite /invalid_name; case: (not_a_name (tool_name c)).
Qed.

Lemma Promise_all_values (w : World) (cs : seq Call) :
  Promise_all [seq run_entry w call | call <- [seq ValueEntry c | c <- cs]] =
  Normal [seq run_call w c | c <- cs].
Proof. by elim: cs => [|c cs IH] //=; rewrite IH. Qed.

Lemma entry_events_values (cs : seq Call) :
  flatten [seq entry_events call | call <- [seq ValueEntry c | c <- cs]] =
  [seq call_event c | c <- cs].
Proof. by elim: cs => [|c cs IH] //=; rewrite IH. Qed.

Lemma batch_execute_valid (w : World) (s : State) (cs : seq Call) :
  routerClient s -> routerConnected s -> 0 < size cs ->
  ~~ has invalid_name cs ->
  batch_execute w s (Some [seq ValueEntry c | c <- cs]) =
    (Normal (Batch [seq run_call w c | c <- cs]),
     [seq call_event c | c <- cs]).
Proof.
rewrite /batch_execute => -> -> /= pos ok.
rewrite size_map eqn0Ngt pos /= validate_values //.
by rewrite Promise_all_values entry_events_values.
Qed.

Lemma batch_execute_invalid (w : World) (s : State) (calls : seq Entry) :
  routerClient s -> routerConnected s -> 0 < size calls ->
  has offending calls ->
  batch_execute w s (Some calls) =
    (bind (properties (nth NullEntry calls (find offending calls)))
       (fun _ => Normal (IsError EachCallNeedsName)),
     [::]).
Proof.
rewrite /batch_execute => -> -> /= pos bad.
rewrite eqn0Ngt pos /= validate_offending //.
by case: (nth _ _ _).
Qed.

(** Whatever the state: a result list is returned only when every call has
    been sent upstream, and a batch with an offending element is answered
    by an error result or an exception, without any call. *)
Lemma batch_execute_cases (w : World) (s : State) (calls : seq Entry) :
  (exists2 cs, calls = [seq ValueEntry c | c <- cs] &
     batch_execute w s (Some calls) =
       (Normal (Batch [seq run_call w c | c <- cs]), [seq call_event c | c <- cs])
     /\ ~~ has invalid_name cs)
  \/ ((batch_execute w s (Some calls)).2 = [::] /\
      ((exists text, (batch_execute w s (Some calls)).1 = Normal (IsError text))
       \/ (exists e, (batch_execute w s (Some calls)).1 = Throw e))).
Proof.
rewrite /batch_execute.
case: (~~ routerClient s || ~~ routerConnected s).
  by right; split=> //; left; eexists.
case: (size calls == 0); first by right; split=> //; left; eexists.
case bad: (has offending calls).
  right; rewrite validate_offending //.
  by case: (nth _ _ _) => [||c] /=; split=> //; [right|right|left]; eexists.
have [cs eq_calls ok] := values_of (negbT bad).
left; exists cs => //.
by rewrite eq_calls validate_values // Promise_all_values entry_events_values.
Qed.

(** X27. Batch isolation, for every array that the handler can be sent.
    Every element is looked at before any call is dispatched: if some
    element is [null] or [undefined], or has a [tool_name] that is missing,
    empty, not a string or blank, no call reaches the upstream and no
    result list is returned; with the router connected the first such
    element decides between the validation error (its name does not pass)
    and the TypeError of reading [tool_name] (it is [null] or
    [undefined]).
    Otherwise, with the router connected and a non-empty list, every call
    is sent upstream in input order and a result list is returned.
    Whenever a result list is returned, it has the length and the order of
    the input, and its [i]-th element carries the name of the [i]-th call
    and either the upstream result (success) or the stringified error
    (failure) of that call alone. *)
Theorem batch_isolation (w : World) (s : State) (calls : seq Entry) :
  let out := batch_execute w s (Some calls) in
  [/\ forall i c, i < size calls -> nth NullEntry calls i = ValueEntry c ->
        tool_name c = VUndefined \/ tool_name c = VNull \/
        tool_name c = VString EmptyString ->
        has offending calls,
      has offending calls ->
        out.2 = [::] /\
        ((exists text, out.1 = Normal (IsError text)) \/ (exists e, out.1 = Throw e)),
      routerClient s -> routerConnected s -> 0 < size calls ->
        has offending calls ->
        out.1 = match nth NullEntry calls (find offending calls) with
                | ValueEntry _ => Normal (IsError EachCallNeedsName)
                | NullEntry => Throw (cannot_read "null")
                | UndefinedEntry => Throw (cannot_read "undefined")
                end,
      routerClient s -> routerConnected s -> 0 < size calls ->
        ~~ has offending calls ->
        exists2 cs, calls = [seq ValueEntry c | c <- cs] &
          out = (Normal (Batch [seq run_call w c | c <- cs]),
                 [seq call_event c | c <- cs])
    & forall items, out.1 = Normal (Batch items) ->
        exists2 cs, calls = [seq ValueEntry c | c <- cs] &
        [/\ out.2 = [seq call_event c | c <- cs],
            size items = size calls
          & forall i c0 b0, i < size calls ->
              let call := nth c0 cs i in
              let toolName := as_string (tool_name call) in
              nth b0 items i =
                match callTool w toolName (coalesce (arguments call) empty_object) with
                | Normal result => BatchSuccess toolName result
                | Throw e => BatchFailure toolName (String_of_exn e)
                end]].
Proof.
move=> out; split.
- move=> i c lt_i eq_c bad; apply/(has_nthP NullEntry).
  by exists i => //; rewrite eq_c; apply: missing_or_empty_not_a_name.
- rewrite /out => bad.
  case: (batch_execute_cases w s calls) => [[cs eq_calls [_]]|//].
  by move: bad; rewrite eq_calls has_map => /= ->.
- move=> cl co ne bad; rewrite /out batch_execute_invalid //=.
  by case: (nth _ _ _).
- move=> cl co ne ok; have [cs eq_calls oks] := values_of ok.
  exists cs => //; rewrite /out eq_calls batch_execute_valid //.
  by move: ne; rewrite eq_calls size_map.
- rewrite /out => items.
  case: (batch_execute_cases w s calls)
    => [[cs eq_calls [-> _]]|[_ [[text ->]|[e ->]]]] //= [<-].
  exists cs => //; rewrite eq_calls !size_map; split=> //.
  by move=> i c0 b0 lt_i; rewrite (nth_map c0).
Qed.

Lemma coalesce_idem (v : value) :
  coalesce (coalesce v empty_object) empty_object = coalesce v empty_object.
Proof. by rewrite /coalesce; case absent: (nullish v) => //; rewrite absent. Qed.

Lemma validate_default (calls : seq Entry) :
  validate [seq on_value with_default_arguments call | call <- calls] =
  validate calls.
Proof. by elim: calls => [|[||c] calls IH] //=; rewrite IH. Qed.

(** C10. Absent arguments default to the empty object. In every state an
    execute request whose [arguments] field is absent (undefined or null)
    is answered as the same request with [{}] is, and a batch as the batch
    whose absent [arguments] fields hold [{}]; a request that passes the
    connection and name checks is forwarded upstream with [{}] as
    arguments, and its outcome is the upstream's. *)
Theorem absent_arguments_default (w : World) (s : State) :
  [/\ forall (toolName args : value), nullish args ->
        execute_tool w s (mkCall toolName args) =
        execute_tool w s (mkCall toolName empty_object),
      forall (toolName : string) (args : value),
        routerClient s -> routerConnected s ->
        trim toolName != EmptyString -> nullish args ->
        execute_tool w s (mkCall (VString toolName) args) =
          (bind (callTool w toolName empty_object) (fun r => Normal (Upstream r)),
           [:: EvCallTool toolName empty_object]),
      forall calls : seq Entry,
        batch_execute w s (Some calls) =
        batch_execute w s
          (Some [seq on_value with_default_arguments call | call <- calls])
    & forall (calls : seq Call) (i : nat) (c0 : Call) (ev0 : event),
        routerClient s -> routerConnected s ->
        ~~ has invalid_name calls ->
        i < size calls -> nullish (arguments (nth c0 calls i)) ->
        nth ev0 (batch_execute w s (Some [seq ValueEntry c | c <- calls])).2 i =
          EvCallTool (as_string (tool_name (nth c0 calls i))) empty_object].
Proof.
split.
- move=> toolName args absent; rewrite /execute_tool /=.
  by rewrite /coalesce absent.
- move=> toolName args cl co ne absent.
  by rewrite /execute_tool cl co /= (negbTE ne) /coalesce absent.
- move=> calls; rewrite /batch_execute size_map validate_default -!map_comp.
  have same_run : run_entry w \o on_value with_default_arguments =1 run_entry w.
    by case=> [||c] //; rewrite /= /run_entry /= /run_call /= coalesce_idem.
  have same_event :
      entry_events \o on_value with_default_arguments =1 entry_events.
    by case=> [||c] //; rewrite /= /call_event /= coalesce_idem.
  by rewrite (eq_map same_run) (eq_map same_event).
- move=> calls i c0 ev0 cl co ok lt_i absent.
  have pos : 0 < size calls by apply: leq_ltn_trans lt_i.
  rewrite batch_execute_valid //= (nth_map c0) //.
  by rewrite /call_event /coalesce absent.
Qed.

(** ** Readiness of discover *)

(** C8, as the code has it. For a request whose query is a non-blank
    string, [discover_tools] answers with the not-ready error exactly when
    the router is disconnected or the current snapshot is empty; in every
    other state it embeds the query, once, and returns the ranking of the
    snapshot (or lets the embedder's error through). *)
Theorem discover_gating (w : World) (s : State) (q : string) (lim : option float) :
  trim q != EmptyString ->
  let out := discover_tools w s (mkDiscoverArgs (VString q) lim) in
  (out.1 = Normal (IsError NotConnectedYet) <->
     ~~ routerConnected s || (size (tools (toolIndex s)) == 0))
  /\
  (routerConnected s -> 0 < size (tools (toolIndex s)) ->
     out =
       (bind (embed w q) (fun queryEmbedding =>
          Normal (Discovered
            [seq item_of r
            | r <- rank queryEmbedding (tools (toolIndex s))
                     (if lim is Some l then l else DISCOVER_LIMIT w)])),
        [:: EvEmbed q])).
Proof.
move=> ne /=; rewrite /discover_tools /= (negbTE ne).
case: (routerConnected s) => /=; last by split.
case: (tools (toolIndex s)) => [|t ts] /=; first by split.
by split=> [|_ _]; [split=> //|]; case: (embed w q).
Qed.

(** ** The index builder *)

Lemma embed_all_events (w : World) (c : cache) (live : seq LiveTool) :
  all is_embed (embed_all w c live).2.
Proof.
elim: live => [|t live IH] //=.
case: (cache_get c (live_key t)) => [e|].
  by case: (embed_all w c live) IH.
case: (embed w (embed_text t)) => [e|ex] //.
by case: (embed_all w c live) IH.
Qed.

Lemma set_reindexing_idle (s : State) :
  ~~ reindexing s -> set_reindexing s false = s.
Proof. by case: s => c co ix [] f. Qed.

Lemma buildIndex_unchanged (w : World) (reason : string) (s : State)
      (live : seq LiveTool) :
  routerClient s -> routerConnected s -> ~~ reindexing s ->
  listTools w = Normal live ->
  fingerprint w live == stored_fingerprint (toolIndex s) ->
  0 < size (tools (toolIndex s)) ->
  buildIndex w reason s =
    (Normal (mkCounts 0 0 (size live)), s,
     [:: EvListTools; EvLog (LogNoChanges (size live))]).
Proof.
move=> cl co idle lt fp ne; rewrite /buildIndex cl co (negbTE idle) lt /= fp ne /=.
by rewrite set_reindexing_idle.
Qed.

(** The path of [buildIndex] past the fingerprint check. *)
Lemma buildIndex_changed (w : World) (reason : string) (s : State)
      (live : seq LiveTool) :
  routerClient s -> routerConnected s -> ~~ reindexing s ->
  listTools w = Normal live ->
  ~~ ((fingerprint w live == stored_fingerprint (toolIndex s))
      && (0 < size (tools (toolIndex s)))) ->
  buildIndex w reason s =
    let old := toolIndex s in
    let embeddingCache :=
      seed_from_file (seed_cache [::] (tools old)) (cache_file s) old in
    let removed :=
      [seq n <- [seq name t | t <- tools old]
      | n \notin [seq live_name t | t <- live]] in
    match embed_all w embeddingCache live with
    | (Throw e, evs) => (Throw e, s, EvListTools :: evs)
    | (Normal (entries, added), evs) =>
        let ix := mkToolIndex entries (now w) (fingerprint w live) in
        match disk w with
        | WriteThrows e | RenameThrows e =>
            (Throw e, publish s ix (cache_file s),
             EvListTools :: evs ++ [:: EvWriteFile ix])
        | WriteOk =>
            (Normal (mkCounts added (size removed) (size entries - added)),
             publish s ix (Stored ix),
             EvListTools :: evs ++
               [:: EvWriteFile ix;
                   EvLog (LogReindexed reason added (size removed)
                            (size entries - added) (size entries))])
        end
    end.
Proof.
move=> cl co idle lt ch; rewrite /buildIndex cl co (negbTE idle) lt /= (negbTE ch).
by rewrite set_reindexing_idle.
Qed.

Lemma eq_fingerprint (w1 w2 : World) (ts : seq LiveTool) :
  JSON_stringify w2 =1 JSON_stringify w1 -> fingerprint w2 ts = fingerprint w1 ts.
Proof.
move=> same; rewrite /fingerprint; congr (join _ (sort _ _)).
by apply: eq_map => t; rewrite /fingerprint_line same.
Qed.

(** C2. Idempotence of rebuild. With the router connected and no rebuild
    in flight, if a call of [buildIndex] returns and leaves a non-empty
    snapshot, then a second call against the same upstream catalog
    (whatever the embedder, the clock and the disk have become) calls the
    embedder not at all (it only lists the tools and logs), leaves the
    whole state as it is, and returns added = 0, removed = 0 and
    unchanged = the number of entries of the catalog. *)
Theorem rebuild_idempotent (w1 w2 : World) (reason1 reason2 : string) (s : State)
        (c1 : Counts) (s1 : State) (evs1 : seq event) :
  routerClient s -> routerConnected s -> ~~ reindexing s ->
  listTools w2 = listTools w1 -> JSON_stringify w2 =1 JSON_stringify w1 ->
  buildIndex w1 reason1 s = (Normal c1, s1, evs1) ->
  0 < size (tools (toolIndex s1)) ->
  exists2 live, listTools w1 = Normal live &
    buildIndex w2 reason2 s1 =
      (Normal (mkCounts 0 0 (size live)), s1,
       [:: EvListTools; EvLog (LogNoChanges (size live))]).
Proof.
move=> cl co idle same_tools same_json.
case lt: (listTools w1) => [live|e]; last first.
  by rewrite /buildIndex cl co (negbTE idle) lt.
have lt2 : listTools w2 = Normal live by rewrite same_tools.
case ch: ((fingerprint w1 live == stored_fingerprint (toolIndex s))
          && (0 < size (tools (toolIndex s)))).
- case/andP: ch => fp ne; rewrite (buildIndex_unchanged _ cl co idle lt fp ne).
  case=> _ <- _ _; exists live => //; apply: buildIndex_unchanged => //.
  by rewrite (eq_fingerprint _ same_json).
- rewrite (buildIndex_changed _ cl co idle lt (negbT ch)) /=.
  case: (embed_all _ _ _) => [[[entries added]|e] evs] //.
  case: (disk w1) => [|e|e] // [_ <- _] /= ne; exists live => //.
  by apply: buildIndex_unchanged => //=; rewrite (eq_fingerprint _ same_json).
Qed.

(** C9, as the code has it. When the rebuild reaches the write of the
    snapshot file and the write (or the rename) throws, the snapshot in
    memory has already been replaced by the new one and the in-flight flag
    is reset, the file is left as it was, [buildIndex] itself logs nothing,
    and the error leaves [buildIndex]: no counts are returned. *)
Theorem persistence_failure_propagates (w : World) (reason : string) (s : State)
        (live : seq LiveTool) (entries : seq ToolEntry) (added : nat)
        (evs : seq event) (e : exn) :
  routerClient s -> routerConnected s -> ~~ reindexing s ->
  listTools w = Normal live ->
  ~~ ((fingerprint w live == stored_fingerprint (toolIndex s))
      && (0 < size (tools (toolIndex s)))) ->
  embed_all w
    (seed_from_file (seed_cache [::] (tools (toolIndex s))) (cache_file s)
       (toolIndex s)) live = (Normal (entries, added), evs) ->
  disk w = WriteThrows e \/ disk w = RenameThrows e ->
  let ix := mkToolIndex entries (now w) (fingerprint w live) in
  buildIndex w reason s =
    (Throw e,
     mkState (routerClient s) (routerConnected s) ix false (cache_file s),
     EvListTools :: evs ++ [:: EvWriteFile ix])
  /\ ~~ has is_log (EvListTools :: evs ++ [:: EvWriteFile ix]).
Proof.
move=> cl co idle lt ch ea dk /=; split.
  rewrite (buildIndex_changed _ cl co idle lt ch) /= ea.
  by case: dk => ->.
rewrite has_cat /= orbF -all_predC.
have := embed_all_events w
  (seed_from_file (seed_cache [::] (tools (toolIndex s))) (cache_file s)
     (toolIndex s)) live.
by rewrite ea /=; apply: sub_all => -[].
Qed.

(** *** The embedding cache *)

Lemma embed_all_size (w : World) (c : cache) (live : seq LiveTool)
      (entries : seq ToolEntry) (added : nat) :
  (embed_all w c live).1 = Normal (entries, added) ->
  size entries = size live /\ added <= size live.
Proof.
elim: live entries added => [|t live IH] entries added /=; first by case=> <- <-.
case: (cache_get c (live_key t)) => [e|].
  case: (embed_all w c live) IH => [[[es a]|ex] evs] //= IH [<- <-] /=.
  by case: (IH es a erefl) => -> le_a; split=> //; apply: leqW.
case: (embed w (embed_text t)) => [e|ex] //.
case: (embed_all w c live) IH => [[[es a]|ex] evs] //= IH [<- <-] /=.
by case: (IH es a erefl) => -> le_a.
Qed.

Lemma cache_get_seed_notin (c : cache) (ts : seq ToolEntry) (k : string) :
  k \notin [seq entry_key t | t <- ts] ->
  cache_get (seed_cache c ts) k = cache_get c k.
Proof.
rewrite /seed_cache; elim: ts c => [|t ts IH] c //=.
rewrite inE negb_or => /andP [ne nin]; rewrite IH //= /cache_set /=.
by rewrite eq_sym (negbTE ne).
Qed.

Lemma seed_cache_cat (c : cache) (l1 l2 : seq ToolEntry) :
  seed_cache c (l1 ++ l2) = seed_cache (seed_cache c l1) l2.
Proof. by rewrite /seed_cache foldl_cat. Qed.

Lemma seed_cache_hits (c : cache) (l1 l2 : seq ToolEntry) :
  uniq [seq entry_key t | t <- l1 ++ l2] ->
  hits (seed_cache c (l1 ++ l2)) l2.
Proof.
elim: l2 l1 => [|e l2 IH] l1 //= un; split; last first.
  by rewrite -cat_rcons; apply: IH; rewrite cat_rcons.
rewrite seed_cache_cat /= -/(seed_cache _ l2) cache_get_seed_notin /= ?eqxx //.
by move: un; rewrite map_cat cat_uniq /= => /and3P [_ _ /andP []].
Qed.

(** At a miss the cache holds no entry of the previous snapshot. *)
Lemma seed_cache_miss (old : seq ToolEntry) (k : string) :
  k \notin [seq entry_key t | t <- old] ->
  cache_get (seed_cache [::] old) k = None.
Proof. by move=> nin; rewrite cache_get_seed_notin. Qed.

(** *** One description changed *)

Lemma same_entry_key (e : ToolEntry) (t : LiveTool) :
  same_entry e t -> live_key t = entry_key e.
Proof. by case/andP=> /eqP n /eqP d; rewrite /live_key /entry_key n d. Qed.

Lemma embed_all_same (w : World) (c : cache) (old : seq ToolEntry)
      (live : seq LiveTool) :
  all2 same_entry old live -> hits c old ->
  embed_all w c live = (Normal (rebuilt live [seq embedding e | e <- old], 0), [::]).
Proof.
elim: old live => [|e old IH] [|t live] //= /andP [se sa] [hit hs].
by rewrite (same_entry_key se) hit (IH _ sa hs).
Qed.

Lemma embed_all_changed (w : World) (c : cache) (v : seq float) (t0 : LiveTool)
      (old : seq ToolEntry) (live : seq LiveTool) (i : nat) :
  changed_at old live i -> hits c old ->
  cache_get c (live_key (nth t0 live i)) = None ->
  embed w (embed_text (nth t0 live i)) = Normal v ->
  embed_all w c live =
    (Normal (rebuilt live (set_nth [::] [seq embedding e | e <- old] i v), 1),
     [:: EvEmbed (embed_text (nth t0 live i))]).
Proof.
elim: old live i => [|e old IH] [|t live] [|i] //=.
- case/and3P=> _ _ sa [_ hs] -> ->.
  by rewrite (embed_all_same _ sa hs).
- case/andP=> se ch [hit hs] miss em.
  by rewrite (same_entry_key se) hit (IH _ _ ch hs miss em).
Qed.

Lemma changed_at_size (old : seq ToolEntry) (live : seq LiveTool) (i : nat) :
  changed_at old live i -> size old = size live /\ i < size old.
Proof.
elim: old live i => [|e old IH] [|t live] [|i] //=.
- by case/and3P=> _ _; rewrite all2E => /andP [/eqP ->].
- by case/andP=> _ /IH [->].
Qed.

Lemma embedding_rebuilt (live : seq LiveTool) (vs : seq (seq float))
      (e0 : ToolEntry) (j : nat) :
  size vs = size live -> j < size live ->
  embedding (nth e0 (rebuilt live vs) j) = nth [::] vs j.
Proof.
move=> sz lt_j; case: live sz lt_j => [|t0 live'] // sz lt_j.
rewrite /rebuilt (nth_map (t0, [::])) ?size_zip ?sz ?minnn //.
by rewrite nth_zip.
Qed.

Lemma seed_from_file_warm (c : cache) (f : file) (ix : ToolIndex) :
  0 < size (tools ix) -> seed_from_file c f ix = c.
Proof. by case: f => //= cached; case: (size (tools ix)). Qed.

(** X1. Incrementality of rebuild, where cache keys do not collide. Take a
    rebuild that goes past the fingerprint check, against a catalog that is
    the previous snapshot entry by entry but for the description of entry
    [i]. If the cache keys [name|||description] of the previous snapshot are
    pairwise distinct and the new key of entry [i] is not among them, the
    embedder is called exactly once, on the text of entry [i], and every
    other entry of the new snapshot carries the vector it had in the
    previous one. *)
Lemma rebuild_incremental (w : World) (reason : string) (s : State)
        (live : seq LiveTool) (i : nat) (v : seq float)
        (t0 : LiveTool) (e0 : ToolEntry) :
  routerClient s -> routerConnected s -> ~~ reindexing s ->
  listTools w = Normal live ->
  fingerprint w live != stored_fingerprint (toolIndex s) ->
  changed_at (tools (toolIndex s)) live i ->
  uniq [seq entry_key e | e <- tools (toolIndex s)] ->
  live_key (nth t0 live i) \notin [seq entry_key e | e <- tools (toolIndex s)] ->
  embed w (embed_text (nth t0 live i)) = Normal v ->
  let: (r, s', evs) := buildIndex w reason s in
  [/\ [seq ev <- evs | is_embed ev] = [:: EvEmbed (embed_text (nth t0 live i))],
      size (tools (toolIndex s')) = size (tools (toolIndex s)),
      embedding (nth e0 (tools (toolIndex s')) i) = v
    & forall j, j < size (tools (toolIndex s)) -> j != i ->
        embedding (nth e0 (tools (toolIndex s')) j) =
        embedding (nth e0 (tools (toolIndex s)) j)].
Proof.
move=> cl co idle lt fp ch un fresh em.
have [sz lt_i] := changed_at_size ch.
have pos : 0 < size (tools (toolIndex s)) by apply: leq_ltn_trans lt_i.
have nch : ~~ ((fingerprint w live == stored_fingerprint (toolIndex s))
               && (0 < size (tools (toolIndex s)))) by rewrite (negbTE fp).
rewrite (buildIndex_changed _ cl co idle lt nch) /= seed_from_file_warm //.
rewrite (embed_all_changed ch (seed_cache_hits [::] (l1 := [::]) un)
           (seed_cache_miss fresh) em).
set vs := set_nth _ _ _ _.
have szv : size vs = size (tools (toolIndex s)).
  by rewrite /vs size_set_nth size_map; apply/maxn_idPr.
have tl : forall f, tools (toolIndex (publish s
            (mkToolIndex (rebuilt live vs) (now w) (fingerprint w live)) f))
          = rebuilt live vs by [].
have sizes : size (rebuilt live vs) = size (tools (toolIndex s)).
  by rewrite /rebuilt size_map size_zip szv sz minnn.
have at_i : embedding (nth e0 (rebuilt live vs) i) = v.
  by rewrite embedding_rebuilt -?sz // /vs nth_set_nth /= eqxx.
have at_j : forall j, j < size (tools (toolIndex s)) -> j != i ->
    embedding (nth e0 (rebuilt live vs) j) =
    embedding (nth e0 (tools (toolIndex s)) j).
  move=> j lt_j ne; rewrite embedding_rebuilt -?sz //.
  by rewrite /vs nth_set_nth /= (negbTE ne) (nth_map e0).
by case: (disk w) => [|e|e]; rewrite tl.
Qed.

(** *** What every call of [buildIndex] keeps *)

Lemma buildIndex_flags (w : World) (reason : string) (s : State) :
  let s' := (buildIndex w reason s).1.2 in
  [/\ routerClient s' = routerClient s,
      routerConnected s' = routerConnected s
    & reindexing s' = reindexing s].
Proof.
rewrite /buildIndex.
case: (~~ routerClient s || ~~ routerConnected s) => //=.
case idle: (reindexing s) => //=.
case: (listTools w) => [live|e] //=.
case: ifP => // _.
case: (embed_all _ _ _) => [[[entries added]|e] evs] //=.
by case: (disk w).
Qed.

(** X2. [buildIndex] leaves the two connection fields and the in-flight flag
    as it found them, on every path: a call that set the flag resets it
    whether it returns (no change, or a rebuild) or throws (the error of the
    upstream, of the embedder or of the disk), and a call that found the
    flag set by another leaves it set. *)
Theorem buildIndex_preserves_flags (w : World) (reason : string) (s : State) :
  let s' := (buildIndex w reason s).1.2 in
  [/\ routerClient s' = routerClient s,
      routerConnected s' = routerConnected s
    & reindexing s' = reindexing s].
Proof. exact: buildIndex_flags. Qed.

Lemma embed_all_entries (w : World) (c : cache) (live : seq LiveTool)
      (entries : seq ToolEntry) (added : nat) :
  (embed_all w c live).1 = Normal (entries, added) ->
  [/\ [seq name e | e <- entries] = [seq live_name t | t <- live],
      [seq description e | e <- entries] = [seq desc_of t | t <- live]
    & [seq inputSchema e | e <- entries] = [seq live_inputSchema t | t <- live]].
Proof.
elim: live entries added => [|t live IH] entries added /=; first by case=> <- _.
case: (cache_get c (live_key t)) => [e|].
  case: (embed_all w c live) IH => [[[es a]|ex] evs] //= IH [<- _] /=.
  by case: (IH es a erefl) => -> -> ->.
case: (embed w (embed_text t)) => [e|ex] //.
case: (embed_all w c live) IH => [[[es a]|ex] evs] //= IH [<- _] /=.
by case: (IH es a erefl) => -> -> ->.
Qed.

(** X3. The snapshot in memory is never a partial one. After a call of
    [buildIndex], whatever it returned or threw, the snapshot is either the
    one from before the call or a whole image of the catalog that
    [listTools] returned: one entry per tool, in catalog order, with the
    name, the description (the empty string for an absent one) and the
    schema of the tool, stamped with the time of the call and with the
    fingerprint of the catalog. *)
Theorem buildIndex_snapshot_whole (w : World) (reason : string) (s : State) :
  let s' := (buildIndex w reason s).1.2 in
  toolIndex s' = toolIndex s \/
  exists2 live, listTools w = Normal live &
    [/\ [seq name e | e <- tools (toolIndex s')] = [seq live_name t | t <- live],
        [seq description e | e <- tools (toolIndex s')] = [seq desc_of t | t <- live],
        [seq inputSchema e | e <- tools (toolIndex s')] =
          [seq live_inputSchema t | t <- live],
        indexedAt (toolIndex s') = now w
      & stored_fingerprint (toolIndex s') = fingerprint w live].
Proof.
rewrite /buildIndex.
case: (~~ routerClient s || ~~ routerConnected s) => /=; first by left.
case idle: (reindexing s) => /=; first by left.
case lt: (listTools w) => [live|e] /=; last by left.
case: ifP => _; first by left.
case ea: (embed_all _ _ _) => [[[entries added]|e] evs] /=; last by left.
have [nm ds sc] := embed_all_entries (f_equal fst ea).
by right; exists live => //; case: (disk w).
Qed.

Lemma embeds_no_write (evs : seq event) :
  all is_embed evs -> [seq ev <- evs | is_write ev] = [::].
Proof. by elim: evs => [|[] //= t evs IH]. Qed.

Lemma embeds_never_write (evs : seq event) :
  all is_embed evs -> ~~ has is_write evs.
Proof. by elim: evs => [|[] //= t evs IH]. Qed.

(** X4. The snapshot file follows the memory. When [buildIndex] returns,
    either nothing at all has changed and nothing was written, or the file
    was written exactly once and holds the snapshot that is now in memory;
    when it throws, the file is as it was before the call. *)
Theorem buildIndex_file_follows_memory (w : World) (reason : string) (s : State) :
  let: (r, s', evs) := buildIndex w reason s in
  match r with
  | Normal _ =>
      (s' = s /\ ~~ has is_write evs) \/
      (cache_file s' = Stored (toolIndex s') /\
       [seq ev <- evs | is_write ev] = [:: EvWriteFile (toolIndex s')])
  | Throw _ => cache_file s' = cache_file s
  end.
Proof.
rewrite /buildIndex.
case: (~~ routerClient s || ~~ routerConnected s) => /=; first by left.
case idle: (reindexing s) => /=; first by left.
have same : set_reindexing s false = s by apply: set_reindexing_idle; rewrite idle.
case lt: (listTools w) => [live|e] //=.
case: ifP => _; first by left.
case ea: (embed_all _ _ _) => [[[entries added]|e] evs] //=.
have := embed_all_events w
  (seed_from_file (seed_cache [::] (tools (toolIndex s))) (cache_file s)
     (toolIndex s)) live.
rewrite ea /= => emb.
have nowrite := embeds_no_write emb.
case: (disk w) => [|e|e] //=; right; split=> //.
by rewrite filter_cat nowrite.
Qed.

(** *** Which tools are embedded *)

Lemma cache_get_seed (c : cache) (ts : seq ToolEntry) (k : string) :
  isSome (cache_get (seed_cache c ts) k) =
  (k \in [seq entry_key e | e <- ts]) || isSome (cache_get c k).
Proof.
rewrite /seed_cache; elim: ts c => [|t ts IH] c //=.
rewrite IH inE /cache_set /= [k == _]eq_sym.
by case: (entry_key t == k); rewrite ?orbT.
Qed.

Lemma cache_get_known (s : State) (k : string) :
  isSome (cache_get
    (seed_from_file (seed_cache [::] (tools (toolIndex s))) (cache_file s)
       (toolIndex s)) k) = (k \in known_keys s).
Proof.
rewrite /known_keys mem_cat /seed_from_file.
case: (cache_file s) => [||cached]; rewrite ?cache_get_seed ?orbF //.
by case: ifP => _; rewrite !cache_get_seed /= ?orbF // orbC.
Qed.

Lemma embed_all_unknown (w : World) (c : cache) (live : seq LiveTool)
      (entries : seq ToolEntry) (added : nat) (evs : seq event) :
  embed_all w c live = (Normal (entries, added), evs) ->
  evs = [seq EvEmbed (embed_text t) | t <- live & ~~ cache_get c (live_key t)]
  /\ added = count (fun t => ~~ cache_get c (live_key t)) live.
Proof.
elim: live entries added evs => [|t live IH] entries added evs /=.
  by case=> _ <- <-.
case: (cache_get c (live_key t)) => [e|] /=.
  case: (embed_all w c live) IH => [[[es a]|ex] evs'] //= IH [_ <- <-].
  by case: (IH es a evs' erefl) => <- <-.
case: (embed w (embed_text t)) => [e|ex] //.
case: (embed_all w c live) IH => [[[es a]|ex] evs'] //= IH [_ <- <-].
by case: (IH es a evs' erefl) => <- <-.
Qed.

Lemma filter_embeds (evs ev : seq event) :
  all is_embed evs -> ~~ has is_embed ev ->
  [seq e <- EvListTools :: evs ++ ev | is_embed e] = evs.
Proof.
move=> emb none /=; rewrite filter_cat.
have -> : [seq e <- ev | is_embed e] = [::].
  by elim: ev none => [|e ev' IH] //=; case: (is_embed e).
by rewrite cats0; apply/all_filterP.
Qed.

(** X5. A rebuild that reaches the write of the file has called the
    embedder exactly for the tools of the catalog whose key
    [name|||description] is not a key of the snapshot in memory (nor, when
    that snapshot is empty, of the snapshot file), once each and in catalog
    order, and the new snapshot has one entry per tool of the catalog. If
    the rebuild returns, [added] counts those tools, [unchanged] the other
    tools of the catalog, and [removed] the entries of the previous snapshot
    whose name is no more in the catalog. *)
Theorem buildIndex_embeds_unknown (w : World) (reason : string) (s : State)
        (live : seq LiveTool) (r : completion Counts) (s' : State) (evs : seq event) :
  listTools w = Normal live ->
  buildIndex w reason s = (r, s', evs) ->
  has is_write evs ->
  [/\ [seq ev <- evs | is_embed ev] =
        [seq EvEmbed (embed_text t) | t <- live & live_key t \notin known_keys s],
      size (tools (toolIndex s')) = size live
    & forall c, r = Normal c ->
      [/\ added c = count (fun t => live_key t \notin known_keys s) live,
          unchanged c = count (fun t => live_key t \in known_keys s) live
        & removed c =
            count (fun e => name e \notin [seq live_name t | t <- live])
              (tools (toolIndex s))]].
Proof.
move=> lt; rewrite /buildIndex.
case: (~~ routerClient s || ~~ routerConnected s) => /=; first by case=> _ _ <-.
case idle: (reindexing s) => /=; first by case=> _ _ <-.
rewrite lt; case: ifP => _; first by case=> _ _ <-.
case ea: (embed_all _ _ _) => [[[entries added]|e] evs'] /=; last first.
  case=> _ _ <- /= wr.
  have := embed_all_events w
    (seed_from_file (seed_cache [::] (tools (toolIndex s))) (cache_file s)
       (toolIndex s)) live.
  rewrite ea /= => emb.
  by move: wr; rewrite (negbTE (embeds_never_write emb)).
have [-> ->] := embed_all_unknown ea.
have [sz _] := embed_all_size (f_equal fst ea).
have known : forall t, ~~ cache_get
    (seed_from_file (seed_cache [::] (tools (toolIndex s))) (cache_file s)
       (toolIndex s)) (live_key t) = (live_key t \notin known_keys s).
  by move=> t; rewrite -cache_get_known.
have embs : forall ev, ~~ has is_embed ev ->
  [seq e <- EvListTools ::
     [seq EvEmbed (embed_text t) | t <- live & ~~ cache_get
        (seed_from_file (seed_cache [::] (tools (toolIndex s))) (cache_file s)
        (toolIndex s)) (live_key t)] ++ ev | is_embed e] =
  [seq EvEmbed (embed_text t) | t <- live & live_key t \notin known_keys s].
  move=> ev none; rewrite filter_embeds //; first by rewrite all_map; exact: all_predT.
  by rewrite (eq_filter known).
case: (disk w) => [|e|e] [<- <- <-] _; rewrite embs //; split=> // c // [<-] /=.
rewrite (eq_count known) sz; split=> //.
  rewrite -(count_predC (fun t => live_key t \notin known_keys s) live) addKn.
  by apply: eq_count => t /=; rewrite negbK.
by rewrite size_filter count_map.
Qed.

(** *** When the snapshot file is read *)

Lemma buildIndex_same_cache (w : World) (reason : string) (s : State) (f : file) :
  seed_from_file (seed_cache [::] (tools (toolIndex s))) f (toolIndex s) =
  seed_from_file (seed_cache [::] (tools (toolIndex s))) (cache_file s) (toolIndex s) ->
  same_run (buildIndex w reason (with_file s f)) (buildIndex w reason s).
Proof.
rewrite /buildIndex /= => ->.
case: (~~ routerClient s || ~~ routerConnected s) => //=.
case idle: (reindexing s) => //=.
case: (listTools w) => [live|e] //=.
case: ifP => // _.
case: (embed_all _ _ _) => [[[entries added]|e] evs] //=.
by case: (disk w).
Qed.

(** X6. The snapshot file is read on a cold start only, and a file that
    does not parse counts as no file. With a snapshot in memory that is not
    empty, [buildIndex] returns the same, leaves the same snapshot in memory
    and causes the same events whatever the file holds; and with any
    snapshot in memory it does with a corrupt file what it does with a
    missing one. *)
Theorem snapshot_file_read_cold_only (w : World) (reason : string) (s : State) :
  (0 < size (tools (toolIndex s)) ->
   forall f, same_run (buildIndex w reason (with_file s f)) (buildIndex w reason s))
  /\ same_run (buildIndex w reason (with_file s Corrupt))
              (buildIndex w reason (with_file s Missing)).
Proof.
split=> [ne f|].
  by apply: buildIndex_same_cache; rewrite !seed_from_file_warm.
exact: (@buildIndex_same_cache w reason (with_file s Missing) Corrupt).
Qed.

(** *** After the transport has closed *)

(** X7. Once the [onclose] handler of the transport has run, no request
    reaches the upstream, the embedder or the disk (the only event, if any,
    is a line of the log), and its arguments are not looked at:
    [discover_tools] answers that the router is not connected yet,
    [execute_tool] and [batch_execute] that it is not connected,
    [refresh_tools] that it cannot refresh, and an unknown tool throws. The
    state stays as [onclose] left it. *)
Theorem closed_router_is_left_alone (w : World) (s : State) (r : request) :
  let: (c, s', evs) := handle w (onclose s) r in
  [/\ s' = onclose s, ~~ has reaches_out evs
    & match r with
      | DiscoverTools _ => c = Normal (IsError NotConnectedYet)
      | ExecuteTool _ | BatchExecute _ => c = Normal (IsError NotConnected)
      | RefreshTools => c = Normal CannotRefresh
      | OtherTool _ => exists e, c = Throw e
      end].
Proof. by case: r => [a|a|cs||n] /=; split=> //; eexists. Qed.

(** ** The ranking *)

Lemma slice_end_le (len : nat) (e : integer_or_infinity) : slice_end len e <= len.
Proof.
case: e => [z| |] //=; case: ifP => [/Z.ltb_lt neg|_]; apply/leP; lia.
Qed.

Section Ranking.

Variables (q : seq float) (ts : seq ToolEntry) (t0 : ToolEntry).

Local Notation sc := (score_at q ts t0).
Local Notation n := (size ts).
Local Notation leN := (comparator_le q ts t0).

Lemma scored_at_index : scored q ts = [seq scored_at q ts t0 i | i <- iota 0 n].
Proof.
rewrite /scored -{1}(mkseq_nth t0 ts) /mkseq -map_comp.
exact: eq_map.
Qed.

(** The ranking is the catalog read through a permutation of its
    positions, cut by [slice]. *)
Lemma rank_permutation (lim : float) :
  rank q ts lim =
    [seq scored_at q ts t0 i
    | i <- take (slice_end n (ToIntegerOrInfinity lim)) (sort leN (iota 0 n))].
Proof.
rewrite /rank /slice0 /js_sort size_sort size_map -/(scored q ts) scored_at_index.
by rewrite sort_map map_take.
Qed.

Lemma size_rank (lim : float) :
  size (rank q ts lim) = slice_end n (ToIntegerOrInfinity lim).
Proof.
rewrite rank_permutation size_map size_take size_sort size_iota.
by case: ltngtP (slice_end_le n (ToIntegerOrInfinity lim)).
Qed.

Hypothesis numbers : all (fun t => ~~ is_nan (cosine q (embedding t))) ts.

Lemma score_number (i : nat) : i < n -> is_nan (sc i) = false.
Proof. by move=> lt_i; apply/negbTE; move/(all_nthP t0): numbers; apply. Qed.

Lemma leN_ltb (i j : nat) : i < n -> j < n -> leN i j = ~~ (sc i <? sc j)%float.
Proof. by move=> lt_i lt_j; rewrite /comparator_le F64.sub_pos_ltb ?score_number. Qed.

Lemma leN_total : {in gtn n &, total leN}.
Proof.
move=> i j lt_i lt_j; rewrite !leN_ltb //.
by case E: (sc i <? sc j)%float => //; rewrite (F64.ltb_asym _ _ E).
Qed.

Lemma ranks_before_trans : {in gtn n & &, transitive (ranks_before q ts t0)}.
Proof.
move=> j i k lt_j lt_i lt_k; rewrite /ranks_before.
move=> /andP [/negbTE ij ij'] /andP [/negbTE jk jk'].
have nj := score_number lt_j.
rewrite (F64.nlt_trans _ _ _ nj ij jk) /=.
case ki: (sc k <? sc i)%float => //=.
case ji: (sc j <? sc i)%float ij'.
  by rewrite (F64.nlt_trans _ _ _ (score_number lt_k) jk ki) in ji.
case kj: (sc k <? sc j)%float jk'.
  by rewrite (F64.nlt_trans _ _ _ (score_number lt_i) ki ij) in kj.
by move=> /= lt_jk lt_ij; apply: ltn_trans lt_ij lt_jk.
Qed.

Lemma sort_ranks_before : pairwise (ranks_before q ts t0) (sort leN (iota 0 n)).
Proof.
have in_n : all (gtn n) (iota 0 n).
  by apply/allP => i; rewrite mem_iota.
have in_n' : all (gtn n) (sort leN (iota 0 n)) by rewrite all_sort.
rewrite -(sorted_pairwise_in ranks_before_trans) //.
have := sort_stable_in leN_total (fun _ _ _ _ _ _ => @ltn_trans _ _ _)
          in_n (iota_ltn_sorted 0 n).
apply: sub_in_sorted in_n' => i j lt_i lt_j /=.
by rewrite /ranks_before !leN_ltb //; case: (sc j <? sc i)%float.
Qed.

End Ranking.

(** C4, as the code has it. Ranking order and truncation. When no
    similarity is NaN, the ranking of [discover_tools] lists the entries of
    the snapshot by descending cosine similarity, entries of equal
    similarity in catalog order, and keeps of that list what
    [slice(0, limit)] keeps: the first [limit] entries (all of them if
    there are fewer) for a limit of zero or more, all but the last
    [-limit] for a negative one, the limit being truncated to an integer.
    No minimum of one result is enforced. *)
Theorem ranking_order_and_truncation (q : seq float) (ts : seq ToolEntry)
        (lim : float) (t0 : ToolEntry) :
  all (fun t => ~~ is_nan (cosine q (embedding t))) ts ->
  exists p : seq nat,
    [/\ perm_eq p (iota 0 (size ts)),
        pairwise (ranks_before q ts t0) p,
        rank q ts lim =
          [seq scored_at q ts t0 i
          | i <- take (slice_end (size ts) (ToIntegerOrInfinity lim)) p]
      & size (rank q ts lim) = slice_end (size ts) (ToIntegerOrInfinity lim)].
Proof.
move=> numbers.
exists (sort (comparator_le q ts t0) (iota 0 (size ts))); split.
- by rewrite perm_sort.
- exact: sort_ranks_before numbers.
- exact: rank_permutation.
- exact: size_rank.
Qed.

(** ** The similarity and the relevance *)

(** What [discover_tools] returns for the entry at a position of the
    catalog: its name, description and schema, and its similarity as
    [toFixed(4)] prints it, read back as a number. *)
Lemma discover_items (q : seq float) (ts : seq ToolEntry) (lim : float)
      (t0 : ToolEntry) :
  [seq item_of r | r <- rank q ts lim] =
    [seq mkDiscoverItem (name (nth t0 ts i)) (description (nth t0 ts i))
           (toFixed4_parse (cosine q (embedding (nth t0 ts i))))
           (inputSchema (nth t0 ts i))
    | i <- take (slice_end (size ts) (ToIntegerOrInfinity lim))
             (sort (comparator_le q ts t0) (iota 0 (size ts)))].
Proof. by rewrite (rank_permutation q ts t0) -map_comp. Qed.

Lemma eqb_zero (x : float) : is_zero x -> exists s, Prim2SF x = S754_zero s.
Proof.
rewrite /is_zero eqb_spec; change (Prim2SF zero) with (S754_zero false).
by case: (Prim2SF x) => [s|[]| |[] m e] //= _; exists s.
Qed.

Lemma finite_number (x : float) :
  is_finite x ->
  (exists s, Prim2SF x = S754_zero s) \/ (exists s m e, Prim2SF x = S754_finite s m e).
Proof.
rewrite /is_finite /is_nan /is_infinity negb_or !eqb_spec abs_spec negbK.
change (Prim2SF infinity) with (S754_infinity false).
case: (Prim2SF x) => [s|[]| |s m e] //= _; first by left; exists s.
by right; exists s, m, e.
Qed.

(** The guard of [cosine] does its work when one sum of squares is zero and
    the root of the other is a finite number: the similarity is 0. *)
Lemma cosine_guard (a b : seq float) :
  let: (dot, magA, magB) := cosine_loop a b (0, 0, 0)%float in
  (is_zero magA && is_finite (sqrt magB)) || (is_zero magB && is_finite (sqrt magA)) ->
  cosine a b = 0%float.
Proof.
rewrite /cosine; case: (cosine_loop a b _) => [[dot magA] magB] guard.
suff -> : (sqrt magA * sqrt magB =? 0)%float by [].
rewrite eqb_spec mul_spec !sqrt_spec.
change (Prim2SF 0%float) with (S754_zero false).
case/orP: guard => /andP [/eqb_zero [s ->] /finite_number].
- by rewrite sqrt_spec => -[[s' ->]|[s' [m [e ->]]]].
- by rewrite sqrt_spec => -[[s' ->]|[s' [m [e ->]]]].
Qed.

(** *** Symmetry, lengths and the zero vector *)

(** [x * y = y * x] on binary64. *)
Lemma SFmul_comm (x y : spec_float) : SF64mul x y = SF64mul y x.
Proof.
rewrite /SF64mul /SFmul.
case: x => [sx|sx| |sx mx ex]; case: y => [sy|sy| |sy my ey] //;
  rewrite ?(Bool.xorb_comm sx sy) //.
by rewrite (Pos.mul_comm mx my) (Z.add_comm ex ey).
Qed.

Lemma mulC (x y : float) : (x * y = y * x)%float.
Proof. by apply: Prim2SF_inj; rewrite !mul_spec SFmul_comm. Qed.

Lemma cosine_loop_sym (a b : seq float) (dot magA magB : float) :
  size a = size b ->
  cosine_loop b a (dot, magB, magA) =
  let: (d, mA, mB) := cosine_loop a b (dot, magA, magB) in (d, mB, mA).
Proof.
elim: a b dot magA magB => [|x a IH] [|y b] dot magA magB //= [sz].
by rewrite (mulC y x) IH.
Qed.

(** X8. The similarity of two vectors of the same length does not depend
    on their order. *)
Theorem cosine_symmetric (a b : seq float) :
  size a = size b -> cosine b a = cosine a b.
Proof.
move=> sz; rewrite /cosine (cosine_loop_sym _ _ _ sz).
case: (cosine_loop a b _) => [[dot magA] magB].
by rewrite (mulC (sqrt magB)).
Qed.

(** The stored vector beyond the length of the query is not read. *)
Lemma cosine_loop_cat (a b extra : seq float) (acc : float * float * float) :
  size a <= size b -> cosine_loop a (b ++ extra) acc = cosine_loop a b acc.
Proof.
elim: a b acc => [|x a IH] [|y b] [[dot magA] magB] //= le_ab.
by rewrite IH.
Qed.

Lemma nan_add_l (x : float) : (nan + x = nan)%float.
Proof. by apply: Prim2SF_inj; rewrite add_spec. Qed.

Lemma nan_add_r (x : float) : (x + nan = nan)%float.
Proof. by apply: Prim2SF_inj; rewrite add_spec; case: (Prim2SF x). Qed.

Lemma nan_mul_r (x : float) : (x * nan = nan)%float.
Proof. by apply: Prim2SF_inj; rewrite mul_spec; case: (Prim2SF x). Qed.

Lemma nan_div_l (x : float) : (nan / x = nan)%float.
Proof. by apply: Prim2SF_inj; rewrite div_spec. Qed.

(** Once the accumulators of the dot product and of the second magnitude
    are NaN they stay NaN. *)
Lemma cosine_loop_nan (a b : seq float) (magA : float) :
  exists m, cosine_loop a b (nan, magA, nan) = (nan, m, nan).
Proof.
elim: a b magA => [|x a IH] b magA /=; first by exists magA.
by rewrite !nan_add_l; apply: IH.
Qed.

Lemma cosine_loop_short (a b : seq float) (acc : float * float * float) :
  size b < size a ->
  exists m, cosine_loop a b acc = (nan, m, nan).
Proof.
elim: a b acc => [|x a IH] [|y b] [[dot magA] magB] //=.
  by move=> _; rewrite nan_mul_r !nan_add_r; apply: cosine_loop_nan.
by move=> lt_ba; apply: IH.
Qed.

(** X9. [cosine] reads as many components as its first argument has (in
    [discover_tools]: the embedding of the query). What the second vector
    has beyond that length is ignored; a second vector that is shorter
    yields NaN. *)
Theorem cosine_reads_query_length (a b extra : seq float) :
  (size a <= size b -> cosine a (b ++ extra) = cosine a b)
  /\ (size b < size a -> cosine a b = nan).
Proof.
split=> [le_ab|lt_ba]; first by rewrite /cosine cosine_loop_cat.
rewrite /cosine; have [m ->] := cosine_loop_short (0, 0, 0)%float lt_ba.
rewrite nan_mul_r nan_div_l.
by have -> : (nan =? 0)%float = false by [].
Qed.

Lemma zero_square (x : float) : is_zero x -> (x * x = 0)%float.
Proof.
move/eqb_zero=> [s eq_x]; apply: Prim2SF_inj; rewrite mul_spec eq_x /=.
by case: s {eq_x}.
Qed.

Lemma zero_add_zero : (0 + 0 = 0)%float.
Proof. by []. Qed.

Lemma cosine_loop_zero (a b : seq float) (dot magB : float) :
  all is_zero a ->
  (cosine_loop a b (dot, 0%float, magB)).1.2 = 0%float.
Proof.
elim: a b dot magB => [|x a IH] b dot magB //= /andP [zx za].
by rewrite (zero_square zx) zero_add_zero IH.
Qed.

(** X10. Where nothing overflows the guard of [cosine] does what its
    comment says: for a first vector all of whose components are zero, and
    a second one whose sum of squares (over the length of the first) has a
    finite root, the similarity is 0. *)
Theorem cosine_zero_query (a b : seq float) :
  all is_zero a ->
  is_finite (sqrt (cosine_loop a b (0, 0, 0)%float).2) ->
  cosine a b = 0%float.
Proof.
move=> za; have := cosine_guard a b; have := cosine_loop_zero b 0 0 za.
case: (cosine_loop a b _) => [[dot magA] magB] /= -> guard fin.
by apply: guard; rewrite fin.
Qed.

(** *** The vectors of the embedder *)

(** With two vectors of the same length the loop of [cosine] adds up the
    squares of each. *)
Lemma cosine_loop_sums (a b : seq float) (dot magA magB : float) :
  size a = size b ->
  let: (_, mA, mB) := cosine_loop a b (dot, magA, magB) in
  mA = foldl (fun acc x => (acc + x * x)%float) magA a /\
  mB = foldl (fun acc x => (acc + x * x)%float) magB b.
Proof.
elim: a b dot magA magB => [|x a IH] [|y b] dot magA magB //= [sz].
exact: IH.
Qed.

(** The sum of the squares of [n] numbers of the range of float32 is at
    most [3 * n * 2^256], whatever the roundings: it does not overflow. *)
Lemma sum_squares_below (v : seq float) (acc : float) (n : Z) :
  all float32_range v -> (0 <= n)%Z ->
  (n + 3 * Z.of_nat (size v) <= 2 ^ 53)%Z ->
  SFbelow n (Prim2SF acc) ->
  SFbelow (n + 3 * Z.of_nat (size v))
    (Prim2SF (foldl (fun acc x => (acc + x * x)%float) acc v)).
Proof.
elim: v acc n => [|x v IH] acc n.
  by move=> _ _ _; rewrite /= Z.add_0_r.
rewrite [all _ _]/= [size _]/= [foldl _ _ _]/= => /andP [rx rv] n0 le below.
have eq_n : (n + 3 * Z.of_nat (size v).+1 = n + 2 + 1 + 3 * Z.of_nat (size v))%Z.
  by lia.
rewrite eq_n; apply: IH => //; [by lia | by lia |].
apply: Bound.add_below => //; first by rewrite /prec; lia.
exact: Bound.square_below.
Qed.

Lemma zero_vector_magnitude (v : seq float) :
  all is_zero v -> is_zero (magnitude v).
Proof.
move=> zv; rewrite /magnitude /sum_squares.
have -> // : foldl (fun acc x => (acc + x * x)%float) 0%float v = 0%float.
elim: v zv => [|x v IH] //= /andP [zx zv].
by rewrite (zero_square zx) zero_add_zero IH.
Qed.

(** C6. Zero-vector safety of [cosine], for the vectors it is given: two
    vectors of the same length (an array has fewer than 2^32 elements),
    whose components are numbers of the range of float32, as those of a
    [Float32Array] and those stored from one are. If either vector has the
    magnitude zero, in particular if all its components are zero, the
    similarity is exactly 0, and so not NaN. *)
Theorem cosine_zero_vector_safe (a b : seq float) :
  size a = size b -> (Z.of_nat (size a) <= 4294967295)%Z ->
  all float32_range a -> all float32_range b ->
  (is_zero (magnitude a) || is_zero (magnitude b) -> cosine a b = 0%float)
  /\ (all is_zero a || all is_zero b -> cosine a b = 0%float).
Proof.
move=> sz len ra rb.
have below : forall v, (Z.of_nat (size v) <= 4294967295)%Z -> all float32_range v ->
    SFbelow (0 + 3 * Z.of_nat (size v)) (Prim2SF (sum_squares v)).
  move=> v len_v rv; apply: sum_squares_below => //.
  by have : (2 ^ 53 = 9007199254740992)%Z by []; lia.
have ba := below a len ra.
have bb := below b ltac:(rewrite -sz; exact: len) rb.
have main : is_zero (magnitude a) || is_zero (magnitude b) -> cosine a b = 0%float.
  move=> zero.
  have := cosine_guard a b; have := cosine_loop_sums 0 0 0 sz.
  case: (cosine_loop a b _) => [[dot magA] magB] [-> ->]; apply.
  rewrite -!/(sum_squares _) (Bound.sqrt_below_finite _ _ ba).
  rewrite (Bound.sqrt_below_finite _ _ bb) !andbT.
  case/orP: zero => [/(Bound.sqrt_below_zero _ _ ba) ->|] //.
  by move/(Bound.sqrt_below_zero _ _ bb) => ->; rewrite orbT.
split=> // /orP [] /zero_vector_magnitude zero; apply: main; rewrite zero //.
by rewrite orbT.
Qed.

(** ** Polling and the connection loop *)

Lemma startPolling_one_timer (p : Proxy) : one_timer p -> one_timer (startPolling p).1.
Proof.
rewrite /one_timer /=; case: (pollTimer p) => [t|] /eqP -> //=.
by rewrite eqxx.
Qed.

Lemma poll_tick_flags (w : World) (s : State) :
  let s' := (poll_tick w s).1.2 in
  routerClient s' = routerClient s /\ routerConnected s' = routerConnected s.
Proof.
rewrite /poll_tick; case: (~~ routerClient s || ~~ routerConnected s) => //=.
case: (listTools w) => [live|e] //=.
case: ifP => _ //=.
have [] := buildIndex_flags w "poll" s.
by case: (buildIndex w "poll" s) => [[[c|e] s'] evs].
Qed.

Lemma handle_flags (w : World) (s : State) (r : request) :
  let s' := (handle w s r).1.2 in
  routerClient s' = routerClient s /\ routerConnected s' = routerConnected s.
Proof.
case: r => [args|args|calls||n] //=.
- by case: (discover_tools w s args).
- by case: (execute_tool w s args).
- by case: (batch_execute w s calls).
- rewrite /refresh_tools; have [] := buildIndex_flags w "manual" s.
  by case: (buildIndex w "manual" s) => [[r s'] evs].
Qed.

Lemma connect_loop_inv (fuel : nat) (co : nat -> option exn) (ws : nat -> World)
      (attempt : nat) (p : Proxy) :
  flags_agree p && one_timer p ->
  let p' := (connectToRouterWithRetry fuel co ws attempt p).1.2 in
  flags_agree p' && one_timer p'.
Proof.
elim: fuel attempt p => [|fuel IH] attempt p //= inv.
set p1 := mkProxy _ _ _ _ _ _.
have inv1 : flags_agree p1 && one_timer p1 by [].
case: (co (transports p)) => [e|].
  by case: (connectToRouterWithRetry _ _ _ _ _) (IH attempt.+1 p1 inv1) => [[res p3] evs3].
have [] := buildIndex_flags (ws (transports p)) "startup" (connect (core p1)).
case: (buildIndex _ _ _) => [[r s'] evs] /= cl co' _.
have inv' : flags_agree (with_core p1 s') && one_timer (with_core p1 s').
  by case/andP: inv => _ tm; rewrite /flags_agree /= cl co' eqxx.
case: r => [c|e] /=.
  case/andP: inv' => fa tm; apply/andP; split=> //.
  exact: (startPolling_one_timer tm).
by case: (connectToRouterWithRetry _ _ _ _ _) (IH 1 _ inv') => [[res p3] evs3].
Qed.

(** X11. Two invariants of the proxy. Start from the state of the module
    at load time and let anything happen, one handler at a time and in any
    order, whatever the collaborators do: runs of the connection loop (cut
    anywhere), closes of the transport, ticks of the poll, notifications
    that the tools have changed, requests. In every state reached,
    [routerClient] is set exactly when [routerConnected] is, and the
    interval timers that run are the one [pollTimer] holds, or none: there
    are never two poll timers. *)
Theorem proxy_flags_and_timer (f : file) (acts : seq action) :
  let p := foldl step (initial_proxy f) acts in
  flags_agree p && one_timer p.
Proof.
rewrite /=; have: flags_agree (initial_proxy f) && one_timer (initial_proxy f) by [].
elim: acts (initial_proxy f) => [|a acts IH] p //= inv; apply: IH.
case: a => [fuel co ws|fuel co ws||w|w|w r] /=.
- exact: connect_loop_inv.
- rewrite /reconnect; have := connect_loop_inv fuel co ws 0 inv.
  by case: (connectToRouterWithRetry _ _ _ _ _) => [[[[]|] p'] evs].
- rewrite /transport_onclose; case/andP: inv => _ /eqP tm.
  rewrite /flags_agree /one_timer.
  by case: (reconnecting p) => /=; rewrite tm; case: (pollTimer p) => [t|] /=; rewrite ?eqxx.
- have [cl co] := poll_tick_flags w (core p).
  by case/andP: inv => /eqP fa tm; rewrite /flags_agree /= cl co fa eqxx.
- rewrite /on_tools_changed.
  have [] := buildIndex_flags w "notification" (core p).
  case: (buildIndex _ _ _) => [[r s'] evs] /= cl co _.
  by case/andP: inv => /eqP fa tm; rewrite /flags_agree /= cl co fa eqxx.
- have [cl co] := handle_flags w (core p) r.
  by case/andP: inv => /eqP fa tm; rewrite /flags_agree /= cl co fa eqxx.
Qed.

Lemma embed_all_works (w : World) (c : cache) (live : seq LiveTool) :
  embedder_works w live ->
  exists entries added evs, embed_all w c live = (Normal (entries, added), evs).
Proof.
elim: live => [|t live IH] /=; first by exists [::], 0, [::].
rewrite /embed; case em: (embedder w (embed_text t)) => [v|e] //=.
move/IH=> [entries [added [evs ea]]].
rewrite ea /=; case: (cache_get c (live_key t)) => [v'|]; first by eexists _, _, _.
by eexists _, _, _.
Qed.

(** A rebuild that gets past the embedder, whatever the disk does. *)
Lemma buildIndex_published (w : World) (reason : string) (s : State)
      (live : seq LiveTool) :
  routerClient s -> routerConnected s -> ~~ reindexing s ->
  listTools w = Normal live -> stale w s live -> embedder_works w live ->
  exists r entries evs,
    [/\ buildIndex w reason s =
          (r, publish s (mkToolIndex entries (now w) (fingerprint w live))
                (if disk w is WriteOk
                 then Stored (mkToolIndex entries (now w) (fingerprint w live))
                 else cache_file s), evs),
        size entries = size live
      & if disk w is WriteOk then exists c, r = Normal c else exists e, r = Throw e].
Proof.
move=> cl co idle lt st works.
rewrite (buildIndex_changed _ cl co idle lt st) /=.
have [entries [added [evs ea]]] := embed_all_works
  (seed_from_file (seed_cache [::] (tools (toolIndex s))) (cache_file s)
     (toolIndex s)) works.
have [sz _] := embed_all_size (f_equal fst ea).
rewrite ea; case: (disk w) => [|e|e]; eexists _, entries, _; split=> //.
- by eexists.
- by exists e.
- by exists e.
Qed.



Lemma launches_cat (e1 e2 : seq proxy_event) :
  launches (e1 ++ e2) = launches e1 ++ launches e2.
Proof. by rewrite /launches pmap_cat. Qed.

Lemma sleeps_cat (e1 e2 : seq proxy_event) :
  sleeps (e1 ++ e2) = sleeps e1 ++ sleeps e2.
Proof. by rewrite /sleeps pmap_cat. Qed.

Lemma launches_core (evs : seq event) : launches [seq Core ev | ev <- evs] = [::].
Proof. by elim: evs. Qed.

Lemma sleeps_core (evs : seq event) : sleeps [seq Core ev | ev <- evs] = [::].
Proof. by elim: evs. Qed.

Lemma connect_first_success_from (k fuel attempt : nat) (co : nat -> option exn)
      (ws : nat -> World) (p : Proxy) (c : Counts) (s' : State) (evsb : seq event) :
  (forall i, i < k -> co (transports p + i)) ->
  co (transports p + k) = None ->
  buildIndex (ws (transports p + k)) "startup" (connect (core p)) = (Normal c, s', evsb) ->
  k < fuel ->
  let: (res, p', evs) := connectToRouterWithRetry fuel co ws attempt p in
  [/\ res = Some tt /\ core p' = s', transports p' = transports p + k.+1,
      launches evs = iota (transports p) k.+1,
      sleeps evs = [seq retry_delay (attempt + i).+1 | i <- iota 0 k]
    & pollTimer p' = Some (next_timer p) /\ reconnecting p' = reconnecting p].
Proof.
elim: k fuel attempt p => [|k IH] [|fuel] attempt p // fails ok build lt_f /=.
- rewrite addn0 in ok build; rewrite ok build /=.
  by rewrite launches_cat sleeps_cat launches_core sleeps_core addn1.
- have := fails 0 isT; rewrite addn0; case: (co (transports p)) => [e|] // _.
  set p1 := mkProxy _ _ _ _ _ _.
  have fails1 : forall i, i < k -> co (transports p1 + i).
    by move=> i lt_i; rewrite /= addSnnS; apply: fails.
  have ok1 : co (transports p1 + k) = None by rewrite /= addSnnS.
  have build1 : buildIndex (ws (transports p1 + k)) "startup" (connect (core p1))
                = (Normal c, s', evsb) by rewrite /= addSnnS.
  have := IH fuel attempt.+1 p1 fails1 ok1 build1 lt_f.
  case: (connectToRouterWithRetry _ _ _ _ _) => [[res p3] evs3] [[-> ->] -> la sl tm].
  split=> //=; rewrite ?addSnnS ?la ?sl //.
  rewrite addn0; congr (_ :: _); rewrite -[1]addn0 iotaDl -map_comp.
  by apply: eq_map => i /=; rewrite ?addn0 ?add1n ?addSnnS.
Qed.

(** X13. The connection loop with its backoff. If [client.connect]
    fails on the next [k] transports and succeeds on the one after, and the
    rebuild at startup returns, then [connectToRouterWithRetry] returns
    (given [k + 1] turns): it has launched [k + 1] transports, one after the
    other, has slept 2 s, 4 s, 8 s, ... capped at 30 s between them (the
    [i]-th sleep lasts [min(2000 * 2^i, 30000)] ms, from [i = 0]), leaves
    the state of the rebuild, and has started the poll timer. *)
Theorem connect_first_success (k fuel : nat) (co : nat -> option exn)
        (ws : nat -> World) (p : Proxy) (c : Counts) (s' : State) (evsb : seq event) :
  (forall i, i < k -> co (transports p + i)) ->
  co (transports p + k) = None ->
  buildIndex (ws (transports p + k)) "startup" (connect (core p)) = (Normal c, s', evsb) ->
  k < fuel ->
  let: (res, p', evs) := connectToRouterWithRetry fuel co ws 0 p in
  [/\ res = Some tt /\ core p' = s', transports p' = transports p + k.+1,
      launches evs = iota (transports p) k.+1,
      sleeps evs = [seq Z.min (2000 * 2 ^ Z.of_nat i) 30000 | i <- iota 0 k]
    & pollTimer p' = Some (next_timer p) /\ reconnecting p' = reconnecting p].
Proof.
move=> fails ok build lt_f.
have := connect_first_success_from 0 fails ok build lt_f.
case: (connectToRouterWithRetry _ _ _ _ _) => [[res p'] evs] [[-> ->] -> -> -> tm].
by split=> //; apply: eq_map => i; rewrite /retry_delay add0n subn1.
Qed.



(** X15. A write of the snapshot file that fails during the rebuild at
    startup costs one more connection. With a catalog that is not empty,
    the first turn of the loop connects, rebuilds and fails at the write;
    the loop sleeps 2 s and launches a second transport, on which the
    rebuild finds the snapshot of the first turn in memory and returns; the
    file is still as it was. *)
Theorem startup_write_failure_launches_twice (fuel : nat)
        (co : nat -> option exn) (ws : nat -> World) (p : Proxy)
        (live : seq LiveTool) :
  let t := transports p in
  co t = None -> co t.+1 = None ->
  listTools (ws t) = Normal live -> listTools (ws t.+1) = Normal live ->
  JSON_stringify (ws t.+1) =1 JSON_stringify (ws t) ->
  0 < size live -> embedder_works (ws t) live -> disk_fails (ws t) ->
  ~~ reindexing (core p) -> stale (ws t) (core p) live ->
  let: (res, p', evs) := connectToRouterWithRetry fuel.+2 co ws 0 p in
  [/\ res = Some tt,
      launches evs = [:: t; t.+1],
      sleeps evs = [:: 2000%Z],
      cache_file (core p') = cache_file (core p)
    & size (tools (toolIndex (core p'))) = size live].
Proof.
move=> t ok1 ok2 lt1 lt2 same_json ne works df idle st.
rewrite [connectToRouterWithRetry _ _ _ _ _]/= -/t ok1.
set p1 := mkProxy _ _ _ _ _ _.
have [r [entries [evs' [-> sz]]]] :=
  @buildIndex_published (ws t) "startup" (connect (core p1)) live isT isT idle lt1 st works.
move: df; rewrite /disk_fails; case: (disk (ws t)) => [|e|e] // _ [e' ->] /=.
- rewrite ok2.
  set s2 := publish _ _ _.
  have fp : fingerprint (ws t.+1) live == stored_fingerprint (toolIndex s2).
    by rewrite /= (eq_fingerprint _ same_json).
  have pos : 0 < size (tools (toolIndex s2)) by rewrite /= sz.
  rewrite (@buildIndex_unchanged (ws t.+1) "startup" (connect s2) live isT isT isT lt2 fp pos) /=.
  by rewrite !launches_cat !sleeps_cat !launches_core !sleeps_core /= sz.
- rewrite ok2.
  set s2 := publish _ _ _.
  have fp : fingerprint (ws t.+1) live == stored_fingerprint (toolIndex s2).
    by rewrite /= (eq_fingerprint _ same_json).
  have pos : 0 < size (tools (toolIndex s2)) by rewrite /= sz.
  rewrite (@buildIndex_unchanged (ws t.+1) "startup" (connect s2) live isT isT isT lt2 fp pos) /=.
  by rewrite !launches_cat !sleeps_cat !launches_core !sleeps_core /= sz.
Qed.

(** ** The environment file *)

Lemma load_line_parse (env : Env) (line : string) :
  load_line env line =
  match parse_line line with
  | Some (key, val) => if env_in env key then env else env_set env key val
  | None => env
  end.
Proof.
rewrite /load_line /parse_line; case: ifP => // _.
case: (indexOf _ _) => [eq|] //.
by case: (_ != _) => //=; case: (env_in _ _).
Qed.

Lemma load_line_keeps (env : Env) (line key : string) :
  env_in env key ->
  env_in (load_line env line) key /\
  env_get (load_line env line) key = env_get env key.
Proof.
move=> has_key; rewrite load_line_parse.
case: (parse_line line) => [[k v]|] //.
case free: (env_in env k) => //; split.
  by move: has_key; rewrite /env_in /= inE => /orP [->|->]; rewrite ?orbT.
by rewrite /=; case: eqP => // eq_k; rewrite eq_k has_key in free.
Qed.

Lemma load_lines_keep (env : Env) (lines : seq string) (key : string) :
  env_in env key ->
  env_in (foldl load_line env lines) key /\
  env_get (foldl load_line env lines) key = env_get env key.
Proof.
elim: lines env => [|l lines IH] env //= has_key.
have [has_key' <-] := load_line_keeps l has_key.
exact: IH.
Qed.

(** X16. The environment takes precedence over the file. A name that is
    in [process.env] before [loadDotEnv] runs is still there afterwards,
    with the value it had, whatever the file holds. *)
Theorem loadDotEnv_keeps_environment (dotenv : option string) (env : Env)
        (key : string) :
  env_in env key ->
  env_in (loadDotEnv dotenv env) key /\
  env_get (loadDotEnv dotenv env) key = env_get env key.
Proof. by case: dotenv => [text|] //=; apply: load_lines_keep. Qed.

Lemma load_line_assigned (env : Env) (line key val : string) :
  parse_line line = Some (key, val) -> env_in (load_line env line) key.
Proof.
move=> eq_p; rewrite load_line_parse eq_p.
by case free: (env_in env key) => //; rewrite /env_in /= inE eqxx.
Qed.

Lemma load_lines_noop (env : Env) (lines : seq string) :
  (forall l key val, l \in lines -> parse_line l = Some (key, val) -> env_in env key) ->
  foldl load_line env lines = env.
Proof.
elim: lines => [|l lines IH] //= known.
have -> : load_line env l = env.
  rewrite load_line_parse; case eq_p: (parse_line l) => [[k v]|] //.
  by rewrite (known l k v) // inE eqxx.
by apply: IH => l' k v in_l; apply: known; rewrite inE in_l orbT.
Qed.

Lemma load_lines_assigned (env : Env) (lines : seq string) (l key val : string) :
  l \in lines -> parse_line l = Some (key, val) ->
  env_in (foldl load_line env lines) key.
Proof.
elim: lines env => [|l' lines IH] env //=; rewrite inE => /orP [/eqP <-|in_l] eq_p.
  by have [] := load_lines_keep lines (load_line_assigned env eq_p).
exact: IH.
Qed.

(** X17. Loading the same file a second time changes nothing: every name
    that the file could assign is in the environment after the first
    load. *)
Theorem loadDotEnv_idempotent (dotenv : option string) (env : Env) :
  loadDotEnv dotenv (loadDotEnv dotenv env) = loadDotEnv dotenv env.
Proof.
case: dotenv => [text|] //=; apply: load_lines_noop => l key val.
exact: load_lines_assigned.
Qed.

Lemma split_one_line (s : string) : ~~ occurs LFc s -> split_lines s = [:: s].
Proof.
elim: s => [|c s IH] //=; rewrite /occurs /=.
have -> : (code c == 10) = (c == LFc).
  by apply/eqP/eqP => [eq_c|->] //; apply: code_inj.
case: eqP => // _ no_lf.
have {no_lf} no_lf : ~~ occurs LFc s by move: no_lf; rewrite /occurs; case: (indexOf _ _).
rewrite (IH no_lf); case: s no_lf {IH} => [|d s] //=.
rewrite /occurs /=.
have -> : (code d == 10) = (d == LFc).
  by apply/eqP/eqP => [eq_c|->] //; apply: code_inj.
by case: eqP => //; rewrite andbF.
Qed.

Lemma size_ltrim (s : string) : String.length (ltrim s) <= String.length s.
Proof. by elim: s => [|c s IH] //=; case: (is_ws c) => //=; apply: leqW. Qed.

Lemma size_rtrim (s : string) : String.length (rtrim s) <= String.length s.
Proof.
elim: s => [|c s IH] //=.
by case: (is_ws c && _) => //=.
Qed.

Lemma trim_fix_head (c : ascii) (s : string) :
  trim (String c s) = String c s -> ~~ is_ws c.
Proof.
rewrite /trim /=; case ws: (is_ws c) => // eq_t.
have := leq_trans (size_rtrim (ltrim s)) (size_ltrim s).
by rewrite eq_t /= ltnn.
Qed.

Lemma rtrim_cat_last (s : string) (c : ascii) :
  ~~ is_ws c -> rtrim (s ++ String c EmptyString) = (s ++ String c EmptyString)%string.
Proof.
move=> nws; elim: s => [|d s IH] /=; first by rewrite (negbTE nws).
by rewrite IH; case: s {IH} => [|e s] /=; rewrite andbF.
Qed.

Lemma rtrim_fix_cat (k r : string) (c : ascii) :
  ~~ is_ws c ->
  rtrim (k ++ String c r) = (k ++ rtrim (String c r))%string.
Proof.
move=> nws; elim: k => [|d k IH] //.
rewrite [(_ ++ _)%string]/= [rtrim (String d _)]/= IH.
have -> : (k ++ rtrim (String c r))%string == EmptyString = false.
  by case: k {IH} => [|e k] //=; rewrite (negbTE nws).
by rewrite andbF.
Qed.

Lemma rtrim_cons (c : ascii) (s : string) :
  ~~ is_ws c -> rtrim (String c s) = String c (rtrim s).
Proof. by move=> nws /=; rewrite (negbTE nws). Qed.

Lemma is_quote_not_ws (q : ascii) : is_quote q -> ~~ is_ws q.
Proof.
by rewrite /is_quote /is_ws !inE => /orP [] /eqP ->.
Qed.

Lemma indexOf_cat (c : ascii) (k r : string) :
  ~~ occurs c k -> indexOf c (k ++ String c r) = Some (String.length k).
Proof.
rewrite /occurs; elim: k => [|d k IH] /=; first by rewrite eqxx.
by case: eqP => // _; case: (indexOf c k) IH => // /(_ isT) ->.
Qed.

Lemma slice_to_cat (k r : string) : slice_to (String.length k) (k ++ r) = k.
Proof. by elim: k => [|d k IH] /=; [case: r | rewrite IH]. Qed.

Lemma slice_from_cat (k r : string) (c : ascii) :
  slice_from (String.length k).+1 (k ++ String c r) = r.
Proof. by elim: k => [|d k IH] //=. Qed.

Lemma strip_last_quote_cat (v : string) (q : ascii) :
  is_quote q -> strip_last_quote (v ++ String q EmptyString) = v.
Proof.
move=> isq; elim: v => [|c v IH] /=; first by rewrite isq.
by rewrite IH; case: v {IH}.
Qed.

Lemma parse_quoted (k v : string) (q1 q2 : ascii) :
  is_quote q1 -> is_quote q2 -> clean_key k ->
  parse_line (k ++ String "="%char (String q1 (v ++ String q2 EmptyString)))
  = Some (k, v).
Proof.
move=> isq1 isq2 /and4P [ne /eqP fixk noeq nohash].
set rest := String q1 _.
have rtrim_rest : rtrim rest = rest.
  exact: (rtrim_cat_last (String q1 v) (is_quote_not_ws isq2)).
have trim_rest : trim rest = rest.
  by rewrite /trim {1}/rest [ltrim _]/= (negbTE (is_quote_not_ws isq1)).
case: k ne fixk noeq nohash => [|c k] // _ fixk noeq nohash.
have nws := trim_fix_head fixk.
have trim_line : trim (String c k ++ String "="%char rest) = (String c k ++ String "="%char rest)%string.
  rewrite /trim [ltrim _]/= (negbTE nws).
  rewrite (rtrim_fix_cat (String c k) rest (c := "="%char) isT).
  by rewrite (rtrim_cons (c := "="%char) rest isT) rtrim_rest.
rewrite /parse_line trim_line.
have -> : (String c k ++ String "="%char rest)%string == EmptyString = false by [].
have -> : starts_with_hash (String c k ++ String "="%char rest) = false.
  by move: nohash => /=; case: (_ == _).
rewrite indexOf_cat // slice_to_cat fixk slice_from_cat trim_rest.
by rewrite /unquote /rest isq1 strip_last_quote_cat.
Qed.

Lemma occurs_cat (c : ascii) (a b : string) :
  occurs c (a ++ b)%string = occurs c a || occurs c b.
Proof.
rewrite /occurs; elim: a => [|d a IH] //=.
by case: eqP => // _; move: IH; case: (indexOf c (a ++ b)%string); case: (indexOf c a).
Qed.

Lemma occurs_cons (c d : ascii) (s : string) :
  occurs c (String d s) = (d == c) || occurs c s.
Proof. by rewrite /occurs /=; case: eqP => // _; case: (indexOf c s). Qed.

(** X18. A value between quotes is taken as it is. For a file of the one
    line [KEY="VALUE"] (with single or double quotes, the two need not be
    the same), where KEY is a clean key that the environment does not have
    and neither KEY nor VALUE holds a line feed, [loadDotEnv] sets KEY to
    VALUE, white space, [=], [#] and quotes inside it included. *)
Theorem quoted_value_is_verbatim (k v : string) (q1 q2 : ascii) (env : Env) :
  is_quote q1 -> is_quote q2 -> clean_key k -> ~~ env_in env k ->
  ~~ occurs LFc k -> ~~ occurs LFc v ->
  env_get
    (loadDotEnv
       (Some (k ++ String "="%char (String q1 (v ++ String q2 EmptyString)))%string) env)
    k = Some v.
Proof.
move=> isq1 isq2 ck free nlk nlv.
have nq : forall q, is_quote q -> (q == LFc) = false.
  by move=> q; rewrite /is_quote !inE => /orP [] /eqP eq_q; apply/eqP => eq_lf;
     rewrite eq_lf in eq_q.
rewrite /loadDotEnv split_one_line.
  rewrite occurs_cat !occurs_cons occurs_cat occurs_cons.
  by rewrite (negbTE nlk) (negbTE nlv) (nq _ isq1) (nq _ isq2).
rewrite [foldl _ _ _]/= load_line_parse (parse_quoted v isq1 isq2 ck) (negbTE free).
by rewrite /= eqxx.
Qed.

Lemma split_lines_nonempty (s : string) : exists l ls, split_lines s = l :: ls.
Proof.
elim: s => [|c s [l [ls IH]]] /=; first by exists EmptyString, [::].
case: (code c == 10); first by eexists _, _.
case: s IH => [|d s] IH; first by rewrite IH; eexists _, _.
case: (_ && _); first by eexists _, _.
by rewrite IH; eexists _, _.
Qed.

Lemma cons_head_cat (c : ascii) (s : string) (ls : seq string) :
  cons_head c (split_lines s ++ ls) = cons_head c (split_lines s) ++ ls.
Proof. by have [l [ls' ->]] := split_lines_nonempty s. Qed.

Lemma split_lines_cat (a b : string) :
  ~~ ends_with_cr a ->
  split_lines (a ++ String LFc b)%string = split_lines a ++ split_lines b.
Proof.
move: a; apply: (well_founded_induction
  (Wf_nat.well_founded_ltof _ String.length)) => a IH.
case: a IH => [|c a] IH //= ncr.
have ncr' : ~~ ends_with_cr a by case: a ncr {IH}.
have lt_a : ltof string String.length a (String c a) by apply/ltP.
case c10: (code c == 10); first by rewrite (IH a lt_a ncr').
case: a IH ncr ncr' lt_a => [|d a] IH ncr ncr' lt_a.
  by rewrite /= (negbTE ncr).
rewrite [(_ ++ _)%string]/=.
case: ifP => _; last by rewrite -cons_head_cat -(IH _ lt_a ncr').
have ncr'' : ~~ ends_with_cr a by case: a ncr' {IH ncr lt_a}.
have lt_a' : ltof string String.length a (String c (String d a)).
  by rewrite /ltof /=; apply/ltP.
by rewrite (IH a lt_a' ncr'').
Qed.

(** X19. The first assignment of a name wins. Loading a file is loading
    its first lines and then the rest (cut at a line feed that no carriage
    return precedes), and a name that the first lines have left in the
    environment keeps its value through the rest. *)
Theorem loadDotEnv_first_assignment_wins (a b : string) (env : Env) (key : string) :
  ~~ ends_with_cr a ->
  loadDotEnv (Some (a ++ String LFc b)%string) env =
    loadDotEnv (Some b) (loadDotEnv (Some a) env)
  /\ (env_in (loadDotEnv (Some a) env) key ->
      env_get (loadDotEnv (Some (a ++ String LFc b)%string) env) key =
      env_get (loadDotEnv (Some a) env) key).
Proof.
move=> ncr.
have eq_l : loadDotEnv (Some (a ++ String LFc b)%string) env =
            loadDotEnv (Some b) (loadDotEnv (Some a) env).
  by rewrite /loadDotEnv split_lines_cat // foldl_cat.
split=> // has_key; rewrite eq_l.
by have [] := load_lines_keep (split_lines b) has_key.
Qed.

(** ** The icons of the tray *)

(** The signed 32-bit operators of the loop of [crc32] compute, on the
    unsigned 32 bits of [c], a shift to the right and an exclusive or with
    the polynomial; that step can be undone. *)
Module CRC.
Local Unset Implicit Arguments.
Local Open Scope Z_scope.

Lemma ToUint32_range (z : Z) : 0 <= ToUint32 z < 2 ^ 32.
Proof. by apply: Z.mod_pos_bound. Qed.

Lemma ToUint32_small (z : Z) : 0 <= z < 2 ^ 32 -> ToUint32 z = z.
Proof. by move=> H; apply: Z.mod_small. Qed.

Lemma ToUint32_ToInt32 (z : Z) : ToUint32 (ToInt32 z) = ToUint32 z.
Proof.
rewrite /ToInt32 /ToUint32; case: (z mod 2 ^ 32 <? 2 ^ 31).
  by apply: Z.mod_mod.
have -> : z mod 2 ^ 32 - 2 ^ 32 = z mod 2 ^ 32 + (-1) * 2 ^ 32 by lia.
by rewrite Z.mod_add // Z.mod_mod.
Qed.

Lemma ToUint32_lxor (x y : Z) :
  ToUint32 (Z.lxor x y) = Z.lxor (ToUint32 x) (ToUint32 y).
Proof.
rewrite /ToUint32; apply: Z.bits_inj' => i Hi.
rewrite Z.lxor_spec !Z.testbit_mod_pow2 // Z.lxor_spec.
by case: (i <? 32).
Qed.

Lemma ToUint32_js_xor (a b : Z) :
  ToUint32 (js_xor a b) = Z.lxor (ToUint32 a) (ToUint32 b).
Proof. by rewrite /js_xor ToUint32_lxor !ToUint32_ToInt32. Qed.

Lemma testbit0_ToInt32 (c : Z) :
  Z.testbit (ToInt32 c) 0 = Z.testbit (ToUint32 c) 0.
Proof.
by rewrite -(ToUint32_ToInt32 c) {1}/ToUint32 Z.mod_pow2_bits_low.
Qed.

Lemma js_and_1 (c : Z) : (js_and c 1 =? 0) = negb (Z.testbit (ToUint32 c) 0).
Proof.
rewrite /js_and -testbit0_ToInt32 Z.bit0_eqb.
change (ToInt32 1) with (Z.ones 1).
rewrite Z.land_ones //; change (2 ^ 1) with 2.
have B := Z.mod_pos_bound (ToInt32 c) 2 ltac:(lia).
case E0: (ToInt32 c mod 2 =? 0); case E1: (ToInt32 c mod 2 =? 1) => //; lia.
Qed.

Lemma ToUint32_crc_bit (c : Z) : ToUint32 (crc_bit c) = ubit (ToUint32 c).
Proof.
rewrite /crc_bit /ubit /js_ushr ToUint32_js_xor js_and_1.
have R := ToUint32_range c.
congr (Z.lxor _ _); last by case: (Z.testbit (ToUint32 c) 0).
apply: ToUint32_small; rewrite Z.shiftr_div_pow2 //; change (2 ^ 1) with 2.
by split; [apply: Z.div_pos; lia | apply: Z.div_lt_upper_bound; lia].
Qed.

Lemma high_bit (u : Z) : 0 <= u < 2 ^ 32 -> Z.testbit u 32 = false.
Proof.
by move=> R; rewrite -(Z.mod_small u (2 ^ 32)) // Z.mod_pow2_bits_high.
Qed.

Lemma lxor_cancel_r (a b x : Z) : Z.lxor a x = Z.lxor b x -> a = b.
Proof.
move=> H; apply: Z.lxor_eq.
have <- : Z.lxor (Z.lxor a x) (Z.lxor b x) = Z.lxor a b.
  rewrite Z.lxor_assoc (Z.lxor_comm b x) -(Z.lxor_assoc x x b).
  by rewrite Z.lxor_nilpotent Z.lxor_0_l.
by rewrite H Z.lxor_nilpotent.
Qed.

Lemma lxor_cancel_l (a x y : Z) : Z.lxor a x = Z.lxor a y -> x = y.
Proof.
by rewrite (Z.lxor_comm a x) (Z.lxor_comm a y); apply: lxor_cancel_r.
Qed.

Lemma ubit_bit31 (u : Z) :
  0 <= u < 2 ^ 32 -> Z.testbit (ubit u) 31 = Z.testbit u 0.
Proof.
move=> R; rewrite /ubit Z.lxor_spec Z.shiftr_spec //.
change (31 + 1) with 32; rewrite (high_bit u R).
by case: (Z.testbit u 0).
Qed.

Lemma ubit_inj (u u' : Z) :
  0 <= u < 2 ^ 32 -> 0 <= u' < 2 ^ 32 -> ubit u = ubit u' -> u = u'.
Proof.
move=> R R' H.
have B : Z.testbit u 0 = Z.testbit u' 0.
  by rewrite -(ubit_bit31 u R) -(ubit_bit31 u' R') H.
move: H; rewrite /ubit B => /lxor_cancel_r.
rewrite !Z.shiftr_div_pow2 //; change (2 ^ 1) with 2 => H.
move: B; rewrite !Z.bit0_eqb => B.
have M := Z.mod_pos_bound u 2 ltac:(lia).
have M' := Z.mod_pos_bound u' 2 ltac:(lia).
rewrite (Z.div_mod u 2) // (Z.div_mod u' 2) // H; congr (_ + _).
by move: B; case E: (u mod 2 =? 1); case E': (u' mod 2 =? 1) => // _; lia.
Qed.

Lemma crc_bit_inj (c c' : Z) :
  ToUint32 (crc_bit c) = ToUint32 (crc_bit c') -> ToUint32 c = ToUint32 c'.
Proof.
by rewrite !ToUint32_crc_bit; apply: ubit_inj; apply: ToUint32_range.
Qed.

Lemma crc_bits_inj (n : nat) (c c' : Z) :
  ToUint32 (iter n crc_bit c) = ToUint32 (iter n crc_bit c') ->
  ToUint32 c = ToUint32 c'.
Proof. by elim: n => [|n IH] //= /crc_bit_inj. Qed.

Lemma Z_of_byte_range (b : byte) : 0 <= Z_of_byte b < 256.
Proof. rewrite /Z_of_byte; have := Byte.to_N_bounded b; lia. Qed.

Lemma Z_of_byte_inj (b b' : byte) : Z_of_byte b = Z_of_byte b' -> b = b'.
Proof.
rewrite /Z_of_byte => /N2Z.inj H.
have : Byte.of_N (Byte.to_N b) = Byte.of_N (Byte.to_N b') by rewrite H.
by rewrite !Byte.of_to_N => -[].
Qed.

Lemma crc_byte_inj_state (c c' : Z) (b : byte) :
  ToUint32 (crc_byte c b) = ToUint32 (crc_byte c' b) -> ToUint32 c = ToUint32 c'.
Proof.
by rewrite /crc_byte => /crc_bits_inj; rewrite !ToUint32_js_xor => /lxor_cancel_r.
Qed.

Lemma crc_byte_inj_byte (c : Z) (b b' : byte) :
  ToUint32 (crc_byte c b) = ToUint32 (crc_byte c b') -> b = b'.
Proof.
rewrite /crc_byte => /crc_bits_inj; rewrite !ToUint32_js_xor => /lxor_cancel_l.
have R := Z_of_byte_range b; have R' := Z_of_byte_range b'.
rewrite !ToUint32_small; try lia.
exact: Z_of_byte_inj.
Qed.

Lemma crc_fold_inj (buf : Buffer) (c c' : Z) :
  ToUint32 (foldl crc_byte c buf) = ToUint32 (foldl crc_byte c' buf) ->
  ToUint32 c = ToUint32 c'.
Proof.
elim: buf c c' => [|b buf IH] c c' //= /IH.
exact: crc_byte_inj_state.
Qed.

Lemma crc_final_inj (c c' : Z) :
  js_ushr (js_xor c 0xFFFFFFFF) 0 = js_ushr (js_xor c' 0xFFFFFFFF) 0 ->
  ToUint32 c = ToUint32 c'.
Proof.
by rewrite /js_ushr !Z.shiftr_0_r !ToUint32_js_xor => /lxor_cancel_r.
Qed.

End CRC.

(** X20. [crc32] tells apart any two buffers that differ in one byte: if
    two buffers are the same but for the byte at one position, their
    checksums differ. *)
Theorem crc32_detects_one_byte (before after : Buffer) (b b' : byte) :
  b <> b' -> crc32 (before ++ b :: after) <> crc32 (before ++ b' :: after).
Proof.
move=> ne eq_crc; apply: ne; move: eq_crc.
rewrite /crc32 !foldl_cat /= => /CRC.crc_final_inj /CRC.crc_fold_inj.
exact: CRC.crc_byte_inj_byte.
Qed.

Lemma Z_of_byte_of_Z (z : Z) : Z_of_byte (byte_of_Z z) = (z mod 256)%Z.
Proof.
rewrite /Z_of_byte /byte_of_Z.
have R : (0 <= z mod 256 < 256)%Z by apply: Z.mod_pos_bound.
case E: (Byte.of_N _) => [b|].
  by rewrite (@Byte.to_of_N _ _ E) Z2N.id //; case: R.
by move/Byte.of_N_None_iff: E; lia.
Qed.

Lemma be32_writeUInt32BE (v : Z) (l : Buffer) :
  writeUInt32BE v = Normal l -> be32 l = v /\ size l = 4.
Proof.
rewrite /writeUInt32BE; case: ifP => // /andP [/Z.leb_le lo /Z.leb_le hi] [<-].
split=> //; rewrite /be32 /= !Z_of_byte_of_Z.
by move: lo hi; clear; move=> lo hi; Z.to_euclidean_division_equations; lia.
Qed.

Lemma le32_writeUInt32LE (v : Z) (l : Buffer) :
  writeUInt32LE v = Normal l -> le32 l = v /\ size l = 4.
Proof.
rewrite /writeUInt32LE; case: ifP => // /andP [/Z.leb_le lo /Z.leb_le hi] [<-].
split=> //; rewrite /le32 /be32 /= !Z_of_byte_of_Z.
by move: lo hi; clear; move=> lo hi; Z.to_euclidean_division_equations; lia.
Qed.

Lemma inside_in_disc (x y : nat) : x < 16 -> y < 16 -> inside x y = in_disc x y.
Proof.
have all_ok :
  all (fun y => all (fun x => inside x y == in_disc x y) (iota 0 16)) (iota 0 16).
  by vm_compute.
move=> lt_x lt_y.
have in_y : y \in iota 0 16 by rewrite mem_iota.
have in_x : x \in iota 0 16 by rewrite mem_iota.
by have /allP /(_ x in_x) /eqP := allP all_ok y in_y.
Qed.

(** X21. The pixels of [makePng]. The array [raw] has 16 rows of one
    filter byte 0 and 16 pixels of four numbers, 1040 numbers in all, and
    the floating-point test of the loop is exact: the pixel [(x, y)] is
    opaque (255) exactly when [(2x - 15)^2 + (2y - 15)^2 <= 144], that is
    within 6 of the centre (7.5, 7.5), and transparent (0) otherwise. *)
Theorem raw_pixels_disc (r g b : Z) :
  raw_pixels r g b =
    flatten [seq 0%Z :: flatten [seq [:: r; g; b; if in_disc x y then 255%Z else 0%Z]
                                | x <- iota 0 16]
            | y <- iota 0 16]
  /\ size (raw_pixels r g b) = 16 * (1 + 4 * 16).
Proof.
by split; vm_compute.
Qed.

Lemma pngChunk_layout (type : string) (data : Buffer) :
  (Z.of_nat (size data) <= 0xFFFFFFFF)%Z ->
  exists len crc : Buffer,
    [/\ pngChunk type data = Normal (len ++ Buffer_from_string type ++ data ++ crc),
        size len = 4, be32 len = Z.of_nat (size data), size crc = 4
      & be32 crc = crc32 (Buffer_from_string type ++ data)].
Proof.
move=> fits; rewrite /pngChunk.
case El: (writeUInt32BE (Z.of_nat _)) => [len|e]; last first.
  by move: El; rewrite /writeUInt32BE; case: ifP => // /negP []; apply/andP; split;
     apply/Z.leb_le; lia.
case Ec: (writeUInt32BE (crc32 _)) => [crc|e]; last first.
  move: Ec; rewrite /writeUInt32BE /crc32 /js_ushr Z.shiftr_0_r.
  have R := CRC.ToUint32_range
    (js_xor (foldl crc_byte 0xFFFFFFFF%Z (Buffer_from_string type ++ data)) 0xFFFFFFFF%Z).
  by case: ifP => // /negP [] ; apply/andP; split; apply/Z.leb_le; lia.
have [bl sl] := be32_writeUInt32BE El.
have [bc sc] := be32_writeUInt32BE Ec.
by exists len, crc.
Qed.

(** X22. The file that [makePng] returns, when the compressed data is
    shorter than 4 GiB: the signature of PNG, the chunk IHDR of an image of
    16 by 16 pixels with 8 bits per channel and the colour type RGBA (as
    many pixels as [raw] has), one chunk IDAT made of the length of the
    compressed data on four bytes, the type, the data that [deflateSync]
    returned for the bytes of [raw], and the CRC-32 of type and data on
    four bytes, then the chunk IEND. *)
Theorem makePng_layout (deflateSync : Buffer -> Buffer) (r g b : Z) :
  let data := deflateSync [seq byte_of_Z z | z <- raw_pixels r g b] in
  (Z.of_nat (size data) <= 0xFFFFFFFF)%Z ->
  exists len crc : Buffer,
    [/\ makePng deflateSync r g b =
          Normal (PNG_signature ++ IHDR_16x16_RGBA
                    ++ (len ++ Buffer_from_string "IDAT" ++ data ++ crc) ++ IEND),
        size len = 4, be32 len = Z.of_nat (size data), size crc = 4
      & be32 crc = crc32 (Buffer_from_string "IDAT" ++ data)].
Proof.
move=> data fits.
have [len [crc [eq_c sl bl sc bc]]] := pngChunk_layout "IDAT" fits.
exists len, crc; split; try assumption.
have eq_w : writeUInt32BE 16 = Normal [seq byte_of_Z z | z <- [:: 0; 0; 0; 16]%Z].
  by vm_compute.
have eq_h : pngChunk "IHDR"
    ([seq byte_of_Z z | z <- [:: 0; 0; 0; 16]%Z] ++
     [seq byte_of_Z z | z <- [:: 0; 0; 0; 16]%Z] ++
     [seq byte_of_Z z | z <- [:: 8; 6; 0; 0; 0]%Z])
  = Normal IHDR_16x16_RGBA by vm_compute.
have eq_e : pngChunk "IEND" [::] = Normal IEND by vm_compute.
by rewrite /makePng eq_w /bind eq_h -/data eq_c eq_e.
Qed.

(** X23. The directory of [makeIco]. The file is 22 bytes followed by the
    PNG of [makePng]: its offset field (bytes 18 to 21, little endian)
    holds 22, where the image starts, its size field (bytes 14 to 17) the
    length of the PNG, and the bytes before them announce one image of 16
    by 16 pixels and 32 bits per pixel. *)
Theorem makeIco_directory (deflateSync : Buffer -> Buffer) (r g b : Z) (png : Buffer) :
  makePng deflateSync r g b = Normal png ->
  (Z.of_nat (size png) <= 0xFFFFFFFF)%Z ->
  exists ico,
    [/\ makeIco deflateSync r g b = Normal ico,
        size ico = 22 + size png /\ drop 22 ico = png,
        le32 (field 18 4 ico) = 22%Z,
        le32 (field 14 4 ico) = Z.of_nat (size png)
      & [seq Z_of_byte x | x <- take 14 ico] =
          [:: 0; 0; 1; 0; 1; 0; 16; 16; 0; 0; 0; 0; 32; 0]%Z].
Proof.
move=> eq_png fits; rewrite /makeIco eq_png {eq_png}.
case El: (writeUInt32LE (Z.of_nat (size png))) => [len|e]; last first.
  by move: El; rewrite /writeUInt32LE; case: ifP => // /negP []; apply/andP; split;
     apply/Z.leb_le; lia.
have [bl sl] := le32_writeUInt32LE El.
have eq0 : writeUInt16LE 0 = Normal [seq byte_of_Z z | z <- [:: 0; 0]%Z] by vm_compute.
have eq1 : writeUInt16LE 1 = Normal [seq byte_of_Z z | z <- [:: 1; 0]%Z] by vm_compute.
have eq32 : writeUInt16LE 32 = Normal [seq byte_of_Z z | z <- [:: 32; 0]%Z] by vm_compute.
have eq22 : writeUInt32LE 22 = Normal [seq byte_of_Z z | z <- [:: 22; 0; 0; 0]%Z].
  by vm_compute.
rewrite /bind eq0 eq1 eq32 El eq22.
case: len sl bl {El} => [|l0 [|l1 [|l2 [|l3 [|l4 len]]]]] // _ bl.
eexists; split; first by [].
- by split; [rewrite !size_cat /= !addSn | rewrite /= drop0].
- by rewrite /field /= take0; vm_compute.
- by rewrite -bl.
- by vm_compute.
Qed.

(** ** The stdio bridge *)

Lemma bridge_connect_loop_success (n attempt k : nat) (url : string)
      (up : nat -> option exn) (s : Bridge.State) :
  (forall i, i < k -> up (Bridge.connections s + i)) ->
  up (Bridge.connections s + k) = None -> k < n ->
  let: (r, s', evs) := Bridge.connect_loop n attempt url up s in
  [/\ r = Normal (Bridge.connections s + k),
      s' = Bridge.mkState (Bridge.httpClient s) (Bridge.connections s + k).+1
             (Bridge.requests s),
      Bridge.sleeps evs =
        [seq Bridge.retry_delay (attempt + i) | i <- iota 0 k],
      Bridge.connects evs = iota (Bridge.connections s) k.+1
    & Bridge.calls evs = [::]].
Proof.
elim: k n attempt s => [|k IH] [|n] attempt s // fails ok lt_n /=.
  by rewrite addn0 in ok *; rewrite ok.
have := fails 0 isT; rewrite addn0; case: (up (Bridge.connections s)) => [e|] // _.
set s1 := Bridge.mkState _ _ _.
have fails1 : forall i, i < k -> up (Bridge.connections s1 + i).
  by move=> i lt_i; rewrite /= addSnnS; apply: fails.
have ok1 : up (Bridge.connections s1 + k) = None by rewrite /= addSnnS.
have := IH n attempt.+1 s1 fails1 ok1 lt_n.
case: (Bridge.connect_loop _ _ _ _ _) => [[r s2] evs] /= [-> -> sl cn cl].
rewrite /= addSnnS addn0 sl cn cl; split=> //.
congr (_ :: _); rewrite -[1]addn0 iotaDl -map_comp.
by apply: eq_map => i /=; rewrite ?addn0 ?add1n ?addSnnS.
Qed.

Lemma bridge_connect_loop_failure (n attempt : nat) (url : string)
      (up : nat -> option exn) (s : Bridge.State) :
  (forall i, i < n -> up (Bridge.connections s + i)) ->
  let: (r, s', evs) := Bridge.connect_loop n attempt url up s in
  [/\ r = Throw (Bridge.could_not_connect url),
      s' = Bridge.mkState (Bridge.httpClient s) (Bridge.connections s + n)
             (Bridge.requests s),
      Bridge.sleeps evs = [seq Bridge.retry_delay (attempt + i) | i <- iota 0 n],
      Bridge.connects evs = iota (Bridge.connections s) n
    & Bridge.calls evs = [::]].
Proof.
elim: n attempt s => [|n IH] attempt s fails /=.
  by rewrite addn0; case: s {fails}.
have := fails 0 isT; rewrite addn0; case: (up (Bridge.connections s)) => [e|] // _.
set s1 := Bridge.mkState _ _ _.
have fails1 : forall i, i < n -> up (Bridge.connections s1 + i).
  by move=> i lt_i; rewrite /= addSnnS; apply: fails.
have := IH attempt.+1 s1 fails1.
case: (Bridge.connect_loop _ _ _ _ _) => [[r s2] evs] /= [-> -> sl cn cl].
rewrite /= addSnnS addn0 sl cn cl; split=> //.
congr (_ :: _); rewrite -[1]addn0 iotaDl -map_comp.
by apply: eq_map => i /=; rewrite ?addn0 ?add1n ?addSnnS.
Qed.

(** X24. [connectWithRetry] of the bridge makes at most 20 connections.
    If the first [k] of them fail and the next one succeeds ([k < 20]) it
    returns the client of that connection after [k + 1] attempts; if all 20
    fail it throws the error that names the URL. In both cases it has slept
    after every failure, the last one included, [min(1000 * 2^i, 30000)] ms
    after the [i]-th (from [i = 0]), and [httpClient] is not touched. *)
Theorem bridge_connectWithRetry_outcome (k : nat) (url : string)
        (up : nat -> option exn) (s : Bridge.State) :
  (forall i, i < minn k 20 -> up (Bridge.connections s + i)) ->
  (k < 20 -> up (Bridge.connections s + k) = None) ->
  let: (r, s', evs) := Bridge.connectWithRetry url up s in
  [/\ r = if k < 20 then Normal (Bridge.connections s + k)
          else Throw (Bridge.could_not_connect url),
      Bridge.connections s' = Bridge.connections s + (if k < 20 then k.+1 else 20),
      Bridge.httpClient s' = Bridge.httpClient s,
      Bridge.connects evs =
        iota (Bridge.connections s) (if k < 20 then k.+1 else 20)
    & Bridge.sleeps evs =
        [seq Z.min (1000 * 2 ^ Z.of_nat i) 30000 | i <- iota 0 (minn k 20)]].
Proof.
rewrite /Bridge.connectWithRetry /Bridge.MAX_CONNECT_ATTEMPTS.
case: ltnP => [lt_k|le_k] fails ok.
  have := bridge_connect_loop_success 0 url fails (ok isT) lt_k.
  case: (Bridge.connect_loop _ _ _ _ _) => [[r s'] evs] [-> -> sl cn _].
  by rewrite addnS.
have := bridge_connect_loop_failure 0 url fails.
by case: (Bridge.connect_loop _ _ _ _ _) => [[r s'] evs] [-> -> sl cn _].
Qed.

Lemma bridge_calls_cat (e1 e2 : seq Bridge.event) :
  Bridge.calls (e1 ++ e2) = Bridge.calls e1 ++ Bridge.calls e2.
Proof. by rewrite /Bridge.calls pmap_cat. Qed.

Lemma bridge_connects_cat (e1 e2 : seq Bridge.event) :
  Bridge.connects (e1 ++ e2) = Bridge.connects e1 ++ Bridge.connects e2.
Proof. by rewrite /Bridge.connects pmap_cat. Qed.

Lemma bridge_connect_loop_calls (n attempt : nat) (url : string)
      (up : nat -> option exn) (s : Bridge.State) :
  Bridge.calls (Bridge.connect_loop n attempt url up s).2 = [::].
Proof.
elim: n attempt s => [|n IH] attempt s //=.
case: (up _) => [e|] //; set s1 := Bridge.mkState _ _ _.
by have := IH attempt.+1 s1; case: (Bridge.connect_loop _ _ _ _ _) => [[r s2] evs].
Qed.

Lemma connectWithRetry_calls (url : string) (up : nat -> option exn)
      (s : Bridge.State) :
  Bridge.calls (Bridge.connectWithRetry url up s).2 = [::].
Proof. exact: bridge_connect_loop_calls. Qed.

Lemma connectWithRetry_now (url : string) (up : nat -> option exn) (s : Bridge.State) :
  up (Bridge.connections s) = None ->
  Bridge.connectWithRetry url up s =
    (Normal (Bridge.connections s),
     Bridge.mkState (Bridge.httpClient s) (Bridge.connections s).+1 (Bridge.requests s),
     [:: Bridge.Connect (Bridge.connections s); Bridge.LogConnected]).
Proof.
move=> ok; rewrite /Bridge.connectWithRetry /Bridge.MAX_CONNECT_ATTEMPTS.
have step : forall n, Bridge.connect_loop n.+1 0 url up s =
    (Normal (Bridge.connections s),
     Bridge.mkState (Bridge.httpClient s) (Bridge.connections s).+1 (Bridge.requests s),
     [:: Bridge.Connect (Bridge.connections s); Bridge.LogConnected]).
  by move=> n /=; rewrite ok.
exact: step.
Qed.

Lemma connectWithRetry_down (url : string) (up : nat -> option exn)
      (s : Bridge.State) :
  (forall i, i < 20 -> up (Bridge.connections s + i)) ->
  let: (r, s', evs) := Bridge.connectWithRetry url up s in
  [/\ r = Throw (Bridge.could_not_connect url),
      s' = Bridge.mkState (Bridge.httpClient s) (Bridge.connections s + 20)
             (Bridge.requests s),
      Bridge.sleeps evs = [seq Bridge.retry_delay i | i <- iota 0 20],
      Bridge.connects evs = iota (Bridge.connections s) 20
    & Bridge.calls evs = [::]].
Proof. exact: (@bridge_connect_loop_failure 20 0). Qed.

Lemma bridge_request_calls (T : Type) (fn : nat -> nat -> completion T)
      (url : string) (up : nat -> option exn) (s : Bridge.State) :
  size (Bridge.calls (Bridge.request fn url up s).2) <= 1.
Proof.
rewrite /Bridge.request /Bridge.getClient.
case: (Bridge.httpClient s) => [c|] //=.
have := connectWithRetry_calls url up s.
case: (Bridge.connectWithRetry _ _ _) => [[[c|e] s2] evs] /= cl; last by rewrite cl.
by rewrite bridge_calls_cat cl.
Qed.

Lemma request_known (T : Type) (fn : nat -> nat -> completion T)
      (url : string) (up : nat -> option exn) (s : Bridge.State) (c : nat) :
  Bridge.httpClient s = Some c ->
  Bridge.request fn url up s =
    (fn c (Bridge.requests s),
     Bridge.mkState (Some c) (Bridge.connections s) (Bridge.requests s).+1,
     [:: Bridge.Call c]).
Proof. by move=> eq_c; rewrite /Bridge.request /Bridge.getClient eq_c /= eq_c. Qed.

Lemma request_reconnect (T : Type) (fn : nat -> nat -> completion T)
      (url : string) (up : nat -> option exn) (s : Bridge.State) :
  Bridge.httpClient s = None -> up (Bridge.connections s) = None ->
  Bridge.request fn url up s =
    (fn (Bridge.connections s) (Bridge.requests s),
     Bridge.mkState (Some (Bridge.connections s)) (Bridge.connections s).+1
       (Bridge.requests s).+1,
     [:: Bridge.Connect (Bridge.connections s); Bridge.LogConnected;
         Bridge.Call (Bridge.connections s)]).
Proof.
move=> none ok; rewrite /Bridge.request /Bridge.getClient none.
by rewrite (connectWithRetry_now url ok).
Qed.

(** X25. [callWithReconnect] runs the request at most twice. With a
    client at hand and a request that succeeds, the request runs once, on
    that client, and nothing else happens. With a client at hand and a
    request that throws, and a proxy that accepts the next connection, the
    request runs a second time, on the client of that new connection and
    not on the one that failed; its outcome is the outcome of the call,
    and the new client is kept for the requests to come. *)
Theorem callWithReconnect_retries_once (T : Type) (fn : nat -> nat -> completion T)
        (url : string) (up : nat -> option exn) (s : Bridge.State) :
  let: (r, s', evs) := Bridge.callWithReconnect fn url up s in
  [/\ size (Bridge.calls evs) <= 2,
      forall c v, Bridge.httpClient s = Some c ->
        fn c (Bridge.requests s) = Normal v ->
        [/\ r = Normal v, evs = [:: Bridge.Call c] & Bridge.httpClient s' = Some c]
    & forall c e, Bridge.httpClient s = Some c -> c < Bridge.connections s ->
        fn c (Bridge.requests s) = Throw e ->
        up (Bridge.connections s) = None ->
        [/\ r = fn (Bridge.connections s) (Bridge.requests s).+1,
            Bridge.calls evs = [:: c; Bridge.connections s],
            c != Bridge.connections s
          & Bridge.httpClient s' = Some (Bridge.connections s)]].
Proof.
rewrite /Bridge.callWithReconnect.
have := bridge_request_calls fn url up s.
have known := @request_known T fn url up s.
case: (Bridge.request fn url up s) known => [[[v|e] s1] evs1] known /= le1.
  split; first by apply: leq_trans le1 _.
    move=> c v' eq_c eq_v; have [eq_r eq_s eq_evs] := known c eq_c.
    by rewrite eq_r eq_v eq_s eq_evs.
  move=> c e' eq_c _ eq_e _; have [eq_r _ _] := known c eq_c.
  by rewrite eq_e in eq_r.
set s1' := Bridge.mkState _ _ _.
have := bridge_request_calls fn url up s1'.
have again := @request_reconnect T fn url up s1' erefl.
case: (Bridge.request fn url up s1') again => [[r2 s2] evs2] again /= le2.
split.
- by rewrite bridge_calls_cat size_cat /= -addn1 addnC; apply: leq_add.
- move=> c v' eq_c eq_v; have [eq_r _ _] := known c eq_c.
  by rewrite eq_v in eq_r.
- move=> c e' eq_c lt_c eq_e ok; have [_ eq_s eq_evs] := known c eq_c.
  have ok' : up (Bridge.connections s1') = None by rewrite /s1' eq_s.
  have [-> -> ->] := again ok'.
  rewrite /s1' eq_s eq_evs /=.
  by split=> //; rewrite neq_ltn lt_c.
Qed.

(** X26. With no client at hand and a proxy that is down, one call of
    [callWithReconnect] makes 40 connection attempts (two full runs of
    [connectWithRetry]), sleeps 962 s in all, never runs the request, and
    throws the error of [connectWithRetry]; [httpClient] stays unset. *)
Theorem bridge_gives_up_after_forty (T : Type) (fn : nat -> nat -> completion T)
        (url : string) (up : nat -> option exn) (s : Bridge.State) :
  Bridge.httpClient s = None ->
  (forall i, i < 40 -> up (Bridge.connections s + i)) ->
  let: (r, s', evs) := Bridge.callWithReconnect fn url up s in
  [/\ r = Throw (Bridge.could_not_connect url),
      Bridge.calls evs = [::],
      Bridge.connects evs = iota (Bridge.connections s) 40,
      Bridge.httpClient s' = None
    & foldr Z.add 0%Z (Bridge.sleeps evs) = 962000%Z].
Proof.
move=> no_client down.
have down1 : forall i, i < 20 -> up (Bridge.connections s + i).
  by move=> i lt_i; apply: down; apply: leq_trans lt_i _.
rewrite /Bridge.callWithReconnect /Bridge.request /Bridge.getClient no_client.
have := connectWithRetry_down url down1.
case: (Bridge.connectWithRetry _ _ _) => [[r s1] evs1] [-> -> sl1 cn1 cl1] /=.
set s1' := Bridge.mkState _ _ _.
have down2 : forall i, i < 20 -> up (Bridge.connections s1' + i).
  by move=> i lt_i; rewrite /= -addnA; apply: down; rewrite (ltn_add2l 20 i 20).
have := connectWithRetry_down url down2.
case: (Bridge.connectWithRetry _ _ _) => [[r2 s2] evs2] [-> -> sl2 cn2 cl2] /=.
split=> //.
- by rewrite bridge_calls_cat /= cl1 cl2.
- by rewrite bridge_connects_cat /= cn1 cn2 -iotaD.
- rewrite /Bridge.sleeps pmap_cat /= -!/(Bridge.sleeps _) sl1 sl2.
  by vm_compute.
Qed.

(** * Concrete runs *)

Open Scope string_scope.

(** Two tools in either order. *)
Lemma fingerprint_order_independent_witness :
  fingerprint (example_world [::] WriteOk) [:: tool_a; tool_b] =
  fingerprint (example_world [::] WriteOk) [:: tool_b; tool_a].
Proof. apply: fingerprint_order_independent; exact: perm_swap. Defined.

(** *** Batch: three calls, the second fails *)

(** The result has three elements in input order; the second alone is
    marked as failed and carries the text of its error. *)
Lemma batch_isolation_witness :
  exists items,
    batch_execute (example_world [::] WriteOk) connected_state
      (Some [seq ValueEntry call | call <- three_calls]) =
      (Normal (Batch items), [seq call_event call | call <- three_calls]) /\
    items = [:: BatchSuccess "alpha" (VString "alpha");
                BatchFailure "fail" "Error: boom";
                BatchSuccess "beta" (VString "beta")].
Proof.
have [_ _ _ valid _] :=
  @batch_isolation (example_world [::] WriteOk) connected_state
     [seq ValueEntry call | call <- three_calls].
have [cs eq_cs eq_out] := valid erefl erefl erefl erefl.
have same : three_calls = cs by apply: inj_map eq_cs => a b [].
by eexists; split; first by rewrite eq_out -same.
Defined.

(** C7. A batch whose second element is [null], with the router
    connected: the validation loop throws the TypeError of reading
    [tool_name] out of the handler. No call is dispatched, and no
    validation error is returned. *)
Example batch_null_entry_throws :
  handle (example_world [::] WriteOk) connected_state
    (BatchExecute
       (Some [seq Entry_of_value v
             | v <- [:: VObject [:: ("tool_name", VString "alpha")]; VNull]])) =
  (Throw (Error "TypeError" "Cannot read properties of null (reading 'tool_name')"),
   connected_state, [::]).
Proof. by []. Qed.

(** An execute request without arguments reaches the upstream with [{}]. *)
Lemma absent_arguments_default_witness :
  execute_tool (example_world [::] WriteOk) connected_state
    (mkCall (VString "alpha") VUndefined) =
  (Normal (Upstream (VString "alpha")), [:: EvCallTool "alpha" empty_object]).
Proof.
have [_ exec _ _] :=
  @absent_arguments_default (example_world [::] WriteOk) connected_state.
exact: (exec "alpha" VUndefined erefl erefl erefl erefl).
Defined.

(** *** Rebuilds *)

(** A first rebuild of two tools at startup, then a poll when the disk has
    filled up: the catalog is the same, nothing is embedded or written. *)
Lemma rebuild_idempotent_witness :
  let w2 := example_world [:: tool_a; tool_b] (WriteThrows (Error "Error" "ENOSPC")) in
  exists2 live, listTools two_tools = Normal live &
    buildIndex w2 "poll" (buildIndex two_tools "startup" connected_state).1.2 =
      (Normal (mkCounts 0 0 (size live)),
       (buildIndex two_tools "startup" connected_state).1.2,
       [:: EvListTools; EvLog (LogNoChanges (size live))]).
Proof.
exact: (@rebuild_idempotent two_tools
          (example_world [:: tool_a; tool_b] (WriteThrows (Error "Error" "ENOSPC")))
          "startup" "poll" connected_state
          (mkCounts 2 0 0) _ (buildIndex two_tools "startup" connected_state).2
          erefl erefl erefl erefl (fun _ => erefl) erefl erefl).
Defined.

(** C9, the claim as stated, fails: on a disk whose write throws, the call
    of [buildIndex] ends with the error, not with counts, and logs
    nothing. *)
Lemma persistence_failure_is_fatal :
  let w := example_world [:: tool_a; tool_b] (WriteThrows (Error "Error" "ENOSPC")) in
  let: (r, s', evs) := buildIndex w "startup" connected_state in
  [/\ r = Throw (Error "Error" "ENOSPC"),
      ~~ has is_log evs,
      size (tools (toolIndex s')) = 2
    & cache_file s' = Missing].
Proof. by []. Qed.

(** The same run, through the theorem: the index of two entries is
    published, the file is still missing. *)
Lemma persistence_failure_propagates_witness :
  let w := example_world [:: tool_a; tool_b] (WriteThrows (Error "Error" "ENOSPC")) in
  exists ix,
    buildIndex w "startup" connected_state =
      (Throw (Error "Error" "ENOSPC"), mkState true true ix false Missing,
       [:: EvListTools; EvEmbed "alpha: first tool"; EvEmbed "beta: ";
           EvWriteFile ix]).
Proof.
move=> w; eexists.
by case: (@persistence_failure_propagates w "startup" connected_state
            [:: tool_a; tool_b] _ 2 _ (Error "Error" "ENOSPC")
            erefl erefl erefl erefl erefl erefl (or_introl erefl)) => ->.
Defined.

(** C8, the claim as stated, fails: after a rebuild that ran to its end
    against an upstream with no tools, and with the router connected,
    [discover_tools] still answers with the not-ready error. *)
Lemma discover_not_ready_after_rebuild :
  let w := example_world [::] WriteOk in
  let: (r, s', evs) := buildIndex w "startup" connected_state in
  [/\ r = Normal (mkCounts 0 0 0),
      evs = [:: EvListTools; EvWriteFile (toolIndex s');
                EvLog (LogReindexed "startup" 0 0 0 0)],
      routerConnected s'
    & (discover_tools w s' (mkDiscoverArgs (VString "list files") None)).1 =
        Normal (IsError NotConnectedYet)].
Proof. by []. Qed.

(** With two tools indexed and the router connected, the query is
    embedded and both tools are returned. *)
Lemma discover_gating_witness :
  exists items,
    discover_tools two_tools (buildIndex two_tools "startup" connected_state).1.2
      (mkDiscoverArgs (VString "list files") None) =
    (Normal (Discovered items), [:: EvEmbed "list files"])
    /\ [seq item_name i | i <- items] = [:: "alpha"; "beta"].
Proof.
have [_ ready] :=
  @discover_gating two_tools (buildIndex two_tools "startup" connected_state).1.2
    "list files" None erefl.
by eexists; split; first exact: (ready erefl erefl).
Defined.

(** *** One description changes *)

(** The description of the first of two tools changes: it alone is
    embedded again. *)
Example rebuild_incremental_run :
  let w := example_world [:: tool_a'; tool_b] WriteOk in
  let s := (buildIndex two_tools "startup" connected_state).1.2 in
  let: (r, s', evs) := buildIndex w "poll" s in
  [/\ [seq ev <- evs | is_embed ev] = [:: EvEmbed "alpha: the first tool"],
      size (tools (toolIndex s')) = size (tools (toolIndex s)),
      embedding (nth no_entry (tools (toolIndex s')) 0) = [:: 0.5; 0.5]%float
    & forall j, j < size (tools (toolIndex s)) -> j != 0 ->
        embedding (nth no_entry (tools (toolIndex s')) j) =
        embedding (nth no_entry (tools (toolIndex s)) j)].
Proof.
exact: (@rebuild_incremental (example_world [:: tool_a'; tool_b] WriteOk) "poll"
          (buildIndex two_tools "startup" connected_state).1.2
          [:: tool_a'; tool_b] 0 [:: 0.5; 0.5]%float tool_a no_entry
          erefl erefl erefl erefl erefl erefl erefl erefl erefl).
Defined.

(** Two catalogs that differ in one description and have the same
    fingerprint: a line break inside a description reads as the boundary
    between two lines. A rebuild between them stops at the fingerprint
    check. *)
Example fingerprint_collision :
  let u := mkLiveTool "t|0" (Some ("{}" ++ LF ++ "t|1|{}" ++ LF ++ "t|0")) VUndefined in
  let x := mkLiveTool "t" (Some ("1|{}" ++ LF ++ "t|0")) VUndefined in
  let x' := mkLiveTool "t" (Some ("0|{}" ++ LF ++ "t|1")) VUndefined in
  fingerprint (example_world [::] WriteOk) [:: u; x] =
  fingerprint (example_world [::] WriteOk) [:: u; x'].
Proof. by []. Qed.

(** *** A collision of cache keys *)

(** C1. Incrementality fails on a collision of cache keys. The catalog
    differs from the previous snapshot in the description of its second
    entry alone (names are distinct), yet the rebuild calls the embedder
    not once but never: the key ["a|||b|||c"] of the changed entry is the
    key of the first entry, whose vector it receives. *)
Theorem incremental_key_collision :
  let w := example_world colliding_catalog WriteOk in
  let: (r, s', evs) := buildIndex w "poll" colliding_state in
  [/\ changed_at colliding_snapshot colliding_catalog 1,
      uniq [seq name e | e <- colliding_snapshot],
      [seq ev <- evs | is_embed ev] = [::],
      r = Normal (mkCounts 0 0 2)
    & [seq embedding e | e <- tools (toolIndex s')] =
        [:: [:: 1; 0]%float; [:: 1; 0]%float]].
Proof. by []. Qed.

(** *** The ranking of three entries *)

(** The query [1,0] ranks the first entry top, the third second, the second
    last. *)
Example cosine_ranking :
  [seq name (tool r) | r <- rank [:: 1; 0]%float three_entries 10%float] =
    [:: "first"; "third"; "second"].
Proof. by []. Qed.

(** The same ranking with a limit of 2. *)
Lemma ranking_order_and_truncation_witness :
  exists p : seq nat,
    [/\ perm_eq p (iota 0 3),
        pairwise (ranks_before [:: 1; 0]%float three_entries no_entry) p
      & rank [:: 1; 0]%float three_entries 2%float =
          [seq scored_at [:: 1; 0]%float three_entries no_entry i | i <- take 2 p]].
Proof.
have [p [perm order ranking _]] :=
  @ranking_order_and_truncation [:: 1; 0]%float three_entries 2%float no_entry erefl.
by exists p.
Defined.

(** C4, the claim as stated, fails: with a limit of 0 the ranking of a
    snapshot of three entries, none of whose similarities is NaN, has no
    result at all, not a minimum of one; with a limit of -1 it has two. *)
Lemma ranking_has_no_minimum :
  [/\ all (fun t => ~~ is_nan (cosine [:: 1; 0]%float (embedding t))) three_entries,
      rank [:: 1; 0]%float three_entries 0%float = [::]
    & [seq name (tool r) | r <- rank [:: 1; 0]%float three_entries (-1)%float] =
        [:: "first"; "third"]].
Proof. by []. Qed.

(** *** Similarities outside of [0,1] and NaN *)

(** C5. The relevance leaves the interval [0,1]: for a query embedded as
    [1,0] and an entry embedded as [-1,0], [discover_tools] returns the
    relevance -1, the cosine similarity of the two vectors, which
    [toFixed(4)] leaves as it is. *)
Theorem relevance_below_zero :
  discover_tools opposed_world opposed_state
    (mkDiscoverArgs (VString "redo") None) =
  (Normal (Discovered [:: mkDiscoverItem "undo" "reverts" (-1)%float VUndefined]),
   [:: EvEmbed "redo"])
  /\ (-1 <? 0)%float.
Proof. by []. Qed.

(** The similarities 0.99388..., 0.12345, 0.00005 and -0.00004 are returned
    as 0.9939, 0.1235, 0.0001 and -0. *)
Example relevance_four_decimals :
  [seq toFixed4_parse x
  | x <- [:: 0x1.fcde4b9b2e3b6p-1; 0x1.f9a6b50b0f27cp-4; 0x1.a36e2eb1c432dp-15;
             -0x1.4f8b588e368f1p-15]%float] =
    [:: 0x1.fce075f6fd220p-1; 0x1.f9db22d0e5604p-4; 0x1.a36e2eb1c432dp-14;
        -0]%float.
Proof. by []. Qed.

(** A zero vector and two numbers of float32, the largest one among
    them. *)
Lemma cosine_zero_vector_safe_witness :
  cosine [:: 0; -0]%float [:: 0x1.fffffep127; 0.5]%float = 0%float /\
  cosine [:: 0x1.fffffep127; 0.5]%float [:: 0; -0]%float = 0%float.
Proof.
have len : (Z.of_nat 2 <= 4294967295)%Z by [].
split.
- exact: (proj1 (@cosine_zero_vector_safe [:: 0; -0]%float
                   [:: 0x1.fffffep127; 0.5]%float erefl len erefl erefl) erefl).
- exact: (proj2 (@cosine_zero_vector_safe [:: 0x1.fffffep127; 0.5]%float
                   [:: 0; -0]%float erefl len erefl erefl) erefl).
Defined.

(** Outside of the range of float32 the guard of [cosine] can miss: for
    the zero vector [0] and the vector [1e200], whose square overflows to
    infinity, the denominator is [0 * Infinity], that is NaN, which is not
    [=== 0], and the similarity is NaN, not 0. *)
Example cosine_zero_vector_nan :
  is_nan (cosine [:: 0]%float [:: 0x1.4e718d7d7625ap+664]%float)
  /\ cosine_loop [:: 0]%float [:: 0x1.4e718d7d7625ap+664]%float (0, 0, 0)%float =
       (0, 0, infinity)%float.
Proof. by []. Qed.

(** Where nothing overflows the guard returns 0. *)
Example cosine_zero_vector : cosine [:: 0; 0]%float [:: 1; 2]%float = 0%float.
Proof. by []. Qed.

(** *** The index builder *)

(** The description of the first of two tools changes: the one key that
    the snapshot does not know is embedded, and counted as added. *)
Lemma buildIndex_embeds_unknown_witness :
  let w := example_world [:: tool_a'; tool_b] WriteOk in
  let s := (buildIndex two_tools "startup" connected_state).1.2 in
  let out := buildIndex w "poll" s in
  [/\ [seq ev <- out.2 | is_embed ev] = [:: EvEmbed "alpha: the first tool"],
      size (tools (toolIndex out.1.2)) = 2
    & forall c, out.1.1 = Normal c ->
      [/\ added c = 1, unchanged c = 1 & removed c = 0]].
Proof.
exact: (@buildIndex_embeds_unknown (example_world [:: tool_a'; tool_b] WriteOk) "poll"
          (buildIndex two_tools "startup" connected_state).1.2
          [:: tool_a'; tool_b] _ _ _ erefl erefl erefl).
Defined.

(** The snapshot of two tools in memory, and a file that does not parse. *)
Lemma snapshot_file_read_cold_only_witness :
  let s := (buildIndex two_tools "startup" connected_state).1.2 in
  same_run (buildIndex two_tools "poll" (with_file s Corrupt))
           (buildIndex two_tools "poll" s).
Proof.
exact: (proj1 (@snapshot_file_read_cold_only two_tools "poll"
                 (buildIndex two_tools "startup" connected_state).1.2) isT Corrupt).
Defined.

(** *** The similarity *)

Lemma cosine_reads_query_length_witness :
  cosine [:: 1; 0]%float [:: 0.5; 0.5; 7]%float = cosine [:: 1; 0]%float [:: 0.5; 0.5]%float
  /\ cosine [:: 1; 0]%float [:: 1]%float = nan.
Proof.
exact: (conj
          (proj1 (@cosine_reads_query_length [:: 1; 0]%float [:: 0.5; 0.5]%float
                    [:: 7]%float) isT)
          (proj2 (@cosine_reads_query_length [:: 1; 0]%float [:: 1]%float [::]) isT)).
Defined.

Lemma cosine_symmetric_witness :
  cosine [:: 0x1.ccccccccccccdp-1; 0x1.999999999999ap-4]%float [:: 1; 0]%float =
  cosine [:: 1; 0]%float [:: 0x1.ccccccccccccdp-1; 0x1.999999999999ap-4]%float.
Proof.
exact: (@cosine_symmetric [:: 1; 0]%float
          [:: 0x1.ccccccccccccdp-1; 0x1.999999999999ap-4]%float erefl).
Defined.

Lemma cosine_zero_query_witness : cosine [:: 0; -0]%float [:: 1; 2]%float = 0%float.
Proof. exact: (@cosine_zero_query [:: 0; -0]%float [:: 1; 2]%float erefl erefl). Defined.

(** *** The poll *)


(** *** The connection loop *)

(** Two refused connections, then one that is accepted: three transports,
    sleeps of 2 s and 4 s, and the index of two tools at the end. *)
Lemma connect_first_success_witness :
  let: (res, p', evs) :=
    connectToRouterWithRetry 5 third_time (fun _ => two_tools) 0 (initial_proxy Missing) in
  [/\ res = Some tt /\
      core p' = (buildIndex two_tools "startup" connected_state).1.2,
      transports p' = 3,
      launches evs = [:: 0; 1; 2],
      sleeps evs = [:: 2000; 4000]%Z
    & pollTimer p' = Some 0 /\ reconnecting p' = false].
Proof.
exact: (@connect_first_success 2 5 third_time (fun _ => two_tools) (initial_proxy Missing)
          (mkCounts 2 0 0) _ _
          (fun i => match i with 0 | 1 => fun _ => isT | _ => fun lt => lt end)
          erefl erefl erefl).
Defined.


(** Two tools upstream and a full disk: two transports. *)
Lemma startup_write_failure_launches_twice_witness :
  let: (res, p', evs) :=
    connectToRouterWithRetry 2 always_up (fun _ => unwritable [:: tool_a; tool_b]) 0
      (initial_proxy Missing) in
  [/\ res = Some tt, launches evs = [:: 0; 1], sleeps evs = [:: 2000]%Z,
      cache_file (core p') = Missing & size (tools (toolIndex (core p'))) = 2].
Proof.
exact: (@startup_write_failure_launches_twice 0 always_up
          (fun _ => unwritable [:: tool_a; tool_b]) (initial_proxy Missing)
          [:: tool_a; tool_b] erefl erefl erefl erefl (fun _ => erefl)
          isT isT isT isT isT).
Defined.

(** *** The environment file *)

(** The port of the environment stays, whatever the file says. *)
Lemma loadDotEnv_keeps_environment_witness :
  env_in (loadDotEnv (Some "HTTP_PORT=9999") [:: ("HTTP_PORT", "4000")]) "HTTP_PORT" /\
  env_get (loadDotEnv (Some "HTTP_PORT=9999") [:: ("HTTP_PORT", "4000")]) "HTTP_PORT" =
    Some "4000".
Proof.
exact: (@loadDotEnv_keeps_environment (Some "HTTP_PORT=9999")
          [:: ("HTTP_PORT", "4000")] "HTTP_PORT" erefl).
Defined.

(** The line [NOTE=" a = b # 'c' "]. *)
Lemma quoted_value_is_verbatim_witness :
  env_get
    (loadDotEnv
       (Some ("NOTE" ++ String "=" (String double_quote
                (" a = b # 'c' " ++ String double_quote ""))))
       [::])
    "NOTE" = Some " a = b # 'c' ".
Proof.
exact: (@quoted_value_is_verbatim "NOTE" " a = b # 'c' " double_quote double_quote [::]
          erefl erefl erefl erefl erefl erefl).
Defined.

(** A name that the file assigns twice. *)
Lemma loadDotEnv_first_assignment_wins_witness :
  loadDotEnv (Some ("A=1" ++ String LFc "A=2")) [::] =
    loadDotEnv (Some "A=2") (loadDotEnv (Some "A=1") [::])
  /\ (env_in (loadDotEnv (Some "A=1") [::]) "A" ->
      env_get (loadDotEnv (Some ("A=1" ++ String LFc "A=2")) [::]) "A" =
      env_get (loadDotEnv (Some "A=1") [::]) "A").
Proof. exact: (@loadDotEnv_first_assignment_wins "A=1" "A=2" [::] "A" erefl). Defined.

(** The environment after the file of the examples above, line by line. *)
Example loadDotEnv_run :
  loadDotEnv
    (Some ("# the proxy" ++ String LFc
           (" HTTP_PORT = 9999 " ++ String LFc
           ("MCPR_TOKEN='secret'" ++ String (ascii_of_nat 13) (String LFc
           ("=nothing" ++ String LFc
           ("no assignment" ++ String LFc
           ("toString=inherited" ++ String LFc
           "MCPR_TOKEN=other"))))))))
    [:: ("HTTP_PORT", "4000")] =
  [:: ("MCPR_TOKEN", "secret"); ("HTTP_PORT", "4000")].
Proof. by []. Qed.

(** *** The icons *)

(** The check value of CRC-32, and the CRC of the chunk IEND. *)
Example crc32_check_value :
  crc32 (Buffer_from_string "123456789") = 0xCBF43926%Z /\
  crc32 (Buffer_from_string "IEND") = 0xAE426082%Z.
Proof. by vm_compute. Qed.

Lemma crc32_detects_one_byte_witness :
  crc32 (Buffer_from_string "IHDR") <> crc32 (Buffer_from_string "IHDS").
Proof.
exact: (@crc32_detects_one_byte (Buffer_from_string "IHD") [::] Byte.x52 Byte.x53
          (fun eq_b => Bool.diff_false_true
             (f_equal (fun b => if b is Byte.x53 then true else false) eq_b))).
Defined.

(** The green icon with a compressor that stores: 1040 bytes of data. *)
Lemma makePng_layout_witness :
  exists len crc : Buffer,
    [/\ makePng stored 34 197 94 =
          Normal (PNG_signature ++ IHDR_16x16_RGBA
                    ++ (len ++ Buffer_from_string "IDAT"
                          ++ [seq byte_of_Z z | z <- raw_pixels 34 197 94] ++ crc)
                    ++ IEND)%SEQ,
        size len = 4, be32 len = 1040%Z, size crc = 4
      & be32 crc =
          crc32 (Buffer_from_string "IDAT"
                   ++ [seq byte_of_Z z | z <- raw_pixels 34 197 94])%SEQ].
Proof.
have fits :
    (Z.of_nat (size (stored [seq byte_of_Z z | z <- raw_pixels 34 197 94]))
     <= 0xFFFFFFFF)%Z by vm_compute.
exact: (@makePng_layout stored 34 197 94 fits).
Defined.

Lemma makeIco_directory_witness :
  exists ico,
    [/\ makeIco stored 34 197 94 = Normal ico,
        size ico = 22 + size green_png /\ drop 22 ico = green_png,
        le32 (field 18 4 ico) = 22%Z,
        le32 (field 14 4 ico) = Z.of_nat (size green_png)
      & [seq Z_of_byte x | x <- take 14 ico] =
          [:: 0; 0; 1; 0; 1; 0; 16; 16; 0; 0; 0; 0; 32; 0]%Z].
Proof.
have eq_png : makePng stored 34 197 94 = Normal green_png by vm_compute.
have fits : (Z.of_nat (size green_png) <= 0xFFFFFFFF)%Z by vm_compute.
exact: (@makeIco_directory stored 34 197 94 green_png eq_png fits).
Defined.

(** *** The bridge *)

(** The proxy accepts the third connection. *)
Lemma bridge_connectWithRetry_outcome_witness :
  let: (r, s', evs) := Bridge.connectWithRetry proxy_url third_time fresh_bridge in
  [/\ r = Normal 2, Bridge.connections s' = 3, Bridge.httpClient s' = None,
      Bridge.connects evs = [:: 0; 1; 2]
    & Bridge.sleeps evs = [:: 1000; 2000]%Z].
Proof.
exact: (@bridge_connectWithRetry_outcome 2 proxy_url third_time fresh_bridge
          (fun i => match i with 0 | 1 => fun _ => isT | _ => fun lt => lt end)
          (fun _ => erefl)).
Defined.

(** The proxy is down. *)
Lemma bridge_gives_up_after_forty_witness :
  let: (r, s', evs) :=
    Bridge.callWithReconnect (fun _ _ => Normal VNull) proxy_url always_down fresh_bridge in
  [/\ r = Throw (Bridge.could_not_connect proxy_url),
      Bridge.calls evs = [::],
      Bridge.connects evs = iota 0 40,
      Bridge.httpClient s' = None
    & foldr Z.add 0%Z (Bridge.sleeps evs) = 962000%Z].
Proof.
exact (@bridge_gives_up_after_forty value (fun _ _ => Normal VNull) proxy_url
          always_down fresh_bridge erefl (fun _ _ => isT)).
Defined.

(** A request on a client whose connection has died runs again on the
    client of a new connection. *)
Lemma callWithReconnect_retries_once_witness :
  let: (r, s', evs) :=
    Bridge.callWithReconnect
      (Bridge.tools_call first_client_dead "discover_tools" VUndefined)
      proxy_url always_up (Bridge.mkState (Some 0) 1 0) in
  [/\ r = Normal empty_object, Bridge.calls evs = [:: 0; 1]
    & Bridge.httpClient s' = Some 1].
Proof.
have [_ _ retry] := @callWithReconnect_retries_once value
          (Bridge.tools_call first_client_dead "discover_tools" VUndefined)
          proxy_url always_up (Bridge.mkState (Some 0) 1 0).
have [eq_r eq_c _ eq_h] := retry 0 (Error "Error" "fetch failed") erefl isT erefl erefl.
split; [exact eq_r | exact eq_c | exact eq_h].
Defined.

(** The same run, event by event, with [{}] for the absent arguments. *)
Example callWithReconnect_run :
  Bridge.callWithReconnect
    (Bridge.tools_call first_client_dead "discover_tools" VUndefined)
    proxy_url always_up (Bridge.mkState (Some 0) 1 0) =
  (Normal empty_object, Bridge.mkState (Some 1) 2 2,
   [:: Bridge.Call 0; Bridge.LogRequestFailed (Error "Error" "fetch failed");
       Bridge.Connect 1; Bridge.LogConnected; Bridge.Call 1]).
Proof. by []. Qed.
